(** * dilqr: stochastic linearization of simulator dynamics

    A shallow embedding of the linearization engine of the repository
    ([irs_lqr/mbp_dynamics.py]), of the pendulum example dynamics
    ([examples/pendulum/pendulum_dynamics.py]) and of the quasistatic
    adapter ([two_spheres_quasistatic/quasistatic_dynamics.py]).

    Conventions of the embedding.
    - Floating-point numbers are elements of an abstract scalar structure
      [Scalar]; theorems that need algebra assume the laws of an ordered
      commutative ring ([ScalarLaws]), i.e. exact arithmetic.
    - A numpy array carries its shape; an operation that numpy rejects at
      run time returns [Raise e] with the Python exception it raises.
    - Methods that mutate the adapter object or the process-wide random
      source are computations in a state-and-exception monad.
    - Library routines outside the repository (Drake's plant and simulator,
      numpy's normal sampler and LAPACK solver) are fields of an interface
      record; theorems hold for every implementation of the interface. *)

From Stdlib Require Import String.
From Stdlib Require Import List Arith Bool Lia ZArith QArith Qcanon Reals.
From Stdlib Require Import DecimalString.
Import ListNotations.

Set Implicit Arguments.
Open Scope nat_scope.

(* ------------------------------------------------------------------ *)
(** ** Python exceptions and the two monads                            *)
(* ------------------------------------------------------------------ *)

Inductive exn : Type :=
| IndexError
| ValueError
| KeyError
| LinAlgError
| RuntimeError.

Inductive result (A : Type) : Type :=
| Ok (a : A)
| Raise (e : exn).

Arguments Ok {A} a.
Arguments Raise {A} e.

Class Monad (m : Type -> Type) : Type := {
  ret : forall {A}, A -> m A;
  bind : forall {A B}, m A -> (A -> m B) -> m B
}.

Declare Scope py_scope.
Delimit Scope py_scope with py.
Notation "x <- c1 ;; c2" := (bind c1 (fun x => c2))
  (at level 61, c1 at next level, right associativity) : py_scope.
Notation "' pat <- c1 ;; c2" :=
  (bind c1 (fun x => match x with pat => c2 end))
  (at level 61, pat pattern, c1 at next level, right associativity) : py_scope.
Open Scope py_scope.

#[export] Instance result_monad : Monad result := {
  ret := fun A a => Ok a;
  bind := fun A B c k => match c with Ok a => k a | Raise e => Raise e end
}.

(** A method of an object whose mutable part has type [S]. *)
Definition M (S A : Type) : Type := S -> result (A * S).

#[export] Instance M_monad (S : Type) : Monad (M S) := {
  ret := fun A a s => Ok (a, s);
  bind := fun A B c k s =>
    match c s with
    | Ok (a, s') => k a s'
    | Raise e => Raise e
    end
}.

Definition lift {S A : Type} (r : result A) : M S A :=
  fun s => match r with Ok a => Ok (a, s) | Raise e => Raise e end.

Definition get {S : Type} : M S S := fun s => Ok (s, s).
Definition put {S : Type} (s : S) : M S unit := fun _ => Ok (tt, s).

(** [for i in range(n)] updating the local variables [acc]. *)
Fixpoint for_each {m : Type -> Type} `{Monad m} {I Acc : Type}
    (body : I -> Acc -> m Acc) (l : list I) (acc : Acc) : m Acc :=
  match l with
  | [] => ret acc
  | i :: l' => acc' <- body i acc ;; for_each body l' acc'
  end.

Definition for_range {m : Type -> Type} `{Monad m} {Acc : Type}
    (n : nat) (body : nat -> Acc -> m Acc) (acc : Acc) : m Acc :=
  for_each body (seq 0 n) acc.

(** Evaluate a list of computations from left to right. *)
Fixpoint map_m {m : Type -> Type} `{Monad m} {I A : Type}
    (f : I -> m A) (l : list I) : m (list A) :=
  match l with
  | [] => ret []
  | i :: l' => a <- f i ;; rest <- map_m f l' ;; ret (a :: rest)
  end.

(** [l[i]] on a Python list or an array of objects. *)
Definition getitem_list {A : Type} (l : list A) (i : nat) : result A :=
  match nth_error l i with
  | Some a => Ok a
  | None => Raise IndexError
  end.

(* ------------------------------------------------------------------ *)
(** ** Scalars                                                         *)
(* ------------------------------------------------------------------ *)

(** The arithmetic the programs use on floats. [of_int] is the
    conversion of a Python int in a mixed expression such as
    [ABhat /= n_samples]. *)
Class Scalar : Type := {
  num : Type;
  s0 : num;
  s1 : num;
  sadd : num -> num -> num;
  ssub : num -> num -> num;
  smul : num -> num -> num;
  sdiv : num -> num -> num;
  sneg : num -> num;
  of_int : Z -> num
}.

(** A one-dimensional array of shape [(length v,)]. *)
Abbreviation vec := (list num).

(** [np.sin], [torch.cos], [torch.tan], ... *)
Class Trig (F : Scalar) : Type := {
  ssin : num -> num;
  scos : num -> num;
  stan : num -> num
}.

(** Exact arithmetic: an ordered commutative ring without zero divisors. *)
Record ScalarLaws (F : Scalar) (sle : num -> num -> Prop) : Prop := {
  sl_ring : ring_theory s0 s1 sadd smul ssub sneg (@eq num);
  sl_refl : forall a, sle a a;
  sl_trans : forall a b c, sle a b -> sle b c -> sle a c;
  sl_antisym : forall a b, sle a b -> sle b a -> a = b;
  sl_add : forall a b c d, sle a b -> sle c d -> sle (sadd a c) (sadd b d);
  sl_square : forall a, sle s0 (smul a a);
  sl_integral : forall a b, smul a b = s0 -> a = s0 \/ b = s0
}.

(* ------------------------------------------------------------------ *)
(** ** numpy arrays                                                    *)
(* ------------------------------------------------------------------ *)

Section Arrays.
Context {F : Scalar}.


(** A two-dimensional array of shape [(shape0, shape1)]. *)
Record ndarray : Type := NdArray {
  shape0 : nat;
  shape1 : nat;
  rowsof : list (list num)
}.

Definition wf (a : ndarray) : Prop :=
  length (rowsof a) = shape0 a /\
  Forall (fun r => length r = shape1 a) (rowsof a).

Definition has_shape (r c : nat) (a : ndarray) : Prop :=
  shape0 a = r /\ shape1 a = c /\ wf a.

Definition vtab (n : nat) (f : nat -> num) : vec := map f (seq 0 n).

Definition mtab (r c : nat) (f : nat -> nat -> num) : ndarray :=
  NdArray r c (map (fun i => vtab c (f i)) (seq 0 r)).

Definition vget (v : vec) (i : nat) : num := nth i v s0.
Definition entry (a : ndarray) (i j : nat) : num :=
  nth j (nth i (rowsof a) []) s0.
Definition row (a : ndarray) (i : nat) : vec := nth i (rowsof a) [].

(** [np.zeros(n)], [np.zeros((r, c))], [np.eye(n, n)]. *)
Definition np_zeros1 (n : nat) : vec := vtab n (fun _ => s0).
Definition np_zeros (r c : nat) : ndarray := mtab r c (fun _ _ => s0).
Definition np_eye (r c : nat) : ndarray :=
  mtab r c (fun i j => if i =? j then s1 else s0).

Definition all_zero (a : ndarray) : Prop :=
  forall i j, entry a i j = s0.

(** [v[i]] on a one-dimensional array, [a[i]] on a two-dimensional one. *)
Definition getitem1 (v : vec) (i : nat) : result num :=
  if i <? length v then Ok (vget v i) else Raise IndexError.
Definition getitem (a : ndarray) (i : nat) : result vec :=
  if i <? shape0 a then Ok (row a i) else Raise IndexError.

(** [a[:, j]]. *)
Definition getcol (a : ndarray) (j : nat) : result vec :=
  if j <? shape1 a then Ok (vtab (shape0 a) (fun i => entry a i j))
  else Raise IndexError.

(** Length of a broadcast axis: equal lengths, or one of them is 1. *)
Definition bdim (a b : nat) : option nat :=
  if a =? b then Some a
  else if a =? 1 then Some b
  else if b =? 1 then Some a
  else None.

(** Index into an axis of length [n] that is broadcast. *)
Definition bidx (n i : nat) : nat := if n =? 1 then 0 else i.

(** Elementwise binary operation on one-dimensional arrays. *)
Definition ufunc1 (op : num -> num -> num) (a b : vec) : result vec :=
  match bdim (length a) (length b) with
  | Some n =>
      Ok (vtab n (fun i => op (vget a (bidx (length a) i))
                              (vget b (bidx (length b) i))))
  | None => Raise ValueError
  end.

(** Elementwise binary operation on two-dimensional arrays. *)
Definition ufunc2 (op : num -> num -> num) (a b : ndarray) : result ndarray :=
  match bdim (shape0 a) (shape0 b), bdim (shape1 a) (shape1 b) with
  | Some r, Some c =>
      Ok (mtab r c (fun i j =>
            op (entry a (bidx (shape0 a) i) (bidx (shape1 a) j))
               (entry b (bidx (shape0 b) i) (bidx (shape1 b) j))))
  | _, _ => Raise ValueError
  end.

(** A one-dimensional array seen as an array of shape [(1, n)], which is
    how numpy aligns it with a two-dimensional operand. *)
Definition as_row (v : vec) : ndarray := NdArray 1 (length v) [v].

(** Scalar with array. *)
Definition vscale (k : num) (v : vec) : vec := map (smul k) v.
Definition vneg (v : vec) : vec := map sneg v.
Definition mscale (a : ndarray) (k : num) : ndarray :=
  mtab (shape0 a) (shape1 a) (fun i j => smul (entry a i j) k).
Definition mscale_l (k : num) (a : ndarray) : ndarray :=
  mtab (shape0 a) (shape1 a) (fun i j => smul k (entry a i j)).
Definition mdiv_scalar (a : ndarray) (k : num) : ndarray :=
  mtab (shape0 a) (shape1 a) (fun i j => sdiv (entry a i j) k).

(** [a.transpose()] and [a.T]. *)
Definition transpose (a : ndarray) : ndarray :=
  mtab (shape1 a) (shape0 a) (fun i j => entry a j i).

(** [np.hstack((x, u))] on one-dimensional arrays. *)
Definition np_hstack1 (x u : vec) : vec := x ++ u.

(** [np.vstack] of one-dimensional arrays: all must have one length. *)
Definition np_vstack (vs : list vec) : result ndarray :=
  match vs with
  | [] => Raise ValueError
  | v :: rest =>
      if forallb (fun w => length w =? length v) rest
      then Ok (NdArray (length vs) (length v) vs)
      else Raise ValueError
  end.

(** Python slice bounds [lo:hi] on an axis of length [n]. *)
Definition clip (n k : nat) : nat := Nat.min n k.

(** [a[r0:r1, c0:c1] = v]: the value is broadcast to the block. *)
Definition setblock (a : ndarray) (r0 r1 c0 c1 : nat) (v : ndarray)
  : result ndarray :=
  let r0 := clip (shape0 a) r0 in
  let r1 := Nat.max r0 (clip (shape0 a) r1) in
  let c0 := clip (shape1 a) c0 in
  let c1 := Nat.max c0 (clip (shape1 a) c1) in
  let br := r1 - r0 in
  let bc := c1 - c0 in
  if ((shape0 v =? br) || (shape0 v =? 1)) &&
     ((shape1 v =? bc) || (shape1 v =? 1))
  then Ok (mtab (shape0 a) (shape1 a) (fun i j =>
             if (r0 <=? i) && (i <? r1) && (c0 <=? j) && (j <? c1)
             then entry v (bidx (shape0 v) (i - r0)) (bidx (shape1 v) (j - c0))
             else entry a i j))
  else Raise ValueError.

(** [a[i] = v] with [v] one-dimensional. *)
Definition setitem (a : ndarray) (i : nat) (v : vec) : result ndarray :=
  if i <? shape0 a then setblock a i (S i) 0 (shape1 a) (as_row v)
  else Raise IndexError.

(** [a[r0:r1, c0:c1]] as a value. *)
Definition getblock (a : ndarray) (r0 r1 c0 c1 : nat) : ndarray :=
  let r0 := clip (shape0 a) r0 in
  let r1 := Nat.max r0 (clip (shape0 a) r1) in
  let c0 := clip (shape1 a) c0 in
  let c1 := Nat.max c0 (clip (shape1 a) c1) in
  mtab (r1 - r0) (c1 - c0) (fun i j => entry a (r0 + i) (c0 + j)).

(** [v[idx]] with a list of indices (fancy indexing). *)
Definition take (v : vec) (idx : list nat) : result vec :=
  map_m (getitem1 v) idx.

(** Exact-shape counterparts of the broadcasting operations, used by
    specifications. *)
Definition vadd (a b : vec) : vec :=
  vtab (length a) (fun i => sadd (vget a i) (vget b i)).
Definition madd (a b : ndarray) : ndarray :=
  mtab (shape0 a) (shape1 a) (fun i j => sadd (entry a i j) (entry b i j)).
Definition msum (r c : nat) (l : list ndarray) : ndarray :=
  fold_left madd l (np_zeros r c).
Definition msub_row (a : ndarray) (v : vec) : ndarray :=
  mtab (shape0 a) (shape1 a) (fun i j => ssub (entry a i j) (vget v j)).

(** [[a, b]] side by side and [[a; b]] on top of each other. *)
Definition hstack2 (a b : ndarray) : ndarray :=
  NdArray (shape0 a) (shape1 a + shape1 b)
          (map (fun i => row a i ++ row b i) (seq 0 (shape0 a))).
Definition vstack2 (a b : ndarray) : ndarray :=
  NdArray (shape0 a + shape0 b) (shape1 a) (rowsof a ++ rowsof b).

(** Matrix product and matrix-vector product, used by specifications. *)
Definition dot (a b : vec) : num :=
  fold_right (fun p acc => sadd (smul (fst p) (snd p)) acc) s0 (combine a b).
Definition matvec (a : ndarray) (v : vec) : vec :=
  map (fun r => dot r v) (rowsof a).
Definition col (a : ndarray) (j : nat) : vec :=
  vtab (shape0 a) (fun i => entry a i j).
Definition matmul (a b : ndarray) : ndarray :=
  mtab (shape0 a) (shape1 b) (fun i j => dot (row a i) (col b j)).

(** The sum of squared residuals of [a x ~ b], minimisers of it, and
    full column rank (the only vector that [a] sends to zero is zero). *)
Definition vsum (l : vec) : num := fold_right sadd s0 l.

Definition vsub (a b : vec) : vec :=
  vtab (length a) (fun i => ssub (vget a i) (vget b i)).

Definition residual (a b x : ndarray) : num :=
  vsum (flat_map
          (fun i =>
             map (fun j =>
                    let d := ssub (dot (row a i) (col x j)) (entry b i j) in
                    smul d d)
                 (seq 0 (shape1 b)))
          (seq 0 (shape0 a))).

Definition is_least_squares (sle : num -> num -> Prop) (a b x : ndarray)
  : Prop :=
  has_shape (shape1 a) (shape1 b) x /\
  forall y, has_shape (shape1 a) (shape1 b) y ->
            sle (residual a b x) (residual a b y).

Definition full_column_rank (a : ndarray) : Prop :=
  forall v, length v = shape1 a ->
            matvec a v = np_zeros1 (shape0 a) ->
            v = np_zeros1 (shape1 a).

End Arrays.

(* ------------------------------------------------------------------ *)
(** ** examples/pendulum/pendulum_dynamics.py                          *)
(* ------------------------------------------------------------------ *)

Module Pendulum.
Section Pendulum.
Context {F : Scalar} {T : Trig F}.

(** The numeric attributes of a [PendulumDynamics] object. *)
Record PendulumDynamics : Type := {
  pd_dt : num;
  pd_dim_x : nat;
  pd_dim_u : nat
}.

(** [PendulumDynamics.__init__(dt)]: the dimensions are constants. *)
Definition PendulumDynamics_init (dt : num) : PendulumDynamics :=
  {| pd_dt := dt; pd_dim_x := 2; pd_dim_u := 1 |}.

Definition dynamics_np (self : PendulumDynamics) (x u : vec) : result vec :=
  angle <- getitem1 x 0 ;;
  speed <- getitem1 x 1 ;;
  u0 <- getitem1 u 0 ;;
  let next_speed :=
    sadd speed (smul (pd_dt self) (sadd (sneg (ssin angle)) u0)) in
  let next_angle := sadd angle (smul (pd_dt self) next_speed) in
  ret [next_angle; next_speed].

Definition dynamics_batch_np (self : PendulumDynamics) (x u : ndarray)
  : result ndarray :=
  angle <- getcol x 0 ;;
  speed <- getcol x 1 ;;
  torque <- getcol u 0 ;;
  acc <- ufunc1 sadd (vneg (map ssin angle)) torque ;;
  next_speed <- ufunc1 sadd speed (vscale (pd_dt self) acc) ;;
  next_angle <- ufunc1 sadd angle (vscale (pd_dt self) next_speed) ;;
  stacked <- np_vstack [next_angle; next_speed] ;;
  ret (transpose stacked).

(** torch reports a shape mismatch as [RuntimeError]. *)
Definition torch_op {A : Type} (r : result A) : result A :=
  match r with
  | Raise ValueError => Raise RuntimeError
  | _ => r
  end.

(** [torch.Tensor(a).cuda()]: the values and the shape are those of [a]. *)
Definition to_cuda (a : ndarray) : ndarray := a.

Definition dynamics_batch_torch (self : PendulumDynamics) (x u : ndarray)
  : result ndarray :=
  let x := to_cuda x in
  let u := to_cuda u in
  heading <- getcol x 2 ;;
  v <- getcol x 3 ;;
  steer <- getcol x 4 ;;
  d0 <- torch_op (ufunc1 smul v (map scos heading)) ;;
  d1 <- torch_op (ufunc1 smul v (map ssin heading)) ;;
  d2 <- torch_op (ufunc1 smul v (map stan steer)) ;;
  d3 <- getcol u 0 ;;
  d4 <- getcol u 1 ;;
  stacked <- torch_op (np_vstack [d0; d1; d2; d3; d4]) ;;
  let dxdt := transpose stacked in
  torch_op (ufunc2 sadd x (mscale_l (pd_dt self) dxdt)).

(** The elementwise sequence of single-pair calls, row by row. *)
Definition dynamics_np_rows (self : PendulumDynamics) (x u : ndarray)
  : result (list vec) :=
  map_m (fun i =>
           xi <- getitem x i ;;
           ui <- getitem u i ;;
           dynamics_np self xi ui)
        (seq 0 (shape0 x)).

(** The next state of sample [i], as [dynamics_np] computes it. *)
Definition pendulum_row (self : PendulumDynamics) (x u : ndarray)
    (i : nat) : vec :=
  let next_speed :=
    sadd (entry x i 1)
         (smul (pd_dt self)
               (sadd (sneg (ssin (entry x i 0))) (entry u i 0))) in
  [sadd (entry x i 0) (smul (pd_dt self) next_speed); next_speed].

(** *** The symbolic expressions of [pydrake.symbolic] that the class
    builds, their derivative and their evaluation. *)

(** [ps.Variable(name)]. *)
Definition ps_Variable : Type := string.

Inductive Expression : Type :=
| EVar (v : ps_Variable)
| EConst (c : num)
| EAdd (a b : Expression)
| EMul (a b : Expression)
| ENeg (a : Expression)
| ESin (a : Expression)
| ECos (a : Expression).

(** An environment [{Variable: float}]. *)
Definition Environment : Type := list (ps_Variable * num).

Fixpoint env_get (env : Environment) (v : ps_Variable) : result num :=
  match env with
  | [] => Raise RuntimeError
  | (w, a) :: env' => if String.eqb w v then Ok a else env_get env' v
  end.

Fixpoint env_set (env : Environment) (v : ps_Variable) (a : num) : Environment :=
  match env with
  | [] => [(v, a)]
  | (w, b) :: env' =>
      if String.eqb w v then (w, a) :: env' else (w, b) :: env_set env' v a
  end.

(** [env.update(other)]. *)
Definition env_update (env other : Environment) : Environment :=
  fold_left (fun e p => env_set e (fst p) (snd p)) other env.

(** [e.Evaluate(env)]: a variable without a value is an error. *)
Fixpoint Expression_Evaluate (e : Expression) (env : Environment)
  : result num :=
  match e with
  | EVar v => env_get env v
  | EConst c => Ok c
  | EAdd a b =>
      x <- Expression_Evaluate a env ;;
      y <- Expression_Evaluate b env ;;
      ret (sadd x y)
  | EMul a b =>
      x <- Expression_Evaluate a env ;;
      y <- Expression_Evaluate b env ;;
      ret (smul x y)
  | ENeg a => x <- Expression_Evaluate a env ;; ret (sneg x)
  | ESin a => x <- Expression_Evaluate a env ;; ret (ssin x)
  | ECos a => x <- Expression_Evaluate a env ;; ret (scos x)
  end.

(** [e.Differentiate(v)]. *)
Fixpoint Differentiate (e : Expression) (v : ps_Variable) : Expression :=
  match e with
  | EVar w => if String.eqb w v then EConst s1 else EConst s0
  | EConst _ => EConst s0
  | EAdd a b => EAdd (Differentiate a v) (Differentiate b v)
  | EMul a b =>
      EAdd (EMul (Differentiate a v) b) (EMul a (Differentiate b v))
  | ENeg a => ENeg (Differentiate a v)
  | ESin a => EMul (ECos a) (Differentiate a v)
  | ECos a => EMul (ENeg (ESin a)) (Differentiate a v)
  end.

(** [ps.Jacobian(f, vars)]: one row per expression, one column per
    variable. *)
Definition Jacobian (f : list Expression) (vars : list ps_Variable)
  : list (list Expression) :=
  map (fun e => map (Differentiate e) vars) f.

(** [ps.Evaluate(m, env)] on a matrix of expressions. *)
Definition Evaluate (m : list (list Expression)) (env : Environment)
  : result ndarray :=
  rows <- map_m (fun r => map_m (fun e => Expression_Evaluate e env) r) m ;;
  ret (NdArray (length m) (length (hd [] m)) rows).

(** The decimal numeral that [str.format] prints for [i]. *)
Definition format_nat (i : nat) : string :=
  NilZero.string_of_uint (Nat.to_uint i).

(** The attributes [x_sym] and [u_sym] that [__init__] creates. *)
Definition x_sym (self : PendulumDynamics) : list ps_Variable :=
  map (fun i => ("x_" ++ format_nat i)%string) (seq 0 (pd_dim_x self)).
Definition u_sym (self : PendulumDynamics) : list ps_Variable :=
  map (fun i => ("u_" ++ format_nat i)%string) (seq 0 (pd_dim_u self)).

Definition dynamics_sym (self : PendulumDynamics) (x u : list Expression)
  : result (list Expression) :=
  angle <- getitem_list x 0 ;;
  speed <- getitem_list x 1 ;;
  u0 <- getitem_list u 0 ;;
  let next_speed :=
    EAdd speed (EMul (EConst (pd_dt self)) (EAdd (ENeg (ESin angle)) u0)) in
  let next_angle := EAdd angle (EMul (EConst (pd_dt self)) next_speed) in
  ret [next_angle; next_speed].

(** The attributes [f_sym] and [jacobian_xu_sym] that [__init__] creates. *)
Definition f_sym (self : PendulumDynamics) : result (list Expression) :=
  dynamics_sym self (map EVar (x_sym self)) (map EVar (u_sym self)).

Definition jacobian_xu_sym (self : PendulumDynamics)
  : result (list (list Expression)) :=
  f <- f_sym self ;;
  ret (Jacobian f (x_sym self ++ u_sym self)).

Definition jacobian_xu (self : PendulumDynamics) (x u : vec) : result ndarray :=
  env <- for_each
           (fun i (env : Environment) =>
              v <- getitem_list (x_sym self) i ;;
              xi <- getitem1 x i ;;
              ret (env_set env v xi))
           (seq 0 (pd_dim_x self)) [] ;;
  other <- for_each
             (fun i (env : Environment) =>
                v <- getitem_list (u_sym self) i ;;
                ui <- getitem1 u i ;;
                ret (env_set env v ui))
             (seq 0 (pd_dim_u self)) [] ;;
  let env := env_update env other in
  J <- jacobian_xu_sym self ;;
  Evaluate J env.

(** Entry [c] of the state that a call returns. *)
Definition component (r : result vec) (c : nat) : num :=
  match r with
  | Ok v => vget v c
  | Raise _ => s0
  end.

End Pendulum.
End Pendulum.

(* ------------------------------------------------------------------ *)
(** ** Python dictionaries keyed by model instance                     *)
(* ------------------------------------------------------------------ *)

(** [ModelInstanceIndex]. *)
Definition model : Type := nat.

(** A [dict] in insertion order. *)
Definition dict (A : Type) : Type := list (model * A).

Fixpoint dict_get {A : Type} (d : dict A) (k : model) : result A :=
  match d with
  | [] => Raise KeyError
  | (k', a) :: d' => if k' =? k then Ok a else dict_get d' k
  end.

Fixpoint dict_set {A : Type} (d : dict A) (k : model) (a : A) : dict A :=
  match d with
  | [] => [(k, a)]
  | (k', a') :: d' =>
      if k' =? k then (k', a) :: d' else (k', a') :: dict_set d' k a
  end.

(** [d.keys()]. *)
Definition keys {A : Type} (d : dict A) : list model := map fst d.

(** [{**d1, **d2}]. *)
Definition dict_merge {A : Type} (d1 d2 : dict A) : dict A :=
  fold_left (fun d p => dict_set d (fst p) (snd p)) d2 d1.

(* ------------------------------------------------------------------ *)
(** ** two_spheres_quasistatic/quasistatic_dynamics.py                 *)
(* ------------------------------------------------------------------ *)

Section Indexing.
Context {F : Scalar}.

(** [v[idx] = vals] with a list of indices: the value is broadcast to
    the indices, every index must be in range. *)
Definition put_at (v : vec) (idx : list nat) (vals : vec) : result vec :=
  if (length vals =? length idx) || (length vals =? 1) then
    if forallb (fun i => i <? length v) idx then
      Ok (fold_left
            (fun acc p =>
               vtab (length acc)
                    (fun j => if j =? fst p then snd p else vget acc j))
            (combine idx (vtab (length idx)
                               (fun k => vget vals (bidx (length vals) k))))
            v)
    else Raise IndexError
  else Raise ValueError.

(** [v[lo:hi]]. *)
Definition slice {A : Type} (v : list A) (lo hi : nat) : list A :=
  firstn (hi - lo) (skipn lo v).

(** [v[lo:hi] = vals] on a one-dimensional array: the bounds are clipped
    and a value of length 1 is broadcast to the slice. *)
Definition setslice1 {A : Type} (v : list A) (lo hi : nat) (vals : list A)
  : result (list A) :=
  let lo := clip (length v) lo in
  let hi := Nat.max lo (clip (length v) hi) in
  match vals with
  | [x] => Ok (firstn lo v ++ repeat x (hi - lo) ++ skipn hi v)
  | _ =>
      if length vals =? hi - lo
      then Ok (firstn lo v ++ vals ++ skipn hi v)
      else Raise ValueError
  end.

(** [a[idx, idx] = vals] with a list of indices: entry [(idx[k], idx[k])]
    receives [vals[k]]; the value is broadcast to the indices and every
    index must be in range on both axes. *)
Definition put_diag (a : ndarray) (idx : list nat) (vals : vec)
  : result ndarray :=
  if (length vals =? length idx) || (length vals =? 1) then
    if forallb (fun i => (i <? shape0 a) && (i <? shape1 a)) idx then
      Ok (fold_left
            (fun acc p =>
               mtab (shape0 acc) (shape1 acc)
                    (fun i j => if (i =? fst p) && (j =? fst p)
                                then snd p else entry acc i j))
            (combine idx (vtab (length idx)
                               (fun k => vget vals (bidx (length vals) k))))
            a)
    else Raise IndexError
  else Raise ValueError.

(** An [np.ndarray] of one or of two dimensions; in an assignment to a
    two-dimensional block the former is aligned as a single row. *)
Inductive array : Type :=
| Arr1 (v : vec)
| Arr2 (a : ndarray).

Definition as_2d (a : array) : ndarray :=
  match a with
  | Arr1 v => as_row v
  | Arr2 m => m
  end.

(** Whether some index list of [d] holds [i]. *)
Definition indexed (d : dict (list nat)) (i : nat) : bool :=
  existsb (fun p => existsb (Nat.eqb i) (snd p)) d.

(** The index lists of [d] moved up by [offset]. *)
Definition shifted (offset : nat) (d : dict (list nat)) : dict (list nat) :=
  map (fun p => (fst p, map (fun i => i + offset) (snd p))) d.

(** Consecutive chunks of lengths [ns] cut from [u]; a chunk that runs
    past the end of [u] is cut short. *)
Fixpoint chunks {A : Type} (u : list A) (ns : list nat) : list (list A) :=
  match ns with
  | [] => []
  | n :: ns' => firstn n u :: chunks (skipn n u) ns'
  end.

End Indexing.

Module Quasistatic.
Section Quasistatic.
Context {F : Scalar}.

(** The external simulator [QuasistaticSimulator]: what the adapter reads
    from it and the methods it calls on it. *)
Class QuasistaticSimulator : Type := {
  QSim : Type;
  models_all : list model;
  models_actuated : list model;
  n_v_dict : dict nat;
  num_positions : nat;
  num_actuated_dof : nat;
  get_position_indices_for_model : model -> list nat;
  calc_gravity_for_unactuated_models : M QSim (dict vec);
  get_generalized_force_from_external_spatial_force : M QSim (dict vec);
  update_configuration : dict vec -> M QSim unit;
  step : dict vec -> dict vec -> num -> string -> bool -> M QSim (dict vec)
}.

Context {Sim : QuasistaticSimulator}.

Record QuasistaticDynamics : Type := {
  qd_h : num;
  qd_dim_x : nat;
  qd_dim_u : nat;
  position_indices_dict : dict (list nat)
}.

Definition QuasistaticDynamics_init (h : num) : QuasistaticDynamics :=
  {| qd_h := h;
     qd_dim_x := num_positions;
     qd_dim_u := num_actuated_dof;
     position_indices_dict :=
       fold_left
         (fun d m => dict_set d m (get_position_indices_for_model m))
         models_all [] |}.

Definition get_q_a_cmd_dict_from_u (self : QuasistaticDynamics) (u : vec)
  : result (dict vec) :=
  r <- for_each
         (fun m (st : dict vec * nat) =>
            let (q_a_cmd_dict, i_start) := st in
            n_a_i <- dict_get n_v_dict m ;;
            ret (dict_set q_a_cmd_dict m (slice u i_start (i_start + n_a_i)),
                 i_start + n_a_i))
         models_actuated ([], 0) ;;
  ret (fst r).

Definition get_q_dict_from_x (self : QuasistaticDynamics) (x : vec)
  : result (dict vec) :=
  for_each
    (fun (p : model * list nat) (q_dict : dict vec) =>
       q <- take x (snd p) ;;
       ret (dict_set q_dict (fst p) q))
    (position_indices_dict self) [].

Definition get_x_from_q_dict (self : QuasistaticDynamics) (q_dict : dict vec)
  : result vec :=
  for_each
    (fun (p : model * list nat) (x : vec) =>
       q <- dict_get q_dict (fst p) ;;
       put_at x (snd p) q)
    (position_indices_dict self) (np_zeros1 (qd_dim_x self)).

Definition dynamics (self : QuasistaticDynamics) (x u : vec)
    (mode : string) (requires_grad : bool) : M QSim vec :=
  q_dict <- lift (get_q_dict_from_x self x) ;;
  q_a_cmd_dict <- lift (get_q_a_cmd_dict_from_u self u) ;;
  tau_ext_u_dict <- calc_gravity_for_unactuated_models ;;
  tau_ext_a_dict <- get_generalized_force_from_external_spatial_force ;;
  let tau_ext_dict := dict_merge tau_ext_a_dict tau_ext_u_dict in
  _ <- update_configuration q_dict ;;
  q_next_dict <- step q_a_cmd_dict tau_ext_dict (qd_h self)
                      mode requires_grad ;;
  lift (get_x_from_q_dict self q_next_dict).

(** The default arguments of [dynamics]. *)
Definition dynamics_default (self : QuasistaticDynamics) (x u : vec)
  : M QSim vec :=
  dynamics self x u "qp_mp" false.

Definition dynamics_batch (self : QuasistaticDynamics) (x u : ndarray)
  : M QSim ndarray :=
  let n_batch := shape0 x in
  for_range n_batch
    (fun i x_next =>
       xi <- lift (getitem x i) ;;
       ui <- lift (getitem u i) ;;
       y <- dynamics_default self xi ui ;;
       lift (setitem x_next i y))
    (np_zeros n_batch (qd_dim_x self)).

(** The elementwise sequence of single-pair calls, in batch order. *)
Definition dynamics_rows (self : QuasistaticDynamics) (x u : ndarray)
  : M QSim (list vec) :=
  map_m (fun i =>
           xi <- lift (getitem x i) ;;
           ui <- lift (getitem u i) ;;
           dynamics_default self xi ui)
        (seq 0 (shape0 x)).

(** Further attributes and methods of the simulator, read by the
    methods below. *)
Class SimulatorIndices : Type := {
  velocity_indices_dict : dict (list nat);
  animate_system_trajectory : num -> list (dict vec) -> M QSim unit
}.

Context {SI : SimulatorIndices}.

Definition get_u_indices_into_x (self : QuasistaticDynamics)
  : result (list nat) :=
  r <- for_each
         (fun m (st : list nat * nat) =>
            let (u_indices, i_start) := st in
            indices <- dict_get velocity_indices_dict m ;;
            let n_a_i := length indices in
            u_indices <- setslice1 u_indices i_start (i_start + n_a_i)
                                   indices ;;
            ret (u_indices, i_start + n_a_i))
         models_actuated (repeat 0 (qd_dim_u self), 0) ;;
  ret (fst r).

Definition get_u_from_q_cmd_dict (self : QuasistaticDynamics)
    (q_cmd_dict : dict vec) : result vec :=
  r <- for_each
         (fun m (st : vec * nat) =>
            let (u, i_start) := st in
            n_v_i <- dict_get n_v_dict m ;;
            q <- dict_get q_cmd_dict m ;;
            u <- setslice1 u i_start (i_start + n_v_i) q ;;
            ret (u, i_start + n_v_i))
         models_actuated (np_zeros1 (qd_dim_u self), 0) ;;
  ret (fst r).

Definition get_Q_from_Q_dict (self : QuasistaticDynamics) (Q_dict : dict vec)
  : result ndarray :=
  for_each
    (fun (p : model * list nat) (Q : ndarray) =>
       q <- dict_get Q_dict (fst p) ;;
       put_diag Q (snd p) q)
    velocity_indices_dict (np_eye (qd_dim_x self) (qd_dim_x self)).

Definition publish_trajectory (self : QuasistaticDynamics) (x_traj : ndarray)
  : M QSim unit :=
  q_dict_traj <- lift (map_m (get_q_dict_from_x self) (rowsof x_traj)) ;;
  animate_system_trajectory (qd_h self) q_dict_traj.

End Quasistatic.
End Quasistatic.

(* ------------------------------------------------------------------ *)
(** ** numpy library routines: the random source and the solver        *)
(* ------------------------------------------------------------------ *)

Section NumpyLib.
Context {F : Scalar}.

(** [np.random] and LAPACK. [normal_sample g loc scale] is one draw from
    the process-wide generator; [gelsd a b i j] is entry [(i, j)] of the
    solution that [np.linalg.lstsq(a, b, rcond=None)[0]] holds. *)
Class NumpyLib : Type := {
  RandomState : Type;
  normal_sample : RandomState -> num -> num -> num * RandomState;
  gelsd : ndarray -> ndarray -> nat -> nat -> num
}.

Context {NP : NumpyLib}.

(** A standard deviation argument: [Union[np.ndarray, float]]. *)
Inductive std : Type :=
| StdFloat (s : num)
| StdArray (v : vec).

Fixpoint draw_row (loc : num) (scales : list num) (g : RandomState)
  : list num * RandomState :=
  match scales with
  | [] => ([], g)
  | s :: rest =>
      let (z, g1) := normal_sample g loc s in
      let (zs, g2) := draw_row loc rest g1 in
      (z :: zs, g2)
  end.

Fixpoint draw_rows (loc : num) (scales : list num) (r : nat) (g : RandomState)
  : list (list num) * RandomState :=
  match r with
  | O => ([], g)
  | S r' =>
      let (z, g1) := draw_row loc scales g in
      let (zs, g2) := draw_rows loc scales r' g1 in
      (z :: zs, g2)
  end.

(** [np.random.normal(loc, scale, size=[r, c])]: an array scale is
    broadcast along the columns. *)
Definition np_random_normal (loc : num) (scale : std) (r c : nat)
  : M RandomState ndarray :=
  fun g =>
    match scale with
    | StdFloat s =>
        let (d, g') := draw_rows loc (repeat s c) r g in
        Ok (NdArray r c d, g')
    | StdArray v =>
        if (length v =? c) || (length v =? 1) then
          let (d, g') :=
            draw_rows loc (vtab c (fun j => vget v (bidx (length v) j))) r g in
          Ok (NdArray r c d, g')
        else Raise ValueError
    end.

(** [np.linalg.lstsq(a, b, rcond=None)[0]] for two-dimensional [a], [b]. *)
Definition np_linalg_lstsq (a b : ndarray) : result ndarray :=
  if shape0 a =? shape0 b
  then Ok (mtab (shape1 a) (shape1 b) (gelsd a b))
  else Raise LinAlgError.

(** The array that [np_linalg_lstsq] returns when it returns. *)
Definition lstsq_solution (a b : ndarray) : ndarray :=
  mtab (shape1 a) (shape1 b) (gelsd a b).

(** [a += b]: [b] is broadcast to the shape of [a]. *)
Definition iadd (a b : ndarray) : result ndarray :=
  if ((shape0 b =? shape0 a) || (shape0 b =? 1)) &&
     ((shape1 b =? shape1 a) || (shape1 b =? 1))
  then Ok (mtab (shape0 a) (shape1 a) (fun i j =>
             sadd (entry a i j)
                  (entry b (bidx (shape0 b) i) (bidx (shape1 b) j))))
  else Raise ValueError.

(** A three-dimensional array of shape [(shape3_0, shape3_1, shape3_2)]. *)
Record ndarray3 : Type := NdArray3 {
  shape3_0 : nat;
  shape3_1 : nat;
  shape3_2 : nat;
  slabs : list ndarray
}.

Definition np_zeros3 (n r c : nat) : ndarray3 :=
  NdArray3 n r c (repeat (np_zeros r c) n).

(** [a[i] = m] on a three-dimensional array. *)
Definition setitem3 (a : ndarray3) (i : nat) (m : ndarray) : result ndarray3 :=
  if i <? shape3_0 a then
    new <- setblock (np_zeros (shape3_1 a) (shape3_2 a))
                    0 (shape3_1 a) 0 (shape3_2 a) m ;;
    ret (NdArray3 (shape3_0 a) (shape3_1 a) (shape3_2 a)
           (firstn i (slabs a) ++ new :: skipn (S i) (slabs a)))
  else Raise IndexError.

End NumpyLib.

(* ------------------------------------------------------------------ *)
(** ** irs_lqr/mbp_dynamics.py                                         *)
(* ------------------------------------------------------------------ *)

Module Mbp.
Section Mbp.
Context {F : Scalar} {NP : NumpyLib}.

(** A Drake plant with its simulator, over scalars [T] ([float] or
    [AutoDiffXd]). Contexts are mutable objects of Drake; each operation
    returns the context it leaves behind. *)
Record PlantSim (T : Type) : Type := {
  Ctx : Type;
  Query : Type;
  SetPositionsAndVelocities : Ctx -> model -> list T -> Ctx;
  SetPositionsAndVelocitiesAll : Ctx -> list T -> Ctx;
  FixValue : Ctx -> model -> list T -> Ctx;
  AdvanceTo : Ctx -> num -> Ctx;
  GetPositionsAndVelocities : Ctx -> list T;
  EvalQuery : Ctx -> Query
}.

(** What the adapter inherits from [irs_lqr.quasistatic_dynamics] and
    reads from the plant, and the pydrake functions it calls. *)
Class Drake : Type := {
  AutoDiffXd : Type;
  plant : PlantSim num;
  plant_ad : PlantSim AutoDiffXd;
  initializeAutoDiff : vec -> list AutoDiffXd;
  autoDiffToGradientMatrix : list AutoDiffXd -> ndarray;
  h : num;
  dim_u : nat;
  num_positions : nat;
  num_velocities : nat;
  position_indices : dict (list nat);
  velocity_indices : dict (list nat);
  models_actuated : list model;
  get_q_a_cmd_dict_from_u : forall T : Type, list T -> result (dict (list T))
}.

Context {D : Drake}.

(** [self.dim_x = num_positions() + num_velocities()]. *)
Definition dim_x : nat := num_positions + num_velocities.

(** The mutable part of an [MbpDynamics] object, and the random source. *)
Record MbpState : Type := {
  context : Ctx plant;
  context_ad : Ctx plant_ad;
  simulator_time : num;
  simulator_time_ad : num;
  query_object : option (Query plant + Query plant_ad);
  np_random : RandomState
}.

Definition set_context (s : MbpState) (c : Ctx plant)
    (q : option (Query plant + Query plant_ad)) : MbpState :=
  {| context := c; context_ad := context_ad s;
     simulator_time := simulator_time s;
     simulator_time_ad := simulator_time_ad s;
     query_object := q; np_random := np_random s |}.

Definition set_context_ad (s : MbpState) (c : Ctx plant_ad)
    (q : option (Query plant + Query plant_ad)) : MbpState :=
  {| context := context s; context_ad := c;
     simulator_time := simulator_time s;
     simulator_time_ad := simulator_time_ad s;
     query_object := q; np_random := np_random s |}.

Definition set_simulator_time (s : MbpState) (t : num) : MbpState :=
  {| context := context s; context_ad := context_ad s;
     simulator_time := t;
     simulator_time_ad := simulator_time_ad s;
     query_object := query_object s; np_random := np_random s |}.

Definition set_simulator_time_ad (s : MbpState) (t : num) : MbpState :=
  {| context := context s; context_ad := context_ad s;
     simulator_time := simulator_time s;
     simulator_time_ad := t;
     query_object := query_object s; np_random := np_random s |}.

(** Run a computation of the random source on the adapter state. *)
Definition with_random {A : Type} (c : M RandomState A) : M MbpState A :=
  fun s =>
    match c (np_random s) with
    | Ok (a, g) =>
        Ok (a, {| context := context s; context_ad := context_ad s;
                  simulator_time := simulator_time s;
                  simulator_time_ad := simulator_time_ad s;
                  query_object := query_object s; np_random := g |})
    | Raise e => Raise e
    end.

Definition get_q_dict_from_x (x : vec) : result (dict vec) :=
  let offset := num_velocities in
  for_each
    (fun (p : model * list nat) (q_dict : dict vec) =>
       q <- take x (snd p) ;;
       v <- take x (map (fun i => i + offset) (snd p)) ;;
       ret (dict_set q_dict (fst p) (np_hstack1 q v)))
    position_indices [].

Definition update_mbp_positions_and_velocities {T : Type} (P : PlantSim T)
    (plant_context : Ctx P) (q_dict : dict (list T)) : Ctx P * Query P :=
  let c :=
    fold_left (fun c p => SetPositionsAndVelocities P c (fst p) (snd p))
              q_dict plant_context in
  (c, EvalQuery P c).

Definition update_mbp_positions_and_velocities_xv {T : Type} (P : PlantSim T)
    (plant_context : Ctx P) (xv : list T) : Ctx P * Query P :=
  let c := SetPositionsAndVelocitiesAll P plant_context xv in
  (c, EvalQuery P c).

Definition update_mbp_inputs {T : Type} (P : PlantSim T)
    (plant_context : Ctx P) (q_a_dict : dict (list T)) : result (Ctx P) :=
  for_each
    (fun m c => q <- dict_get q_a_dict m ;; ret (FixValue P c m q))
    models_actuated plant_context.

Definition dynamics_py (x u : vec) (mode : string) (requires_grad : bool)
  : M MbpState vec :=
  q_dict <- lift (get_q_dict_from_x x) ;;
  q_a_cmd_dict <- lift (get_q_a_cmd_dict_from_u u) ;;
  s <- get ;;
  let (c, q) := update_mbp_positions_and_velocities plant (context s) q_dict in
  _ <- put (set_context s c (Some (inl q))) ;;
  c <- lift (update_mbp_inputs plant c q_a_cmd_dict) ;;
  s <- get ;;
  _ <- put (set_context s c (query_object s)) ;;
  s <- get ;;
  _ <- put (set_simulator_time s (sadd (simulator_time s) h)) ;;
  s <- get ;;
  _ <- put (set_context s (AdvanceTo plant (context s) (simulator_time s))
                        (query_object s)) ;;
  s <- get ;;
  ret (GetPositionsAndVelocities plant (context s)).

Definition dynamics (x u : vec) (requires_grad : bool) : M MbpState vec :=
  q_dict <- lift (get_q_dict_from_x x) ;;
  q_a_cmd_dict <- lift (get_q_a_cmd_dict_from_u u) ;;
  s <- get ;;
  let (c, q) := update_mbp_positions_and_velocities plant (context s) q_dict in
  _ <- put (set_context s c (Some (inl q))) ;;
  c <- lift (update_mbp_inputs plant c q_a_cmd_dict) ;;
  s <- get ;;
  _ <- put (set_context s c (query_object s)) ;;
  s <- get ;;
  _ <- put (set_simulator_time s (sadd (simulator_time s) h)) ;;
  s <- get ;;
  _ <- put (set_context s (AdvanceTo plant (context s) (simulator_time s))
                        (query_object s)) ;;
  s <- get ;;
  ret (GetPositionsAndVelocities plant (context s)).

Definition dynamics_batch (x u : ndarray) : M MbpState ndarray :=
  let n_batch := shape0 x in
  for_range n_batch
    (fun i x_next =>
       xi <- lift (getitem x i) ;;
       ui <- lift (getitem u i) ;;
       y <- dynamics xi ui false ;;
       lift (setitem x_next i y))
    (np_zeros n_batch dim_x).

Definition jacobian_xu (x u : vec) : M MbpState ndarray :=
  let xu_ad := initializeAutoDiff (np_hstack1 x u) in
  let x_ad := firstn dim_x xu_ad in
  let u_ad := skipn dim_x xu_ad in
  q_a_cmd_dict <- lift (get_q_a_cmd_dict_from_u u_ad) ;;
  s <- get ;;
  let (c, q) :=
    update_mbp_positions_and_velocities_xv plant_ad (context_ad s) x_ad in
  _ <- put (set_context_ad s c (Some (inr q))) ;;
  c <- lift (update_mbp_inputs plant_ad c q_a_cmd_dict) ;;
  s <- get ;;
  _ <- put (set_context_ad s c (query_object s)) ;;
  s <- get ;;
  _ <- put (set_simulator_time_ad s (sadd (simulator_time_ad s) h)) ;;
  s <- get ;;
  _ <- put (set_context_ad s
              (AdvanceTo plant_ad (context_ad s) (simulator_time_ad s))
              (query_object s)) ;;
  s <- get ;;
  let x_next := GetPositionsAndVelocities plant_ad (context_ad s) in
  ret (autoDiffToGradientMatrix x_next).

Definition calc_AB_exact (x_nominal u_nominal : vec) : M MbpState ndarray :=
  jacobian_xu x_nominal u_nominal.

Definition calc_AB_first_order (x_nominal u_nominal : vec) (n_samples : nat)
    (std_u : std) : M MbpState ndarray :=
  du <- with_random (np_random_normal s0 std_u n_samples dim_u) ;;
  ABhat <- for_range n_samples
             (fun i ABhat =>
                du_i <- lift (getitem du i) ;;
                u_i <- lift (ufunc1 sadd u_nominal du_i) ;;
                J <- jacobian_xu x_nominal u_i ;;
                lift (iadd ABhat J))
             (np_zeros dim_x (dim_x + dim_u)) ;;
  ret (mdiv_scalar ABhat (of_int (Z.of_nat n_samples))).

Definition calc_B_zero_order (x_nominal u_nominal : vec) (n_samples : nat)
    (std_u : std) : M MbpState ndarray :=
  let n_x := dim_x in
  let n_u := dim_u in
  x_next_nominal <- dynamics x_nominal u_nominal true ;;
  let ABhat := np_zeros n_x (n_x + n_u) in
  AB_first_order <- calc_AB_first_order x_nominal u_nominal n_samples std_u ;;
  ABhat <- lift (setblock ABhat 0 (shape0 ABhat) 0 n_x
                   (getblock AB_first_order
                             0 (shape0 AB_first_order) 0 n_x)) ;;
  du <- with_random (np_random_normal s0 std_u n_samples dim_u) ;;
  x_next <- for_range n_samples
              (fun i x_next =>
                 du_i <- lift (getitem du i) ;;
                 u_i <- lift (ufunc1 sadd u_nominal du_i) ;;
                 y <- dynamics x_nominal u_i false ;;
                 lift (setitem x_next i y))
              (np_zeros n_samples dim_x) ;;
  dx_next <- lift (ufunc2 ssub x_next (as_row x_next_nominal)) ;;
  sol <- lift (np_linalg_lstsq du dx_next) ;;
  ABhat <- lift (setblock ABhat 0 (shape0 ABhat) n_x (shape1 ABhat)
                   (transpose sol)) ;;
  ret ABhat.

Definition calc_AB_zero_order (x_nominal u_nominal : vec) (n_samples : nat)
    (std_u std_x : std) (damp : num) : M MbpState ndarray :=
  let n_x := dim_x in
  let n_u := dim_u in
  dx <- with_random (np_random_normal s0 std_x n_samples n_x) ;;
  du <- with_random (np_random_normal s0 std_u n_samples n_u) ;;
  x_next_nominal <- dynamics x_nominal u_nominal false ;;
  x_next <- for_range n_samples
              (fun i x_next =>
                 dx_i <- lift (getitem dx i) ;;
                 x_i <- lift (ufunc1 sadd x_nominal dx_i) ;;
                 du_i <- lift (getitem du i) ;;
                 u_i <- lift (ufunc1 sadd u_nominal du_i) ;;
                 y <- dynamics x_i u_i false ;;
                 lift (setitem x_next i y))
              (np_zeros n_samples n_x) ;;
  dx_next <- lift (ufunc2 ssub x_next (as_row x_next_nominal)) ;;
  let A := np_zeros (n_samples + n_x + n_u) (n_x + n_u) in
  A <- lift (setblock A 0 n_samples 0 n_x dx) ;;
  A <- lift (setblock A 0 n_samples n_x (shape1 A) du) ;;
  A <- lift (setblock A n_samples (shape0 A) 0 (shape1 A)
               (mscale (np_eye (n_x + n_u) (n_x + n_u)) damp)) ;;
  let B := np_zeros (n_samples + n_x + n_u) n_x in
  B <- lift (setblock B 0 n_samples 0 (shape1 B) dx_next) ;;
  sol <- lift (np_linalg_lstsq A B) ;;
  ret (transpose sol).

(** The default arguments [std_x = 1e-3] and [damp = 1e-10]. *)
Definition default_std_x : std := StdFloat (sdiv s1 (of_int 1000)).
Definition default_damp : num := sdiv s1 (of_int 10000000000).

Definition calc_AB_batch (x_nominals u_nominals : ndarray) (n_samples : nat)
    (std_u : std) (mode : string) : M MbpState ndarray3 :=
  let n := shape0 x_nominals in
  let ABhat_list := np_zeros3 n dim_x (dim_x + dim_u) in
  let fill (calc : vec -> vec -> M MbpState ndarray) :=
    for_range n
      (fun i ABhat_list =>
         x_i <- lift (getitem x_nominals i) ;;
         u_i <- lift (getitem u_nominals i) ;;
         AB <- calc x_i u_i ;;
         lift (setitem3 ABhat_list i AB))
      ABhat_list in
  if String.eqb mode "first_order" then
    fill (fun x u => calc_AB_first_order x u n_samples std_u)
  else if String.eqb mode "zero_order_B" then
    fill (fun x u => calc_B_zero_order x u n_samples std_u)
  else if String.eqb mode "zero_order_AB" then
    fill (fun x u => calc_AB_zero_order x u n_samples std_u
                       default_std_x default_damp)
  else if String.eqb mode "exact" then
    fill (fun x u => calc_AB_exact x u)
  else ret ABhat_list.

(** [plant.num_velocities(model)]. *)
Class DrakeModels : Type := {
  num_velocities_model : model -> nat
}.

Context {DM : DrakeModels}.

Definition get_x_from_q_dict (q_dict : dict vec) : result vec :=
  x <- for_each
         (fun (p : model * list nat) (x : vec) =>
            q <- dict_get q_dict (fst p) ;;
            put_at x (snd p) (slice q 0 (length (snd p))))
         position_indices (np_zeros1 num_positions) ;;
  v <- for_each
         (fun (p : model * list nat) (v : vec) =>
            q <- dict_get q_dict (fst p) ;;
            put_at v (snd p) (slice q (length (snd p)) (length q)))
         velocity_indices (np_zeros1 num_velocities) ;;
  ret (np_hstack1 x v).

Definition get_Q_from_Q_dict (Q_dict : dict vec) : result ndarray :=
  let Q := np_eye dim_x dim_x in
  let offset := num_velocities in
  Q <- for_each
         (fun (p : model * list nat) (Q : ndarray) =>
            q <- dict_get Q_dict (fst p) ;;
            put_diag Q (snd p) (slice q 0 (length (snd p))))
         position_indices Q ;;
  for_each
    (fun (p : model * list nat) (Q : ndarray) =>
       q <- dict_get Q_dict (fst p) ;;
       put_diag Q (map (fun i => i + offset) (snd p))
                (slice q (length (snd p)) (length q)))
    velocity_indices Q.

(** [i_start] is initialised and never advanced. *)
Definition get_R_from_R_dict (R_dict : dict array) : result ndarray :=
  let i_start := 0 in
  for_each
    (fun m (R : ndarray) =>
       let n_v_i := num_velocities_model m in
       r <- dict_get R_dict m ;;
       setblock R i_start (i_start + n_v_i) i_start (i_start + n_v_i)
                (as_2d r))
    models_actuated (np_eye dim_u dim_u).

(** *** What the claims say, in their own words *)

(** A standard deviation that numpy can broadcast to [c] columns. *)
Definition std_ok (s : std) (c : nat) : Prop :=
  match s with
  | StdFloat _ => True
  | StdArray v => length v = c \/ length v = 1
  end.

(** The simulator step returns a state vector on inputs of the plant's
    dimensions. *)
Definition dynamics_contract : Prop :=
  forall (x u : vec) (rg : bool) (s : MbpState),
    length x = dim_x -> length u = dim_u ->
    exists y s', dynamics x u rg s = Ok (y, s') /\ length y = dim_x.

(** The automatic-differentiation step returns the gradient of the
    [dim_x] next-state entries in the [dim_x + dim_u] seeded variables. *)
Definition jacobian_contract : Prop :=
  forall (x u : vec) (s : MbpState),
    length x = dim_x -> length u = dim_u ->
    exists J s', jacobian_xu x u s = Ok (J, s') /\
                 has_shape dim_x (dim_x + dim_u) J.

(** The exact Jacobians at [(x, u + du_i)], sample after sample. *)
Definition jacobians_at (x u : vec) (du : ndarray)
  : M MbpState (list ndarray) :=
  map_m (fun i => jacobian_xu x (vadd u (row du i))) (seq 0 (shape0 du)).

(** The arithmetic mean of [n] Jacobians. *)
Definition mean_jacobian (Js : list ndarray) (n : nat) : ndarray :=
  mdiv_scalar (msum dim_x (dim_x + dim_u) Js) (of_int (Z.of_nat n)).

(** The one-step dynamics at [(x, u + du_i)], sample after sample. *)
Definition next_states_u (x u : vec) (du : ndarray)
  : M MbpState (list vec) :=
  map_m (fun i => dynamics x (vadd u (row du i)) false) (seq 0 (shape0 du)).

(** The one-step dynamics at [(x + dx_i, u + du_i)]. *)
Definition next_states_xu (x u : vec) (dx du : ndarray)
  : M MbpState (list vec) :=
  map_m (fun i => dynamics (vadd x (row dx i)) (vadd u (row du i)) false)
        (seq 0 (shape0 dx)).

(** Noise-free linear dynamics [f(x, u) = A x + B u]. *)
Definition linear_step (A B : ndarray) (x u : vec) : vec :=
  vadd (matvec A x) (matvec B u).

Definition linear_dynamics (A B : ndarray) : Prop :=
  forall (x u : vec) (rg : bool) (s : MbpState),
    length x = dim_x -> length u = dim_u ->
    exists s', dynamics x u rg s = Ok (linear_step A B x u, s').

(** The first [dim_x] columns of a linearization. *)
Definition A_block (ab : ndarray) : ndarray :=
  getblock ab 0 (shape0 ab) 0 dim_x.

(** The last [dim_u] columns of a linearization. *)
Definition B_block (ab : ndarray) : ndarray :=
  getblock ab 0 (shape0 ab) dim_x (shape1 ab).

(** A linearization [(A, B)]: [n_x] rows, [n_x] columns of [A] followed
    by [n_u] columns of [B]. *)
Definition linearization_shape (ab : ndarray) : Prop :=
  has_shape dim_x (dim_x + dim_u) ab /\
  has_shape dim_x dim_x (A_block ab) /\
  has_shape dim_x dim_u (B_block ab).

(** A batch of [n] linearizations. *)
Definition batch_shape (n : nat) (out : ndarray3) : Prop :=
  shape3_0 out = n /\ shape3_1 out = dim_x /\
  shape3_2 out = dim_x + dim_u /\
  length (slabs out) = n /\
  Forall linearization_shape (slabs out).

(** The stacked, damped system: [n_samples] rows [[dx_i, du_i]] over
    [n_x + n_u] rows [damp * I], against the rows
    [f(x + dx_i, u + du_i) - f(x, u)] over [n_x + n_u] zero rows. *)
Definition tikhonov_lhs (dx du : ndarray) (damp : num) : ndarray :=
  vstack2 (hstack2 dx du)
          (mscale (np_eye (dim_x + dim_u) (dim_x + dim_u)) damp).

Definition tikhonov_rhs (x_next : list vec) (x_next_nominal : vec)
  : ndarray :=
  vstack2 (msub_row (NdArray (length x_next) dim_x x_next) x_next_nominal)
          (np_zeros (dim_x + dim_u) dim_x).

End Mbp.
End Mbp.

(* ------------------------------------------------------------------ *)
(** ** Instances used to run the model on concrete inputs              *)
(* ------------------------------------------------------------------ *)

(** Exact rational arithmetic. *)
#[export] Instance QcScalar : Scalar := {
  num := Qc;
  s0 := Q2Qc 0;
  s1 := Q2Qc 1;
  sadd := Qcplus;
  ssub := Qcminus;
  smul := Qcmult;
  sdiv := Qcdiv;
  sneg := Qcopp;
  of_int := fun z => Q2Qc (inject_Z z)
}.

(** Real arithmetic with the real trigonometric functions. *)
Definition RScalar : Scalar := {|
  num := R;
  s0 := 0%R;
  s1 := 1%R;
  sadd := Rplus;
  ssub := Rminus;
  smul := Rmult;
  sdiv := Rdiv;
  sneg := Ropp;
  of_int := IZR
|}.

Definition RTrig : Trig RScalar := {|
  ssin := sin : @num RScalar -> @num RScalar;
  scos := cos : @num RScalar -> @num RScalar;
  stan := tan : @num RScalar -> @num RScalar
|}.

Module Reference.

(** A reference least-squares solver over the rationals: the solution of
    minimum norm [X = a^T Y], where [Y] solves [(G G) Y = G b] with
    [G = a a^T], by Gauss-Jordan elimination with free unknowns set to 0. *)

Definition qzero (q : Qc) : bool := Qeq_bool (this q) 0.

Definition row_sub_mul (r p : list Qc) (k : Qc) : list Qc :=
  map (fun ab => Qcminus (fst ab) (Qcmult k (snd ab))) (combine r p).

(** Split [rows] at the first row with a nonzero entry in column [j]. *)
Fixpoint find_pivot (j : nat) (rows : list (list Qc))
  : option (list (list Qc) * list Qc * list (list Qc)) :=
  match rows with
  | [] => None
  | r :: rest =>
      if qzero (nth j r (Q2Qc 0)) then
        match find_pivot j rest with
        | Some (pre, p, post) => Some (r :: pre, p, post)
        | None => None
        end
      else Some ([], r, rest)
  end.

Definition eliminate (j : nat) (p : list Qc) (r : list Qc) : list Qc :=
  row_sub_mul r p (nth j r (Q2Qc 0)).

(** One pass over the columns [js]; [done] pairs a pivot column with its
    reduced row. *)
Fixpoint gauss_jordan (js : list nat) (done : list (nat * list Qc))
    (todo : list (list Qc)) : list (nat * list Qc) :=
  match js with
  | [] => done
  | j :: js' =>
      match find_pivot j todo with
      | None => gauss_jordan js' done todo
      | Some (pre, p, post) =>
          let p' := map (fun a => Qcdiv a (nth j p (Q2Qc 0))) p in
          let done' :=
            map (fun d => (fst d, eliminate j p' (snd d))) done in
          gauss_jordan js' ((j, p') :: done')
                       (map (eliminate j p') (pre ++ post))
      end
  end.

Fixpoint lookup_row (j : nat) (done : list (nat * list Qc))
  : option (list Qc) :=
  match done with
  | [] => None
  | (j', r) :: rest => if j' =? j then Some r else lookup_row j rest
  end.

(** A solution of the square system [m y = r] when it has one. *)
Definition solve (m r : @ndarray QcScalar) : @ndarray QcScalar :=
  let n := shape0 m in
  let aug := map (fun i => row m i ++ row r i) (seq 0 n) in
  let done := gauss_jordan (seq 0 n) [] aug in
  mtab n (shape1 r) (fun i j =>
    match lookup_row i done with
    | Some rw => nth (n + j) rw (Q2Qc 0)
    | None => Q2Qc 0
    end).

Definition lstsq (a b : @ndarray QcScalar) : @ndarray QcScalar :=
  let at_ := transpose a in
  let g := matmul a at_ in
  let y := solve (matmul g g) (matmul g b) in
  matmul at_ y.

(** The random source as a tape of standard normal variates. *)
Definition sample_tape (g : list Qc) (loc scale : Qc) : Qc * list Qc :=
  match g with
  | [] => (loc, [])
  | z :: g' => (Qcplus loc (Qcmult scale z), g')
  end.

#[export] Instance numpy : @NumpyLib QcScalar := {
  RandomState := list Qc;
  normal_sample := sample_tape;
  gelsd := fun a b => entry (lstsq a b)
}.

(** A plant whose step is the linear map [x, u |-> a x + b u], with one
    model instance that owns every position and velocity. *)
Section Toy.
Variables (npos nu : nat) (a b : @ndarray QcScalar).

Definition ad : Type := (Qc * list Qc)%type.

Definition ad_zero : ad := (Q2Qc 0, []).

(** Derivative vectors of different lengths are padded with zeros. *)
Definition ad_add (p q : ad) : ad :=
  (Qcplus (fst p) (fst q),
   map (fun i => Qcplus (nth i (snd p) (Q2Qc 0)) (nth i (snd q) (Q2Qc 0)))
       (seq 0 (Nat.max (length (snd p)) (length (snd q))))).

Definition ad_scale (k : Qc) (p : ad) : ad :=
  (Qcmult k (fst p), map (Qcmult k) (snd p)).

Definition lin (T : Type) (zero : T) (add : T -> T -> T)
    (scale : Qc -> T -> T) (x u : list T) : list T :=
  map (fun i =>
         add (fold_right add zero
                (map (fun j => scale (entry a i j) (nth j x zero))
                     (seq 0 (shape1 a))))
             (fold_right add zero
                (map (fun j => scale (entry b i j) (nth j u zero))
                     (seq 0 (shape1 b)))))
      (seq 0 (shape0 a)).

Definition toy_plant (T : Type) (zero : T) (add : T -> T -> T)
    (scale : Qc -> T -> T) : @Mbp.PlantSim QcScalar T := {|
  Mbp.Ctx := (list T * list T)%type;
  Mbp.Query := unit;
  Mbp.SetPositionsAndVelocities := fun c _ q => (q, snd c);
  Mbp.SetPositionsAndVelocitiesAll := fun c q => (q, snd c);
  Mbp.FixValue := fun c _ q => (fst c, q);
  Mbp.AdvanceTo := fun c _ => (lin zero add scale (fst c) (snd c), snd c);
  Mbp.GetPositionsAndVelocities := fun c => fst c;
  Mbp.EvalQuery := fun _ => tt
|}.

Definition unit_vector (n i : nat) : list Qc :=
  map (fun j => if j =? i then Q2Qc 1 else Q2Qc 0) (seq 0 n).

Definition toy_drake : @Mbp.Drake QcScalar := {|
  Mbp.AutoDiffXd := ad;
  Mbp.plant := toy_plant (Q2Qc 0) Qcplus Qcmult;
  Mbp.plant_ad := toy_plant ad_zero ad_add ad_scale;
  Mbp.initializeAutoDiff := fun v =>
    map (fun i => (nth i v (Q2Qc 0), unit_vector (length v) i))
        (seq 0 (length v));
  Mbp.autoDiffToGradientMatrix := fun l =>
    NdArray (length l)
            (fold_right Nat.max 0 (map (fun p => length (snd p)) l))
            (map snd l);
  Mbp.h := Q2Qc (1 # 10);
  Mbp.dim_u := nu;
  Mbp.num_positions := npos;
  Mbp.num_velocities := npos;
  Mbp.position_indices := [(0, seq 0 npos)];
  Mbp.velocity_indices := [(0, seq 0 npos)];
  Mbp.models_actuated := [0];
  Mbp.get_q_a_cmd_dict_from_u := fun T u => Ok [(0, u)]
|}.

Definition empty_ctx (T : Type) (zero : T) (add : T -> T -> T)
    (scale : Qc -> T -> T) : Mbp.Ctx (toy_plant zero add scale) := ([], []).

Definition toy_state (tape : list Qc)
  : @Mbp.MbpState QcScalar numpy toy_drake :=
  @Mbp.Build_MbpState QcScalar numpy toy_drake
    (empty_ctx (Q2Qc 0) Qcplus Qcmult)
    (empty_ctx ad_zero ad_add ad_scale)
    (Q2Qc 0) (Q2Qc 0) None tape.

End Toy.

(** Rational literals and arrays of them. *)
Definition q (z : Z) : Qc := Q2Qc (inject_Z z).
Definition qvec (l : list Z) : list Qc := map q l.
Definition qmat (r c : nat) (l : list (list Z)) : @ndarray QcScalar :=
  NdArray r c (map (map q) l).

End Reference.

(** Concrete inputs: a plant with four states and one control, a
    pendulum batch over the reals. *)
Module Fixture.
Import Reference.

Definition a4 : @ndarray QcScalar :=
  qmat 4 4 [[1; 2; 0; 0]; [0; 1; 0; 0]; [0; 0; 1; 3]; [0; 0; 0; 1]]%Z.
Definition b4 : @ndarray QcScalar := qmat 4 1 [[1]; [0]; [2]; [1]]%Z.

Definition drake4 : @Mbp.Drake QcScalar := toy_drake 2 1 a4 b4.
Definition state4 (tape : list Z) : @Mbp.MbpState QcScalar numpy drake4 :=
  toy_state 2 1 a4 b4 (qvec tape).

Definition std1 : @std QcScalar := @StdFloat QcScalar (q 1).
Definition n_x : nat := @Mbp.dim_x QcScalar drake4.
Definition n_u : nat := @Mbp.dim_u QcScalar drake4.

Definition x4 : list Qc := qvec [1; 2; 3; 4]%Z.
Definition u4 : list Qc := qvec [5]%Z.

(** Five samples whose perturbations are the unit vectors. *)
Definition tape5 : list Z :=
  [1; 0; 0; 0;  0; 1; 0; 0;  0; 0; 1; 0;  0; 0; 0; 1;  0; 0; 0; 0;
   0; 0; 0; 0; 1]%Z.
Definition dx5 : @ndarray QcScalar :=
  qmat 5 4 [[1; 0; 0; 0]; [0; 1; 0; 0]; [0; 0; 1; 0]; [0; 0; 0; 1];
            [0; 0; 0; 0]]%Z.
Definition du5 : @ndarray QcScalar :=
  qmat 5 1 [[0]; [0]; [0]; [0]; [1]]%Z.

(** One sample, fewer than the five unknowns per row. *)
Definition tape1 : list Z := [1; 2; 0; 1; 1]%Z.

Definition pendulum_x : @ndarray RScalar :=
  @NdArray RScalar 2 2 [[0%R; 1%R]; [1%R; 0%R]].
Definition pendulum_u : @ndarray RScalar :=
  @NdArray RScalar 2 1 [[1%R]; [0%R]].

(** A planar hand: two fingers with two joints each, both actuated, and
    between them an object with one coordinate. *)
Definition hand_indices (m : model) : list nat :=
  match m with
  | 0 => [0; 1]
  | 1 => [2]
  | _ => [3; 4]
  end.

Definition hand : @Quasistatic.QuasistaticSimulator QcScalar := {|
  Quasistatic.QSim := dict (list Qc);
  Quasistatic.models_all := [0; 1; 2];
  Quasistatic.models_actuated := [0; 2];
  Quasistatic.n_v_dict := [(0, 2); (1, 1); (2, 2)];
  Quasistatic.num_positions := 5;
  Quasistatic.num_actuated_dof := 4;
  Quasistatic.get_position_indices_for_model := hand_indices;
  Quasistatic.calc_gravity_for_unactuated_models := ret [];
  Quasistatic.get_generalized_force_from_external_spatial_force := ret [];
  Quasistatic.update_configuration := fun q_dict => put q_dict;
  Quasistatic.step := fun q_a_cmd_dict _ _ _ _ =>
    q_dict <- get ;; ret (dict_merge q_dict q_a_cmd_dict)
|}.

Definition hand_velocities : @Quasistatic.SimulatorIndices QcScalar hand := {|
  Quasistatic.velocity_indices_dict := [(0, [0; 1]); (1, [2]); (2, [3; 4])];
  Quasistatic.animate_system_trajectory := fun _ _ => ret tt
|}.

Definition hand_dynamics : @Quasistatic.QuasistaticDynamics QcScalar :=
  @Quasistatic.QuasistaticDynamics_init QcScalar hand (q 1).

Definition hand_x : list Qc := qvec [1; 2; 3; 4; 5]%Z.
Definition hand_u : list Qc := qvec [6; 7; 8; 9]%Z.
Definition hand_q_dict : dict (list Qc) :=
  [(0, qvec [1; 2]%Z); (1, qvec [3]%Z); (2, qvec [4; 5]%Z)].
Definition hand_weights (i : nat) : Qc := nth i (qvec [2; 3; 5; 7; 11]%Z) (q 0).
Definition hand_Q_dict : dict (list Qc) :=
  [(0, qvec [2; 3]%Z); (1, qvec [5]%Z); (2, qvec [7; 11]%Z)].

(** The index tables of a plant with two actuated arms of one joint
    each; the plant itself is the one of [drake4]. *)
Definition two_arms : @Mbp.Drake QcScalar := {|
  Mbp.AutoDiffXd := @Mbp.AutoDiffXd QcScalar drake4;
  Mbp.plant := @Mbp.plant QcScalar drake4;
  Mbp.plant_ad := @Mbp.plant_ad QcScalar drake4;
  Mbp.initializeAutoDiff := @Mbp.initializeAutoDiff QcScalar drake4;
  Mbp.autoDiffToGradientMatrix := @Mbp.autoDiffToGradientMatrix QcScalar drake4;
  Mbp.h := q 1;
  Mbp.dim_u := 2;
  Mbp.num_positions := 2;
  Mbp.num_velocities := 2;
  Mbp.position_indices := [(0, [0]); (1, [1])];
  Mbp.velocity_indices := [(0, [0]); (1, [1])];
  Mbp.models_actuated := [0; 1];
  Mbp.get_q_a_cmd_dict_from_u := fun T u =>
    Ok [(0, firstn 1 u); (1, skipn 1 u)]
|}.

Definition one_velocity_each : @Mbp.DrakeModels := {|
  Mbp.num_velocities_model := fun _ => 1
|}.

Definition arms_x : list Qc := qvec [1; 2; 3; 4]%Z.
Definition arms_weights (i : nat) : Qc := nth i (qvec [2; 3; 5; 7]%Z) (q 0).
Definition arms_Q_dict : dict (list Qc) :=
  [(0, qvec [2; 5]%Z); (1, qvec [3; 7]%Z)].
Definition arms_R_dict : dict (@array QcScalar) :=
  [(0, Arr1 (qvec [10]%Z)); (1, Arr1 (qvec [20]%Z))].

(** Batches for the plant [drake4]. *)
Definition xs2 : @ndarray QcScalar := NdArray 2 4 [x4; x4].
Definition us2 : @ndarray QcScalar := NdArray 2 1 [u4; u4].
Definition us1 : @ndarray QcScalar := NdArray 1 1 [u4].

(** Batches for the pendulum and the bicycle. *)
Definition one_control : @ndarray RScalar := @NdArray RScalar 1 1 [[1%R]].
Definition bicycle_x : @ndarray RScalar :=
  @NdArray RScalar 1 5 [[0%R; 0%R; 0%R; 1%R; 0%R]].
Definition bicycle_u : @ndarray RScalar := @NdArray RScalar 1 2 [[1%R; 0%R]].

End Fixture.

(* ================================================================== *)
(** * Properties                                                       *)
(* ================================================================== *)

(* ------------------------------------------------------------------ *)
(** ** Tabulated arrays                                                *)
(* ------------------------------------------------------------------ *)

Section ArrayFacts.
Context {F : Scalar}.

Lemma length_vtab (n : nat) (f : nat -> num) : length (vtab n f) = n.
Proof. unfold vtab. now rewrite length_map, length_seq. Qed.

Lemma nth_map_seq {A : Type} (f : nat -> A) (n i : nat) (d : A) :
  i < n -> nth i (map f (seq 0 n)) d = f i.
Proof.
  intros Hi.
  rewrite (nth_indep _ d (f 0)) by now rewrite length_map, length_seq.
  rewrite (map_nth f (seq 0 n) 0 i), seq_nth by assumption.
  reflexivity.
Qed.

Lemma vget_vtab (n : nat) (f : nat -> num) (i : nat) :
  i < n -> vget (vtab n f) i = f i.
Proof. apply nth_map_seq. Qed.

Lemma vtab_ext (n : nat) (f g : nat -> num) :
  (forall i, i < n -> f i = g i) -> vtab n f = vtab n g.
Proof.
  intros H. unfold vtab. apply map_ext_in.
  intros i Hi. apply in_seq in Hi. apply H. lia.
Qed.

Lemma vtab_eta (v : vec) : v = vtab (length v) (vget v).
Proof.
  apply (nth_ext _ _ s0 s0).
  - now rewrite length_vtab.
  - intros i Hi. symmetry. now apply vget_vtab.
Qed.

Lemma row_mtab (r c : nat) (f : nat -> nat -> num) (i : nat) :
  i < r -> row (mtab r c f) i = vtab c (f i).
Proof.
  intros Hi. unfold row, mtab. simpl.
  exact (nth_map_seq (fun k => vtab c (f k)) [] Hi).
Qed.

Lemma entry_mtab (r c : nat) (f : nat -> nat -> num) (i j : nat) :
  i < r -> j < c -> entry (mtab r c f) i j = f i j.
Proof.
  intros Hi Hj. unfold entry.
  change (nth i (rowsof (mtab r c f)) []) with (row (mtab r c f) i).
  rewrite row_mtab by assumption. now apply vget_vtab.
Qed.

Lemma has_shape_mtab (r c : nat) (f : nat -> nat -> num) :
  has_shape r c (mtab r c f).
Proof.
  repeat split; simpl.
  - now rewrite length_map, length_seq.
  - apply Forall_forall. intros x Hx. apply in_map_iff in Hx.
    destruct Hx as [i [<- _]]. apply length_vtab.
Qed.

Lemma mtab_ext (r c : nat) (f g : nat -> nat -> num) :
  (forall i j, i < r -> j < c -> f i j = g i j) -> mtab r c f = mtab r c g.
Proof.
  intros H. unfold mtab. f_equal. apply map_ext_in.
  intros i Hi. apply in_seq in Hi. apply vtab_ext.
  intros j Hj. apply H; lia.
Qed.

Lemma wf_row_length (a : ndarray) (i : nat) :
  wf a -> i < shape0 a -> length (row a i) = shape1 a.
Proof.
  intros [Hl Hr] Hi. unfold row.
  rewrite Forall_forall in Hr. apply Hr. apply nth_In. lia.
Qed.

Lemma mtab_eta (a : ndarray) :
  wf a -> a = mtab (shape0 a) (shape1 a) (entry a).
Proof.
  intros Hwf. destruct a as [r c rows]. unfold mtab. simpl. f_equal.
  pose proof Hwf as [Hl Hr]. simpl in Hl, Hr.
  apply (nth_ext _ _ [] []).
  - now rewrite length_map, length_seq.
  - intros i Hi. rewrite nth_map_seq by lia.
    pose proof (@wf_row_length (NdArray r c rows) i Hwf) as Hlen.
    simpl in Hlen. unfold row in Hlen. simpl in Hlen.
    rewrite (vtab_eta (nth i rows [])) at 1.
    rewrite Hlen by lia. reflexivity.
Qed.

Lemma ndarray_ext (a b : ndarray) :
  wf a -> wf b -> shape0 a = shape0 b -> shape1 a = shape1 b ->
  (forall i j, i < shape0 a -> j < shape1 a -> entry a i j = entry b i j) ->
  a = b.
Proof.
  intros Ha Hb H0 H1 He.
  rewrite (mtab_eta Ha), (mtab_eta Hb), <- H0, <- H1.
  now apply mtab_ext.
Qed.

Lemma has_shape_zeros (r c : nat) : has_shape r c (np_zeros r c).
Proof. apply has_shape_mtab. Qed.

Lemma rows_np_zeros (r c : nat) :
  rowsof (np_zeros r c) = repeat (np_zeros1 c) r.
Proof.
  unfold np_zeros, mtab. simpl.
  generalize 0 as k. induction r as [|r IH]; intros k; simpl.
  - reflexivity.
  - f_equal. apply IH.
Qed.

Lemma bdim_same (n : nat) : bdim n n = Some n.
Proof. unfold bdim. now rewrite Nat.eqb_refl. Qed.

Lemma ufunc1_same (op : num -> num -> num) (a b : vec) :
  length a = length b ->
  ufunc1 op a b = Ok (vtab (length a) (fun i => op (vget a i) (vget b i))).
Proof.
  intros Hl. unfold ufunc1. rewrite <- Hl, bdim_same. f_equal.
  apply vtab_ext. intros i Hi. unfold bidx.
  destruct (Nat.eqb_spec (length a) 1) as [E|E]; [|reflexivity].
  now replace i with 0 by lia.
Qed.

End ArrayFacts.

(* ------------------------------------------------------------------ *)
(** ** Loops                                                           *)
(* ------------------------------------------------------------------ *)

Section MonadFacts.
Context {S : Type}.

Lemma M_bind_inv {A B : Type} (c : M S A) (k : A -> M S B)
    (s s' : S) (b : B) :
  bind c k s = Ok (b, s') ->
  exists a s1, c s = Ok (a, s1) /\ k a s1 = Ok (b, s').
Proof.
  cbn. destruct (c s) as [[a s1]|e]; [|discriminate].
  intros H. now exists a, s1.
Qed.

Lemma M_bind_ok {A B : Type} (c : M S A) (k : A -> M S B)
    (s s1 : S) (a : A) :
  c s = Ok (a, s1) -> bind c k s = k a s1.
Proof. cbn. now intros ->. Qed.

Lemma lift_inv {A : Type} (r : result A) (s s' : S) (a : A) :
  lift r s = Ok (a, s') -> r = Ok a /\ s' = s.
Proof.
  unfold lift. destruct r; [|discriminate].
  intros H. now inversion H.
Qed.

Lemma lift_ok {A : Type} (r : result A) (s : S) (a : A) :
  r = Ok a -> lift r s = Ok (a, s).
Proof. now intros ->. Qed.

Lemma result_bind_inv {A B : Type} (c : result A) (k : A -> result B) (b : B) :
  bind c k = Ok b -> exists a, c = Ok a /\ k a = Ok b.
Proof.
  cbn. destruct c as [a|e]; [|discriminate]. intros H. now exists a.
Qed.

End MonadFacts.

Ltac bind_inv H :=
  let a := fresh "a" in
  let s := fresh "s" in
  let E := fresh "E" in
  apply M_bind_inv in H; destruct H as (a & s & E & H).

(** Case analysis on every comparison in the goal. *)
Ltac cmp_cases :=
  repeat match goal with
         | |- context [?a <=? ?b] => destruct (Nat.leb_spec a b)
         | |- context [?a <? ?b] => destruct (Nat.ltb_spec a b)
         | |- context [?a =? ?b] => destruct (Nat.eqb_spec a b)
         end;
  cbn [andb orb]; try lia.

Ltac run_bind H := rewrite (@M_bind_ok _ _ _ _ _ _ _ _ H).

Ltac rbind_inv H :=
  let a := fresh "a" in
  let E := fresh "E" in
  apply result_bind_inv in H; destruct H as (a & E & H).

Section LoopFacts.
Context {S : Type}.

Lemma for_each_ext {I Acc : Type} (f g : I -> Acc -> M S Acc) (l : list I) :
  (forall i acc s, In i l -> f i acc s = g i acc s) ->
  forall acc s, for_each f l acc s = for_each g l acc s.
Proof.
  induction l as [|i l IH]; intros H acc s; simpl.
  - reflexivity.
  - rewrite H by now left.
    destruct (g i acc s) as [[acc' s']|e]; [|reflexivity].
    apply IH. intros. apply H. now right.
Qed.

Lemma map_m_ext {I A : Type} (f g : I -> M S A) (l : list I) :
  (forall i s, In i l -> f i s = g i s) ->
  forall s, map_m f l s = map_m g l s.
Proof.
  induction l as [|i l IH]; intros H s; simpl.
  - reflexivity.
  - rewrite H by now left.
    destruct (g i s) as [[a s']|e]; [|reflexivity].
    rewrite IH by (intros; apply H; now right). reflexivity.
Qed.

Lemma map_m_length {I A : Type} (f : I -> M S A) (l : list I) s ys s' :
  map_m f l s = Ok (ys, s') -> length ys = length l.
Proof.
  revert s ys. induction l as [|i l IH]; intros s ys H; simpl in H.
  - now inversion H.
  - destruct (f i s) as [[a s1]|e]; [|discriminate].
    destruct (map_m f l s1) as [[rest s2]|e] eqn:E; [|discriminate].
    inversion H; subst. simpl. f_equal. eapply IH; eauto.
Qed.

End LoopFacts.

(* ------------------------------------------------------------------ *)
(** ** The two single-step methods of [MbpDynamics]                    *)
(* ------------------------------------------------------------------ *)

Section StepFacts.
Context {F : Scalar} {NP : NumpyLib} {D : Mbp.Drake}.

Lemma dynamics_advances_clock (x u : vec) (rg : bool)
    (s s' : Mbp.MbpState) (y : vec) :
  Mbp.dynamics x u rg s = Ok (y, s') ->
  Mbp.simulator_time s' = sadd (Mbp.simulator_time s) Mbp.h /\
  Mbp.simulator_time_ad s' = Mbp.simulator_time_ad s /\
  Mbp.context_ad s' = Mbp.context_ad s /\
  Mbp.np_random s' = Mbp.np_random s.
Proof.
  unfold Mbp.dynamics. cbn.
  destruct (Mbp.get_q_dict_from_x x) as [qd|e]; cbn; [|discriminate].
  destruct (Mbp.get_q_a_cmd_dict_from_u u) as [qa|e]; cbn; [|discriminate].
  destruct (Mbp.update_mbp_inputs _ _ qa) as [c|e]; cbn; [|discriminate].
  intros H. inversion H; subst; clear H. cbn. auto.
Qed.

(** C9. [dynamics_py] and [dynamics] are the same computation: from one
    adapter state, for every [x], [u] and every value of the ignored
    arguments, they return the same next state and leave the same adapter
    state (or raise the same exception); a call that returns has advanced
    [simulator_time] by exactly [h]. *)
Theorem dynamics_py_equiv_dynamics (x u : vec) (mode : string)
    (rg rg' : bool) (s : Mbp.MbpState) :
  Mbp.dynamics_py x u mode rg s = Mbp.dynamics x u rg' s /\
  forall y s',
    Mbp.dynamics x u rg' s = Ok (y, s') ->
    Mbp.dynamics_py x u mode rg s = Ok (y, s') /\
    Mbp.simulator_time s' = sadd (Mbp.simulator_time s) Mbp.h.
Proof.
  split; [reflexivity|].
  intros y s' H. split; [exact H|].
  now apply (dynamics_advances_clock _ _ _ _ H).
Qed.

(* ------------------------------------------------------------------ *)
(** ** Mode dispatch in [calc_AB_batch]                                *)
(* ------------------------------------------------------------------ *)

Lemma all_zero_np_zeros (r c : nat) : all_zero (np_zeros r c).
Proof.
  intros i j. unfold entry.
  rewrite rows_np_zeros.
  destruct (Nat.lt_ge_cases i r) as [Hi|Hi].
  - rewrite nth_repeat_lt by assumption.
    unfold np_zeros1.
    destruct (Nat.lt_ge_cases j c) as [Hj|Hj].
    + exact (vget_vtab (fun _ => s0) Hj).
    + apply nth_overflow. now rewrite length_vtab.
  - rewrite (nth_overflow (repeat (np_zeros1 c) r))
      by now rewrite repeat_length.
    now destruct j.
Qed.

(** C8. For every mode string other than the four that are dispatched
    (so also for the docstring's ["exact."]), [calc_AB_batch] raises
    nothing, leaves the adapter untouched and returns the array of shape
    [(n, n_x, n_x + n_u)] it allocated, every entry of which is zero. *)
Theorem calc_AB_batch_unknown_mode (x_nominals u_nominals : ndarray)
    (n_samples : nat) (std_u : std) (mode : string) (s : Mbp.MbpState) :
  mode <> "first_order"%string ->
  mode <> "zero_order_B"%string ->
  mode <> "zero_order_AB"%string ->
  mode <> "exact"%string ->
  exists out,
    Mbp.calc_AB_batch x_nominals u_nominals n_samples std_u mode s
      = Ok (out, s) /\
    shape3_0 out = shape0 x_nominals /\
    shape3_1 out = Mbp.dim_x /\
    shape3_2 out = Mbp.dim_x + Mbp.dim_u /\
    length (slabs out) = shape0 x_nominals /\
    Forall (fun m => has_shape Mbp.dim_x (Mbp.dim_x + Mbp.dim_u) m /\
                     all_zero m) (slabs out).
Proof.
  intros H1 H2 H3 H4.
  exists (np_zeros3 (shape0 x_nominals) Mbp.dim_x (Mbp.dim_x + Mbp.dim_u)).
  split.
  - unfold Mbp.calc_AB_batch.
    apply String.eqb_neq in H1, H2, H3, H4.
    now rewrite H1, H2, H3, H4.
  - simpl. rewrite repeat_length. repeat split.
    apply Forall_forall. intros m Hm. apply repeat_spec in Hm. subst m.
    split; [apply has_shape_zeros | apply all_zero_np_zeros].
Qed.

End StepFacts.

(* ------------------------------------------------------------------ *)
(** ** The torch variant of the pendulum batch dynamics                *)
(* ------------------------------------------------------------------ *)

Section TorchFacts.
Context {F : Scalar} {T : Trig F}.

Lemma getcol_out_of_bounds (a : ndarray) (j : nat) :
  shape1 a <= j -> getcol a j = Raise IndexError.
Proof.
  intros H. unfold getcol.
  now destruct (Nat.ltb_spec j (shape1 a)); [lia|].
Qed.

Lemma getcol_in_bounds (a : ndarray) (j : nat) :
  j < shape1 a -> getcol a j = Ok (col a j).
Proof.
  intros H. unfold getcol.
  now destruct (Nat.ltb_spec j (shape1 a)); [|lia].
Qed.

Lemma length_col (a : ndarray) (j : nat) : length (col a j) = shape0 a.
Proof. apply length_vtab. Qed.

Lemma torch_ufunc1_same (op : num -> num -> num) (a b : vec) :
  length a = length b ->
  exists v, Pendulum.torch_op (ufunc1 op a b) = Ok v /\ length v = length a.
Proof.
  intros Hl. rewrite ufunc1_same by assumption.
  eexists. split; [reflexivity|]. apply length_vtab.
Qed.

(** The method indexes state columns 2, 3 and 4 and control columns 0
    and 1: a batch with fewer raises [IndexError]. *)
Lemma dynamics_batch_torch_needs_bicycle
    (self : Pendulum.PendulumDynamics) (x u : ndarray) :
  shape1 x < 5 \/ shape1 u < 2 ->
  Pendulum.dynamics_batch_torch self x u = Raise IndexError.
Proof.
  intros H. unfold Pendulum.dynamics_batch_torch, Pendulum.to_cuda.
  destruct (Nat.lt_ge_cases 2 (shape1 x)) as [H2|H2];
    [|now rewrite getcol_out_of_bounds].
  rewrite (getcol_in_bounds x H2). cbn.
  destruct (Nat.lt_ge_cases 3 (shape1 x)) as [H3|H3];
    [|now rewrite getcol_out_of_bounds].
  rewrite (getcol_in_bounds x H3). cbn.
  destruct (Nat.lt_ge_cases 4 (shape1 x)) as [H4|H4];
    [|now rewrite getcol_out_of_bounds].
  rewrite (getcol_in_bounds x H4). cbn.
  destruct H as [H|H]; [lia|].
  destruct (@torch_ufunc1_same smul (col x 3) (map scos (col x 2)))
    as [d0 [-> _]]; [now rewrite length_map, !length_col|]. cbn.
  destruct (@torch_ufunc1_same smul (col x 3) (map ssin (col x 2)))
    as [d1 [-> _]]; [now rewrite length_map, !length_col|]. cbn.
  destruct (@torch_ufunc1_same smul (col x 3) (map stan (col x 4)))
    as [d2 [-> _]]; [now rewrite length_map, !length_col|]. cbn.
  destruct (Nat.lt_ge_cases 0 (shape1 u)) as [H0|H0];
    [|now rewrite getcol_out_of_bounds].
  rewrite (getcol_in_bounds u H0). cbn.
  now rewrite getcol_out_of_bounds by lia.
Qed.

Lemma dynamics_batch_np_no_index_error
    (self : Pendulum.PendulumDynamics) (x u : ndarray) :
  2 <= shape1 x -> 1 <= shape1 u ->
  Pendulum.dynamics_batch_np self x u <> Raise IndexError.
Proof.
  intros Hx Hu. unfold Pendulum.dynamics_batch_np.
  rewrite !getcol_in_bounds by lia. cbn.
  destruct (ufunc1 sadd _ (col u 0)) as [acc|e] eqn:E1; cbn.
  2:{ unfold ufunc1 in E1. destruct (bdim _ _); congruence. }
  destruct (ufunc1 sadd (col x 1) _) as [ns|e] eqn:E2; cbn.
  2:{ unfold ufunc1 in E2. destruct (bdim _ _); congruence. }
  destruct (ufunc1 sadd (col x 0) _) as [na|e] eqn:E3; cbn.
  2:{ unfold ufunc1 in E3. destruct (bdim _ _); congruence. }
  destruct (length ns =? length na); cbn; congruence.
Qed.

(** C10. On every batch with the declared pendulum dimensions
    ([dim_x = 2] state columns, [dim_u = 1] control column)
    [dynamics_batch_torch] raises [IndexError] at the read of state
    column 2 and returns no next-state batch, so it never agrees with
    [dynamics_batch_np]. *)
Theorem dynamics_batch_torch_out_of_bounds (dt : num) (x u : ndarray) :
  shape1 x = Pendulum.pd_dim_x (Pendulum.PendulumDynamics_init dt) ->
  shape1 u = Pendulum.pd_dim_u (Pendulum.PendulumDynamics_init dt) ->
  getcol (Pendulum.to_cuda x) 2 = Raise IndexError /\
  Pendulum.dynamics_batch_torch (Pendulum.PendulumDynamics_init dt) x u
    = Raise IndexError /\
  Pendulum.dynamics_batch_torch (Pendulum.PendulumDynamics_init dt) x u
    <> Pendulum.dynamics_batch_np (Pendulum.PendulumDynamics_init dt) x u.
Proof.
  simpl. intros Hx Hu.
  assert (Ht : Pendulum.dynamics_batch_torch
                 (Pendulum.PendulumDynamics_init dt) x u = Raise IndexError)
    by (apply dynamics_batch_torch_needs_bicycle; lia).
  split; [apply getcol_out_of_bounds; unfold Pendulum.to_cuda; lia|].
  split; [exact Ht|].
  rewrite Ht. intros E. symmetry in E. revert E.
  apply dynamics_batch_np_no_index_error; lia.
Qed.

End TorchFacts.

(* ------------------------------------------------------------------ *)
(** ** Filling an array row by row                                     *)
(* ------------------------------------------------------------------ *)

#[local] Arguments skipn : simpl never.
#[local] Arguments firstn : simpl never.

Section RowFacts.
Context {F : Scalar}.

Lemma entry_rows (r c : nat) (rows : list (list num)) (i j : nat) :
  entry (NdArray r c rows) i j = nth j (nth i rows []) s0.
Proof. reflexivity. Qed.

Lemma bidx_lt (n i : nat) : i < n -> bidx n i = i.
Proof.
  intros H. unfold bidx. destruct (Nat.eqb_spec n 1); [lia|reflexivity].
Qed.

Lemma Forall_firstn_skipn {A : Type} (P : A -> Prop) (n : nat) (l : list A) :
  Forall P l -> Forall P (firstn n l) /\ Forall P (skipn n l).
Proof.
  intros H. rewrite <- (firstn_skipn n l) in H.
  now apply Forall_app in H.
Qed.

Lemma wf_replace_row (r c : nat) (rows : list (list num)) (i : nat) (y : vec) :
  wf (NdArray r c rows) -> i < r -> length y = c ->
  wf (NdArray r c (firstn i rows ++ y :: skipn (S i) rows)).
Proof.
  intros [Hl Hr] Hi Hy. simpl in *.
  split.
  - change (length (firstn i rows ++ y :: skipn (S i) rows) = r).
    rewrite length_app, length_firstn, length_cons, length_skipn. lia.
  - change (Forall (fun r => length r = c)
                    (firstn i rows ++ y :: skipn (S i) rows)).
    apply Forall_app. split.
    + now apply Forall_firstn_skipn.
    + constructor; [assumption|now apply Forall_firstn_skipn].
Qed.

Lemma nth_replace_row (rows : list (list num)) (i k : nat) (y : vec) :
  i < length rows ->
  nth k (firstn i rows ++ y :: skipn (S i) rows) []
  = if k =? i then y else nth k rows [].
Proof.
  intros Hi.
  assert (Hf : length (firstn i rows) = i) by (rewrite length_firstn; lia).
  destruct (Nat.eqb_spec k i) as [->|Hk].
  - rewrite app_nth2 by lia. rewrite Hf, Nat.sub_diag. reflexivity.
  - destruct (Nat.lt_ge_cases k i) as [Hlt|Hge].
    + rewrite app_nth1 by lia.
      rewrite <- (firstn_skipn i rows) at 2.
      now rewrite app_nth1 by lia.
    + rewrite app_nth2 by lia. rewrite Hf.
      replace (k - i) with (S (k - S i)) by lia.
      change (nth (k - S i) (skipn (S i) rows) [] = nth k rows []).
      rewrite nth_skipn. f_equal. lia.
Qed.

Lemma setitem_row (a : ndarray) (i : nat) (y : vec) :
  wf a -> i < shape0 a -> length y = shape1 a ->
  setitem a i y
  = Ok (NdArray (shape0 a) (shape1 a)
          (firstn i (rowsof a) ++ y :: skipn (S i) (rowsof a))).
Proof.
  intros Hwf Hi Hy. destruct a as [r c rows]. simpl in *.
  unfold setitem, setblock, clip. simpl.
  destruct (Nat.ltb_spec i r) as [_|]; [|lia].
  replace (Nat.min r i) with i by lia.
  replace (Nat.max i (Nat.min r (S i))) with (S i) by lia.
  rewrite Nat.min_0_r, Nat.min_id, Nat.max_0_l, Nat.sub_0_r.
  replace (S i - i) with 1 by lia.
  rewrite Hy, Nat.eqb_refl. simpl. f_equal.
  pose proof Hwf as [Hl Hr]. simpl in Hl, Hr.
  apply ndarray_ext; simpl; try reflexivity.
  - apply has_shape_mtab.
  - now apply wf_replace_row.
  - intros k j Hk Hj.
    rewrite entry_mtab by assumption.
    rewrite (entry_rows r c (firstn i rows ++ y :: skipn (S i) rows)).
    rewrite nth_replace_row by lia.
    destruct (Nat.eqb_spec k i) as [->|Hne].
    + destruct (Nat.leb_spec i i); [|lia].
      destruct (Nat.ltb_spec i (S i)); [|lia].
      destruct (Nat.ltb_spec j c); [|lia]. simpl.
      rewrite Nat.sub_diag, Nat.sub_0_r, (bidx_lt Hj).
      reflexivity.
    + replace ((i <=? k) && (k <? S i)) with false; [reflexivity|].
      symmetry. apply andb_false_iff.
      destruct (Nat.lt_ge_cases k i).
      * left. apply Nat.leb_gt. lia.
      * right. apply Nat.ltb_ge. lia.
Qed.

End RowFacts.

Section FillRows.
Context {F : Scalar} {S : Type}.

Lemma M_bind_assoc {A B C : Type} (c : M S A) (k : A -> M S B)
    (g : B -> M S C) (s : S) :
  bind (bind c k) g s = bind c (fun a => bind (k a) g) s.
Proof. cbn. destruct (c s) as [[a s1]|e]; reflexivity. Qed.

Lemma fill_rows_from (f : nat -> M S vec) (n d : nat) :
  (forall i s y s', f i s = Ok (y, s') -> length y = d) ->
  forall (m k : nat) (done : list (list num)) (s : S),
    k + m = n -> length done = k ->
    Forall (fun r => length r = d) done ->
    for_each (fun i acc => y <- f i ;; lift (setitem acc i y))
             (seq k m)
             (NdArray n d (done ++ repeat (np_zeros1 d) (n - k))) s
    = (rows <- map_m f (seq k m) ;; ret (NdArray n d (done ++ rows))) s.
Proof.
  intros Hf. induction m as [|m IH]; intros k done s Hk Hl Hd.
  - cbn. replace (n - k) with 0 by lia. reflexivity.
  - cbn. destruct (f k s) as [[y s1]|e] eqn:E; [|reflexivity].
    pose proof (Hf _ _ _ _ E) as Hy.
    assert (Hwf : wf (NdArray n d (done ++ repeat (np_zeros1 d) (n - k)))).
    { split; simpl.
      - rewrite length_app, repeat_length. lia.
      - apply Forall_app. split; [assumption|].
        apply Forall_forall. intros r Hr. apply repeat_spec in Hr.
        subst r. apply length_vtab. }
    unfold lift at 1.
    rewrite setitem_row by (first [exact Hwf | simpl; lia | exact Hy]).
    cbn [shape0 shape1 rowsof].
    assert (Hrows :
      firstn k (done ++ repeat (np_zeros1 d) (n - k)) ++
      y :: skipn (Datatypes.S k) (done ++ repeat (np_zeros1 d) (n - k))
      = (done ++ [y]) ++ repeat (np_zeros1 d) (n - Datatypes.S k)).
    { rewrite firstn_app, skipn_app, Hl, Nat.sub_diag.
      rewrite firstn_all2 by lia. rewrite (skipn_all2 done) by lia.
      replace (Datatypes.S k - k) with 1 by lia.
      replace (n - k) with (Datatypes.S (n - Datatypes.S k)) by lia.
      cbn [repeat]. rewrite firstn_O, skipn_cons, skipn_O.
      rewrite app_nil_r, <- app_assoc. reflexivity. }
    rewrite Hrows.
    specialize (IH (Datatypes.S k) (done ++ [y]) s1).
    cbn in IH. rewrite IH.
    + destruct (map_m f (seq (Datatypes.S k) m) s1) as [[rows s2]|e];
        [|reflexivity].
      now rewrite <- app_assoc.
    + lia.
    + rewrite length_app. simpl. lia.
    + apply Forall_app. split; [assumption|]. now constructor.
Qed.

(** A loop [x_next[i] = f(i)] over a fresh [np.zeros((n, d))] builds the
    array whose rows are the results of the calls, in order. *)
Lemma fill_rows (f : nat -> M S vec) (n d : nat) :
  (forall i s y s', f i s = Ok (y, s') -> length y = d) ->
  forall s,
    for_range n (fun i acc => y <- f i ;; lift (setitem acc i y))
              (np_zeros n d) s
    = (rows <- map_m f (seq 0 n) ;; ret (NdArray n d rows)) s.
Proof.
  intros Hf s. unfold for_range.
  pose proof (@fill_rows_from f n d Hf n 0 [] s) as H.
  simpl in H. rewrite Nat.sub_0_r in H.
  unfold np_zeros at 1. unfold mtab.
  change (map (fun i => vtab d (fun _ => s0)) (seq 0 n))
    with (rowsof (np_zeros n d)).
  rewrite rows_np_zeros. apply H; auto.
Qed.

End FillRows.

(* ------------------------------------------------------------------ *)
(** ** Batch dynamics against single-pair dynamics                     *)
(* ------------------------------------------------------------------ *)

Section ResultLoops.

Lemma for_each_result_inv {I Acc : Type} (P : Acc -> Prop)
    (body : I -> Acc -> result Acc) (l : list I) :
  (forall i acc acc', body i acc = Ok acc' -> P acc -> P acc') ->
  forall acc r, P acc -> for_each body l acc = Ok r -> P r.
Proof.
  intros Hb. induction l as [|i l IH]; intros acc r Hp H; cbn in H.
  - now inversion H; subst.
  - destruct (body i acc) as [acc'|e] eqn:E; [|discriminate].
    eapply IH; [|exact H]. eapply Hb; eauto.
Qed.

Lemma map_m_result_ok {I A : Type} (f : I -> result A) (g : I -> A)
    (l : list I) :
  (forall i, In i l -> f i = Ok (g i)) -> map_m f l = Ok (map g l).
Proof.
  induction l as [|i l IH]; intros H; cbn.
  - reflexivity.
  - rewrite H by now left. rewrite IH by (intros; apply H; now right).
    reflexivity.
Qed.

End ResultLoops.

Section QuasistaticBatch.
Context {F : Scalar} {Sim : Quasistatic.QuasistaticSimulator}.

Lemma put_at_length (v : vec) (idx : list nat) (vals v' : vec) :
  put_at v idx vals = Ok v' -> length v' = length v.
Proof.
  unfold put_at.
  destruct (_ || _); [|discriminate].
  destruct (forallb _ idx); [|discriminate].
  intros H. inversion H; subst; clear H.
  generalize (combine idx
                (vtab (length idx)
                      (fun k => vget vals (bidx (length vals) k)))).
  intros l. revert v. induction l as [|p l IH]; intros v; simpl.
  - reflexivity.
  - rewrite IH. apply length_vtab.
Qed.

Lemma get_x_from_q_dict_length (self : Quasistatic.QuasistaticDynamics)
    (q_dict : dict vec) (x : vec) :
  Quasistatic.get_x_from_q_dict self q_dict = Ok x ->
  length x = Quasistatic.qd_dim_x self.
Proof.
  unfold Quasistatic.get_x_from_q_dict.
  apply (for_each_result_inv
           (fun x => length x = Quasistatic.qd_dim_x self)).
  - intros p acc acc' H Hacc.
    rbind_inv H. apply put_at_length in H. congruence.
  - apply length_vtab.
Qed.

Lemma qs_dynamics_length (self : Quasistatic.QuasistaticDynamics)
    (x u : vec) (mode : string) (rg : bool)
    (s s' : Quasistatic.QSim) (y : vec) :
  Quasistatic.dynamics self x u mode rg s = Ok (y, s') ->
  length y = Quasistatic.qd_dim_x self.
Proof.
  unfold Quasistatic.dynamics. intros H.
  do 6 bind_inv H.
  apply lift_inv in H. destruct H as [H _].
  now apply get_x_from_q_dict_length in H.
Qed.

Lemma qs_dynamics_batch_rows (self : Quasistatic.QuasistaticDynamics)
    (x u : ndarray) (s : Quasistatic.QSim) :
  Quasistatic.dynamics_batch self x u s
  = (rows <- Quasistatic.dynamics_rows self x u ;;
     ret (NdArray (shape0 x) (Quasistatic.qd_dim_x self) rows)) s.
Proof.
  unfold Quasistatic.dynamics_batch, Quasistatic.dynamics_rows.
  rewrite <- fill_rows.
  - unfold for_range. apply for_each_ext. intros i acc s0 _.
    cbn. destruct (lift (getitem x i) s0) as [[xi s1]|]; [|reflexivity].
    destruct (lift (getitem u i) s1) as [[ui s2]|]; reflexivity.
  - intros i s0 y s' H. do 2 bind_inv H.
    now apply qs_dynamics_length in H.
Qed.

End QuasistaticBatch.

Section PendulumBatch.
Context {F : Scalar} {T : Trig F}.

Lemma vget_map (f : num -> num) (v : vec) (i : nat) :
  i < length v -> vget (map f v) i = f (vget v i).
Proof.
  intros H. unfold vget.
  rewrite (nth_indep _ s0 (f s0)) by now rewrite length_map.
  apply map_nth.
Qed.

Lemma vget_col (a : ndarray) (j i : nat) :
  i < shape0 a -> vget (col a j) i = entry a i j.
Proof. intros H. unfold col. now rewrite vget_vtab. Qed.

Lemma getitem1_ok (v : vec) (i : nat) :
  i < length v -> getitem1 v i = Ok (vget v i).
Proof.
  intros H. unfold getitem1. now destruct (Nat.ltb_spec i (length v)); [|lia].
Qed.

Lemma getitem_ok (a : ndarray) (i : nat) :
  i < shape0 a -> getitem a i = Ok (row a i).
Proof.
  intros H. unfold getitem. now destruct (Nat.ltb_spec i (shape0 a)); [|lia].
Qed.

Lemma dynamics_np_rows_ok (self : Pendulum.PendulumDynamics) (x u : ndarray) :
  wf x -> wf u -> shape0 u = shape0 x -> 2 <= shape1 x -> 1 <= shape1 u ->
  Pendulum.dynamics_np_rows self x u
  = Ok (map (Pendulum.pendulum_row self x u) (seq 0 (shape0 x))).
Proof.
  intros Hx Hu Hb Hcx Hcu. unfold Pendulum.dynamics_np_rows.
  apply map_m_result_ok. intros i Hi. apply in_seq in Hi.
  rewrite !getitem_ok by lia. cbn.
  unfold Pendulum.dynamics_np.
  pose proof (wf_row_length Hx (i:=i) ltac:(lia)) as Lx.
  pose proof (wf_row_length Hu (i:=i) ltac:(lia)) as Lu.
  rewrite !getitem1_ok by lia. reflexivity.
Qed.

Lemma result_bind_ok {A B : Type} (a : A) (k : A -> result B) :
  bind (Ok a) k = k a.
Proof. reflexivity. Qed.

Lemma ufunc1_spec (op : num -> num -> num) (a b : vec) (n : nat) :
  length a = n -> length b = n ->
  exists v, ufunc1 op a b = Ok v /\ length v = n /\
            forall i, i < n -> vget v i = op (vget a i) (vget b i).
Proof.
  intros Ha Hb. rewrite ufunc1_same by congruence.
  eexists. split; [reflexivity|]. rewrite Ha. split.
  - apply length_vtab.
  - intros i Hi. now rewrite vget_vtab.
Qed.

Lemma dynamics_batch_np_ok (self : Pendulum.PendulumDynamics) (x u : ndarray) :
  shape0 u = shape0 x -> 2 <= shape1 x -> 1 <= shape1 u ->
  Pendulum.dynamics_batch_np self x u
  = Ok (NdArray (shape0 x) 2 (map (Pendulum.pendulum_row self x u) (seq 0 (shape0 x)))).
Proof.
  intros Hb Hcx Hcu. unfold Pendulum.dynamics_batch_np.
  rewrite !getcol_in_bounds by lia. rewrite !result_bind_ok.
  destruct (@ufunc1_spec sadd (vneg (map ssin (col x 0))) (col u 0) (shape0 x))
    as (acc & -> & Lacc & Hacc);
    [unfold vneg; now rewrite !length_map, length_col
    |now rewrite length_col|].
  rewrite result_bind_ok.
  destruct (@ufunc1_spec sadd (col x 1) (vscale (Pendulum.pd_dt self) acc)
              (shape0 x))
    as (ns & -> & Lns & Hns);
    [now rewrite length_col|unfold vscale; now rewrite length_map|].
  rewrite result_bind_ok.
  destruct (@ufunc1_spec sadd (col x 0) (vscale (Pendulum.pd_dt self) ns)
              (shape0 x))
    as (na & -> & Lna & Hna);
    [now rewrite length_col|unfold vscale; now rewrite length_map|].
  rewrite result_bind_ok.
  unfold np_vstack. cbn [forallb].
  rewrite Lns, Lna, Nat.eqb_refl. cbn [andb]. rewrite result_bind_ok.
  cbn [ret result_monad]. f_equal.
  unfold transpose, mtab. cbn [shape0 shape1 length]. f_equal.
  apply map_ext_in. intros i Hi. apply in_seq in Hi.
  assert (Es : vget ns i
               = sadd (entry x i 1)
                   (smul (Pendulum.pd_dt self)
                      (sadd (sneg (ssin (entry x i 0))) (entry u i 0)))).
  { rewrite Hns by lia. unfold vscale. rewrite vget_map by lia.
    rewrite Hacc by lia. unfold vneg.
    rewrite !vget_map by (rewrite ?length_map, length_col; lia).
    rewrite !vget_col by lia. reflexivity. }
  assert (Ea : vget na i
               = sadd (entry x i 0) (smul (Pendulum.pd_dt self) (vget ns i))).
  { rewrite Hna by lia. unfold vscale. rewrite vget_map by lia.
    rewrite vget_col by lia. reflexivity. }
  unfold Pendulum.pendulum_row. rewrite <- Es, <- Ea. reflexivity.
Qed.

(** C5. Batch dynamics is the elementwise sequence of single-pair calls.
    Pendulum: on a batch of [B] states with at least two columns and [B]
    controls with at least one, [dynamics_batch_np] returns the array
    whose row [i] is what [dynamics_np] returns on [(x[i], u[i])].
    Quasistatic adapter: [dynamics_batch] run from any simulator state is
    the sequence of calls [dynamics(x[i], u[i])], [i = 0 .. B-1], each
    started in the state its predecessor left, and its result has these
    calls' results as rows (or it raises what the first failing call
    raises). *)
Theorem batch_equals_elementwise :
  (forall (self : Pendulum.PendulumDynamics) (x u : ndarray),
     wf x -> wf u -> shape0 u = shape0 x ->
     2 <= shape1 x -> 1 <= shape1 u ->
     exists rows,
       Pendulum.dynamics_np_rows self x u = Ok rows /\
       Pendulum.dynamics_batch_np self x u
         = Ok (NdArray (shape0 x) 2 rows)) /\
  (forall (Sim : Quasistatic.QuasistaticSimulator)
          (self : Quasistatic.QuasistaticDynamics) (x u : ndarray)
          (s : Quasistatic.QSim),
     Quasistatic.dynamics_batch self x u s
     = (rows <- Quasistatic.dynamics_rows self x u ;;
        ret (NdArray (shape0 x) (Quasistatic.qd_dim_x self) rows)) s).
Proof.
  split.
  - intros self x u Hx Hu Hb Hcx Hcu.
    exists (map (Pendulum.pendulum_row self x u) (seq 0 (shape0 x))). split.
    + now apply dynamics_np_rows_ok.
    + now apply dynamics_batch_np_ok.
  - intros. apply qs_dynamics_batch_rows.
Qed.

End PendulumBatch.

Section TorchBicycle.
Context {F : Scalar} {T : Trig F}.


End TorchBicycle.

(* ------------------------------------------------------------------ *)
(** ** Random draws and accumulation loops                             *)
(* ------------------------------------------------------------------ *)

Section DrawFacts.
Context {F : Scalar} {NP : NumpyLib}.

Lemma draw_row_length (loc : num) (scales : list num) (g : RandomState) :
  length (fst (draw_row loc scales g)) = length scales.
Proof.
  revert g. induction scales as [|sc scales IH]; intros g; simpl.
  - reflexivity.
  - destruct (normal_sample g loc sc) as [z g1].
    specialize (IH g1). destruct (draw_row loc scales g1) as [zs g2].
    simpl in *. now f_equal.
Qed.

Lemma draw_rows_shape (loc : num) (scales : list num) (r : nat)
    (g : RandomState) :
  length (fst (draw_rows loc scales r g)) = r /\
  Forall (fun row => length row = length scales)
         (fst (draw_rows loc scales r g)).
Proof.
  revert g. induction r as [|r IH]; intros g; simpl.
  - split; [reflexivity|constructor].
  - pose proof (draw_row_length loc scales g) as Hrow.
    destruct (draw_row loc scales g) as [z g1].
    specialize (IH g1). destruct (draw_rows loc scales r g1) as [zs g2].
    simpl in *. destruct IH as [IH1 IH2]. split.
    + now f_equal.
    + now constructor.
Qed.

Lemma np_random_normal_ok (loc : num) (scale : std) (r c : nat)
    (g : RandomState) :
  Mbp.std_ok scale c ->
  exists d g', np_random_normal loc scale r c g = Ok (d, g') /\
               has_shape r c d.
Proof.
  intros Hstd. unfold np_random_normal. destruct scale as [sc|v].
  - pose proof (draw_rows_shape loc (repeat sc c) r g) as [H1 H2].
    destruct (draw_rows loc (repeat sc c) r g) as [d g'].
    exists (NdArray r c d), g'. split; [reflexivity|].
    simpl in *. rewrite repeat_length in H2. now repeat split.
  - simpl in Hstd.
    assert (E : (length v =? c) || (length v =? 1) = true).
    { apply orb_true_iff. destruct Hstd as [H|H]; [left|right];
        now apply Nat.eqb_eq. }
    rewrite E.
    set (scales := vtab c (fun j => vget v (bidx (length v) j))).
    pose proof (draw_rows_shape loc scales r g) as [H1 H2].
    destruct (draw_rows loc scales r g) as [d g'].
    exists (NdArray r c d), g'. split; [reflexivity|].
    simpl in *. unfold scales in H2. rewrite length_vtab in H2.
    now repeat split.
Qed.

Lemma iadd_same (r c : nat) (a b : ndarray) :
  has_shape r c a -> has_shape r c b ->
  iadd a b = Ok (madd a b) /\ has_shape r c (madd a b).
Proof.
  intros (Ha0 & Ha1 & _) (Hb0 & Hb1 & _). unfold iadd, madd.
  rewrite Ha0, Ha1, Hb0, Hb1, !Nat.eqb_refl. simpl. split.
  - f_equal. apply mtab_ext. intros i j Hi Hj.
    now rewrite !bidx_lt.
  - apply has_shape_mtab.
Qed.

End DrawFacts.

Section AccumulateFacts.
Context {F : Scalar} {NP : NumpyLib} {S : Type}.

Lemma lift_bind_ok {A B : Type} (r : result A) (a : A) (k : A -> M S B)
    (s : S) :
  r = Ok a -> bind (lift r) k s = k a s.
Proof. now intros ->. Qed.

Lemma map_m_total {I A : Type} (f : I -> M S A) (P : A -> Prop)
    (l : list I) :
  (forall i s, In i l -> exists a s', f i s = Ok (a, s') /\ P a) ->
  forall s, exists ys s',
    map_m f l s = Ok (ys, s') /\ Forall P ys /\ length ys = length l.
Proof.
  induction l as [|i l IH]; intros H s.
  - exists [], s. now repeat split.
  - destruct (H i s (or_introl eq_refl)) as (a & s1 & E & Pa).
    destruct (IH (fun j s0 Hj => H j s0 (or_intror Hj)) s1)
      as (ys & s2 & E2 & Pys & L).
    exists (a :: ys), s2. cbn. rewrite E, E2. repeat split.
    + now constructor.
    + simpl. now f_equal.
Qed.

Lemma accumulate (f : nat -> M S ndarray) (r c : nat) (l : list nat) :
  (forall i s J s', f i s = Ok (J, s') -> has_shape r c J) ->
  forall acc s, has_shape r c acc ->
    for_each (fun i A => J <- f i ;; lift (iadd A J)) l acc s
    = (Js <- map_m f l ;; ret (fold_left madd Js acc)) s.
Proof.
  intros Hf. induction l as [|i l IH]; intros acc s Hacc.
  - reflexivity.
  - cbn. destruct (f i s) as [[J s1]|e] eqn:E; [|reflexivity].
    destruct (iadd_same Hacc (Hf _ _ _ _ E)) as [-> Hsum]. cbn.
    specialize (IH _ s1 Hsum). cbn in IH. rewrite IH.
    now destruct (map_m f l s1) as [[Js s2]|e].
Qed.

End AccumulateFacts.

(* ------------------------------------------------------------------ *)
(** ** The first-order estimator                                       *)
(* ------------------------------------------------------------------ *)

Section PerturbFacts.
Context {F : Scalar}.

Lemma length_vadd (a b : vec) : length (vadd a b) = length a.
Proof. apply length_vtab. Qed.

Lemma ufunc1_vadd (a b : vec) :
  length a = length b -> ufunc1 sadd a b = Ok (vadd a b).
Proof. apply ufunc1_same. Qed.

Lemma perturb_ok (n c : nat) (u : vec) (du : ndarray) (i : nat) :
  has_shape n c du -> length u = c -> i < n ->
  getitem du i = Ok (row du i) /\
  ufunc1 sadd u (row du i) = Ok (vadd u (row du i)) /\
  length (vadd u (row du i)) = c.
Proof.
  intros (H0 & H1 & Hwf) Hu Hi.
  assert (Hr : length (row du i) = c)
    by (rewrite <- H1; apply wf_row_length; [assumption|lia]).
  repeat split.
  - apply getitem_ok. lia.
  - apply ufunc1_vadd. congruence.
  - now rewrite length_vadd.
Qed.

End PerturbFacts.

Section FirstOrder.
Context {F : Scalar} {NP : NumpyLib} {D : Mbp.Drake}.

Lemma draw_ok (scale : std) (r c : nat) (s : Mbp.MbpState) :
  Mbp.std_ok scale c ->
  exists d s',
    Mbp.with_random (np_random_normal s0 scale r c) s = Ok (d, s') /\
    has_shape r c d.
Proof.
  intros Hstd. unfold Mbp.with_random.
  destruct (@np_random_normal_ok _ _ s0 scale r c (Mbp.np_random s) Hstd)
    as (d & g' & -> & Hd).
  eexists. eexists. split; [reflexivity|exact Hd].
Qed.

Lemma has_shape_msum (r c : nat) (l : list ndarray) (acc : ndarray) :
  has_shape r c acc -> Forall (has_shape r c) l ->
  has_shape r c (fold_left madd l acc).
Proof.
  revert acc. induction l as [|J l IH]; intros acc Hacc Hl; simpl.
  - assumption.
  - inversion Hl; subst. apply IH; [|assumption].
    now apply (iadd_same Hacc).
Qed.

Lemma has_shape_mdiv (r c : nat) (a : ndarray) (k : num) :
  has_shape r c a -> has_shape r c (mdiv_scalar a k).
Proof.
  intros (H0 & H1 & _). unfold mdiv_scalar. rewrite H0, H1.
  apply has_shape_mtab.
Qed.

(** A run of [calc_AB_first_order]: one draw of [du], then the Jacobians
    at the perturbed controls, then their mean. *)
Lemma calc_AB_first_order_run (x u : vec) (n : nat) (std_u : std)
    (s : Mbp.MbpState) :
  Mbp.jacobian_contract ->
  length x = Mbp.dim_x -> length u = Mbp.dim_u ->
  Mbp.std_ok std_u Mbp.dim_u ->
  exists du s1 Js s2,
    Mbp.with_random (np_random_normal s0 std_u n Mbp.dim_u) s
      = Ok (du, s1) /\
    has_shape n Mbp.dim_u du /\
    Mbp.jacobians_at x u du s1 = Ok (Js, s2) /\
    length Js = n /\
    Forall (has_shape Mbp.dim_x (Mbp.dim_x + Mbp.dim_u)) Js /\
    Mbp.calc_AB_first_order x u n std_u s
      = Ok (Mbp.mean_jacobian Js n, s2).
Proof.
  intros Hjac Hx Hu Hstd.
  destruct (@draw_ok std_u n _ s Hstd) as (du & s1 & Hdraw & Hdu).
  pose proof Hdu as (Hd0 & Hd1 & Hdwf).
  set (g := fun i => Mbp.jacobian_xu x (vadd u (row du i))).
  destruct (@map_m_total _ _ _ g
              (has_shape Mbp.dim_x (Mbp.dim_x + Mbp.dim_u)) (seq 0 n))
    with (s := s1) as (Js & s2 & HJs & HJshape & HJlen).
  { intros i s' Hi. apply in_seq in Hi. unfold g.
    destruct (@perturb_ok _ _ _ _ _ i Hdu Hu ltac:(lia)) as (_ & _ & Hl).
    destruct (Hjac x (vadd u (row du i)) s' Hx Hl) as (J & s'' & E & HJ).
    now exists J, s''. }
  rewrite length_seq in HJlen.
  exists du, s1, Js, s2.
  split; [exact Hdraw|]. split; [exact Hdu|].
  split; [unfold Mbp.jacobians_at; rewrite Hd0; exact HJs|].
  split; [exact HJlen|]. split; [exact HJshape|].
  { unfold Mbp.calc_AB_first_order.
    run_bind Hdraw.
    assert (Hloop :
      for_range n
        (fun i ABhat =>
           du_i <- lift (getitem du i) ;;
           u_i <- lift (ufunc1 sadd u du_i) ;;
           J <- Mbp.jacobian_xu x u_i ;;
           lift (iadd ABhat J))
        (np_zeros Mbp.dim_x (Mbp.dim_x + Mbp.dim_u)) s1
      = Ok (msum Mbp.dim_x (Mbp.dim_x + Mbp.dim_u) Js, s2)).
    { unfold for_range.
      rewrite (for_each_ext _
                 (fun i A => J <- g i ;; lift (iadd A J))).
      - rewrite (accumulate g (r := Mbp.dim_x)
                   (c := Mbp.dim_x + Mbp.dim_u)).
        + run_bind HJs. reflexivity.
        + intros i s' J s'' E. unfold g in E.
          destruct (Hjac x (vadd u (row du i)) s' Hx)
            as (J' & s3 & E' & HJ); [now rewrite length_vadd|].
          congruence.
        + apply has_shape_zeros.
      - intros i acc s' Hi. apply in_seq in Hi.
        destruct (@perturb_ok _ _ _ _ _ i Hdu Hu ltac:(lia))
          as (E1 & E2 & _).
        rewrite (lift_bind_ok _ _ E1), (lift_bind_ok _ _ E2).
        reflexivity. }
    run_bind Hloop. reflexivity. }
Qed.

End FirstOrder.

(* ------------------------------------------------------------------ *)
(** ** Block assignment and stacking                                   *)
(* ------------------------------------------------------------------ *)

Section BlockFacts.
Context {F : Scalar}.

Lemma setblock_exact (a : ndarray) (r0 r1 c0 c1 : nat) (v : ndarray) :
  r0 <= r1 -> r1 <= shape0 a -> c0 <= c1 -> c1 <= shape1 a ->
  shape0 v = r1 - r0 -> shape1 v = c1 - c0 ->
  setblock a r0 r1 c0 c1 v
  = Ok (mtab (shape0 a) (shape1 a) (fun i j =>
          if (r0 <=? i) && (i <? r1) && (c0 <=? j) && (j <? c1)
          then entry v (i - r0) (j - c0)
          else entry a i j)).
Proof.
  intros Hr Hr1 Hc Hc1 Hv0 Hv1. unfold setblock, clip.
  replace (Nat.min (shape0 a) r0) with r0 by lia.
  replace (Nat.min (shape0 a) r1) with r1 by lia.
  replace (Nat.min (shape1 a) c0) with c0 by lia.
  replace (Nat.min (shape1 a) c1) with c1 by lia.
  replace (Nat.max r0 r1) with r1 by lia.
  replace (Nat.max c0 c1) with c1 by lia.
  rewrite Hv0, Hv1, !Nat.eqb_refl. cbn [orb andb]. f_equal.
  apply mtab_ext. intros i j Hi Hj.
  destruct ((r0 <=? i) && (i <? r1) && (c0 <=? j) && (j <? c1)) eqn:E;
    [|reflexivity].
  apply andb_prop in E. destruct E as [E E4].
  apply andb_prop in E. destruct E as [E E3].
  apply andb_prop in E. destruct E as [E1 E2].
  apply Nat.leb_le in E1, E3. apply Nat.ltb_lt in E2, E4.
  now rewrite !bidx_lt by lia.
Qed.

Lemma has_shape_wf (r c : nat) (a : ndarray) : has_shape r c a -> wf a.
Proof. now intros (_ & _ & H). Qed.

Lemma nth_app_if {A : Type} (l1 l2 : list A) (j : nat) (d : A) :
  nth j (l1 ++ l2) d
  = if j <? length l1 then nth j l1 d else nth (j - length l1) l2 d.
Proof.
  destruct (Nat.ltb_spec j (length l1)).
  - now apply app_nth1.
  - now apply app_nth2.
Qed.

Lemma hstack2_entries (a b : ndarray) :
  wf a -> wf b -> shape0 a = shape0 b ->
  hstack2 a b
  = mtab (shape0 a) (shape1 a + shape1 b)
         (fun i j => if j <? shape1 a then entry a i j
                     else entry b i (j - shape1 a)).
Proof.
  intros Ha Hb H0. unfold hstack2, mtab. f_equal.
  apply map_ext_in. intros i Hi. apply in_seq in Hi.
  apply (nth_ext _ _ s0 s0).
  - rewrite length_app, length_vtab, !wf_row_length by (assumption || lia).
    reflexivity.
  - intros j Hj.
    rewrite length_app, !wf_row_length in Hj by (assumption || lia).
    change (nth j (vtab ?n ?f) s0) with (vget (vtab n f) j).
    rewrite vget_vtab by assumption.
    rewrite nth_app_if, wf_row_length by (assumption || lia).
    reflexivity.
Qed.

Lemma entry_hstack2 (a b : ndarray) (i j : nat) :
  wf a -> wf b -> shape0 a = shape0 b ->
  i < shape0 a -> j < shape1 a + shape1 b ->
  entry (hstack2 a b) i j
  = if j <? shape1 a then entry a i j else entry b i (j - shape1 a).
Proof.
  intros Ha Hb H0 Hi Hj. rewrite hstack2_entries by assumption.
  now rewrite entry_mtab.
Qed.

Lemma vstack2_entries (a b : ndarray) :
  wf a -> wf b -> shape1 a = shape1 b ->
  vstack2 a b
  = mtab (shape0 a + shape0 b) (shape1 a)
         (fun i j => if i <? shape0 a then entry a i j
                     else entry b (i - shape0 a) j).
Proof.
  intros Ha Hb H1. unfold vstack2.
  apply ndarray_ext; cbn [mtab shape0 shape1]; try reflexivity.
  - destruct Ha as [La Ra], Hb as [Lb Rb]. split; cbn [rowsof shape0 shape1].
    + rewrite length_app. congruence.
    + apply Forall_app. split; [assumption|]. now rewrite H1.
  - apply has_shape_mtab.
  - intros i j Hi Hj. rewrite entry_mtab by assumption.
    unfold entry at 1. cbn [rowsof].
    rewrite nth_app_if. destruct Ha as [La _]. rewrite La.
    now destruct (i <? shape0 a).
Qed.

Lemma has_shape_hstack2 (r c1 c2 : nat) (a b : ndarray) :
  has_shape r c1 a -> has_shape r c2 b -> has_shape r (c1 + c2) (hstack2 a b).
Proof.
  intros (A0 & A1 & Aw) (B0 & B1 & Bw).
  rewrite hstack2_entries by (assumption || congruence).
  rewrite A0, A1, B1. apply has_shape_mtab.
Qed.

Lemma has_shape_vstack2 (r1 r2 c : nat) (a b : ndarray) :
  has_shape r1 c a -> has_shape r2 c b -> has_shape (r1 + r2) c (vstack2 a b).
Proof.
  intros (A0 & A1 & Aw) (B0 & B1 & Bw).
  rewrite vstack2_entries by (assumption || congruence).
  rewrite A0, A1, B0. apply has_shape_mtab.
Qed.

Lemma has_shape_transpose (r c : nat) (a : ndarray) :
  shape0 a = r -> shape1 a = c -> has_shape c r (transpose a).
Proof. intros <- <-. apply has_shape_mtab. Qed.

Lemma has_shape_getblock (a : ndarray) (r c : nat) :
  r <= shape0 a -> c <= shape1 a -> has_shape r c (getblock a 0 r 0 c).
Proof.
  intros Hr Hc. unfold getblock, clip.
  rewrite !Nat.min_0_r, !Nat.max_0_l, !Nat.sub_0_r.
  replace (Nat.min (shape0 a) r) with r by lia.
  replace (Nat.min (shape1 a) c) with c by lia.
  apply has_shape_mtab.
Qed.

Lemma entry_getblock (a : ndarray) (r c i j : nat) :
  r <= shape0 a -> c <= shape1 a -> i < r -> j < c ->
  entry (getblock a 0 r 0 c) i j = entry a i j.
Proof.
  intros Hr Hc Hi Hj. unfold getblock, clip.
  rewrite !Nat.min_0_r, !Nat.max_0_l, !Nat.sub_0_r.
  replace (Nat.min (shape0 a) r) with r by lia.
  replace (Nat.min (shape1 a) c) with c by lia.
  now rewrite entry_mtab.
Qed.

Lemma ufunc2_sub_row (n c : nat) (a : ndarray) (v : vec) :
  has_shape n c a -> length v = c ->
  ufunc2 ssub a (as_row v) = Ok (msub_row a v).
Proof.
  intros (H0 & H1 & _) Hv. unfold ufunc2, msub_row.
  cbn [as_row shape0 shape1]. rewrite H0, H1, Hv, bdim_same.
  assert (E : bdim n 1 = Some n).
  { unfold bdim. destruct (Nat.eqb_spec n 1) as [->|]; [reflexivity|].
    reflexivity. }
  rewrite E. f_equal. apply mtab_ext. intros i j Hi Hj.
  rewrite !bidx_lt by lia. reflexivity.
Qed.

Lemma has_shape_msub_row (n c : nat) (a : ndarray) (v : vec) :
  has_shape n c a -> has_shape n c (msub_row a v).
Proof.
  intros (H0 & H1 & _). unfold msub_row. rewrite H0, H1.
  apply has_shape_mtab.
Qed.

End BlockFacts.

(* ------------------------------------------------------------------ *)
(** ** The zero-order estimators                                       *)
(* ------------------------------------------------------------------ *)

Section ZeroOrder.
Context {F : Scalar} {NP : NumpyLib} {D : Mbp.Drake}.

Lemma np_linalg_lstsq_ok (a b : ndarray) :
  shape0 a = shape0 b ->
  np_linalg_lstsq a b = Ok (lstsq_solution a b) /\
  has_shape (shape1 a) (shape1 b) (lstsq_solution a b).
Proof.
  intros H. unfold np_linalg_lstsq. rewrite H, Nat.eqb_refl.
  split; [reflexivity|apply has_shape_mtab].
Qed.

Lemma wf_rows (n d : nat) (ys : list vec) :
  length ys = n -> Forall (fun y => length y = d) ys ->
  has_shape n d (NdArray n d ys).
Proof. intros H1 H2. now repeat split. Qed.

(** The loop that evaluates the dynamics at the perturbed controls. *)
Lemma next_states_u_loop (x u : vec) (n : nat) (du : ndarray)
    (s : Mbp.MbpState) :
  Mbp.dynamics_contract ->
  length x = Mbp.dim_x -> length u = Mbp.dim_u ->
  has_shape n Mbp.dim_u du ->
  exists ys s',
    Mbp.next_states_u x u du s = Ok (ys, s') /\
    length ys = n /\ Forall (fun y => length y = Mbp.dim_x) ys /\
    for_range n
      (fun i x_next =>
         du_i <- lift (getitem du i) ;;
         u_i <- lift (ufunc1 sadd u du_i) ;;
         y <- Mbp.dynamics x u_i false ;;
         lift (setitem x_next i y))
      (np_zeros n Mbp.dim_x) s
    = Ok (NdArray n Mbp.dim_x ys, s').
Proof.
  intros Hdyn Hx Hu Hdu. pose proof Hdu as (Hd0 & _).
  set (f := fun i => Mbp.dynamics x (vadd u (row du i)) false).
  destruct (@map_m_total _ _ _ f (fun y => length y = Mbp.dim_x) (seq 0 n))
    with (s := s) as (ys & s' & Hys & Hlen & Hn).
  { intros i s1 _. unfold f.
    destruct (Hdyn x (vadd u (row du i)) false s1 Hx) as (y & s2 & E & L);
      [now rewrite length_vadd|].
    now exists y, s2. }
  rewrite length_seq in Hn.
  exists ys, s'. split; [unfold Mbp.next_states_u; now rewrite Hd0|].
  split; [exact Hn|]. split; [exact Hlen|].
  unfold for_range.
  rewrite (for_each_ext _ (fun i acc => y <- f i ;; lift (setitem acc i y))).
  - fold (for_range n (fun i acc => y <- f i ;; lift (setitem acc i y))
                    (np_zeros n Mbp.dim_x)).
    rewrite fill_rows.
    + run_bind Hys. reflexivity.
    + intros i s1 y s2 E. unfold f in E.
      destruct (Hdyn x (vadd u (row du i)) false s1 Hx) as (y' & s3 & E' & L);
        [now rewrite length_vadd|].
      congruence.
  - intros i acc s1 Hi. apply in_seq in Hi.
    destruct (@perturb_ok _ _ _ _ _ i Hdu Hu ltac:(lia)) as (E1 & E2 & _).
    rewrite (lift_bind_ok _ _ E1), (lift_bind_ok _ _ E2). reflexivity.
Qed.

(** The loop that evaluates the dynamics at the perturbed pairs. *)
Lemma next_states_xu_loop (x u : vec) (n : nat) (dx du : ndarray)
    (s : Mbp.MbpState) :
  Mbp.dynamics_contract ->
  length x = Mbp.dim_x -> length u = Mbp.dim_u ->
  has_shape n Mbp.dim_x dx -> has_shape n Mbp.dim_u du ->
  exists ys s',
    Mbp.next_states_xu x u dx du s = Ok (ys, s') /\
    length ys = n /\ Forall (fun y => length y = Mbp.dim_x) ys /\
    for_range n
      (fun i x_next =>
         dx_i <- lift (getitem dx i) ;;
         x_i <- lift (ufunc1 sadd x dx_i) ;;
         du_i <- lift (getitem du i) ;;
         u_i <- lift (ufunc1 sadd u du_i) ;;
         y <- Mbp.dynamics x_i u_i false ;;
         lift (setitem x_next i y))
      (np_zeros n Mbp.dim_x) s
    = Ok (NdArray n Mbp.dim_x ys, s').
Proof.
  intros Hdyn Hx Hu Hdx Hdu. pose proof Hdx as (Hd0 & _).
  set (f := fun i =>
              Mbp.dynamics (vadd x (row dx i)) (vadd u (row du i)) false).
  destruct (@map_m_total _ _ _ f (fun y => length y = Mbp.dim_x) (seq 0 n))
    with (s := s) as (ys & s' & Hys & Hlen & Hn).
  { intros i s1 _. unfold f.
    destruct (Hdyn (vadd x (row dx i)) (vadd u (row du i)) false s1)
      as (y & s2 & E & L); [now rewrite length_vadd..|].
    now exists y, s2. }
  rewrite length_seq in Hn.
  exists ys, s'. split; [unfold Mbp.next_states_xu; now rewrite Hd0|].
  split; [exact Hn|]. split; [exact Hlen|].
  unfold for_range.
  rewrite (for_each_ext _ (fun i acc => y <- f i ;; lift (setitem acc i y))).
  - fold (for_range n (fun i acc => y <- f i ;; lift (setitem acc i y))
                    (np_zeros n Mbp.dim_x)).
    rewrite fill_rows.
    + run_bind Hys. reflexivity.
    + intros i s1 y s2 E. unfold f in E.
      destruct (Hdyn (vadd x (row dx i)) (vadd u (row du i)) false s1)
        as (y' & s3 & E' & L); [now rewrite length_vadd..|].
      congruence.
  - intros i acc s1 Hi. apply in_seq in Hi.
    destruct (@perturb_ok _ _ _ _ _ i Hdx Hx ltac:(lia)) as (E1 & E2 & _).
    destruct (@perturb_ok _ _ _ _ _ i Hdu Hu ltac:(lia)) as (E3 & E4 & _).
    rewrite (lift_bind_ok _ _ E1), (lift_bind_ok _ _ E2).
    rewrite (lift_bind_ok _ _ E3), (lift_bind_ok _ _ E4). reflexivity.
Qed.


Lemma has_shape_mean_jacobian (Js : list ndarray) (n : nat) :
  Forall (has_shape Mbp.dim_x (Mbp.dim_x + Mbp.dim_u)) Js ->
  has_shape Mbp.dim_x (Mbp.dim_x + Mbp.dim_u) (Mbp.mean_jacobian Js n).
Proof.
  intros H. apply has_shape_mdiv. apply has_shape_msum; [|assumption].
  apply has_shape_zeros.
Qed.

(** Writing the two blocks of [ABhat] in [calc_B_zero_order]. *)
Lemma write_blocks (ab1 solT : ndarray) :
  has_shape Mbp.dim_x (Mbp.dim_x + Mbp.dim_u) ab1 ->
  has_shape Mbp.dim_x Mbp.dim_u solT ->
  exists m,
    setblock (np_zeros Mbp.dim_x (Mbp.dim_x + Mbp.dim_u))
             0 Mbp.dim_x 0 Mbp.dim_x
             (getblock ab1 0 (shape0 ab1) 0 Mbp.dim_x) = Ok m /\
    shape0 m = Mbp.dim_x /\ shape1 m = Mbp.dim_x + Mbp.dim_u /\
    setblock m 0 (shape0 m) Mbp.dim_x (shape1 m) solT
    = Ok (hstack2 (Mbp.A_block ab1) solT).
Proof.
  intros (H0 & H1 & Hw) (T0 & T1 & Tw).
  assert (HA : has_shape Mbp.dim_x Mbp.dim_x (Mbp.A_block ab1)).
  { unfold Mbp.A_block. rewrite H0. apply has_shape_getblock; lia. }
  destruct HA as (A0 & A1 & Aw).
  eexists. split.
  { apply setblock_exact; cbn [np_zeros mtab shape0 shape1]; try lia.
    - fold (Mbp.A_block ab1). lia.
    - fold (Mbp.A_block ab1). lia. }
  cbn [np_zeros mtab shape0 shape1].
  split; [reflexivity|]. split; [reflexivity|].
  rewrite setblock_exact; cbn [np_zeros mtab shape0 shape1]; try lia.
  f_equal. rewrite hstack2_entries by (assumption || congruence).
  rewrite A0, A1, T1. apply mtab_ext. intros i j Hi Hj.
  rewrite entry_mtab by assumption.
  fold (Mbp.A_block ab1).
  cmp_cases; rewrite ?Nat.sub_0_r; reflexivity.
Qed.

(** A run of [calc_B_zero_order]. *)
Lemma calc_B_zero_order_run (x u : vec) (n : nat) (std_u : std)
    (s : Mbp.MbpState) :
  Mbp.dynamics_contract -> Mbp.jacobian_contract ->
  length x = Mbp.dim_x -> length u = Mbp.dim_u ->
  Mbp.std_ok std_u Mbp.dim_u ->
  exists x0 sa ab1 sb du sc ys sd,
    Mbp.dynamics x u true s = Ok (x0, sa) /\
    length x0 = Mbp.dim_x /\
    Mbp.calc_AB_first_order x u n std_u sa = Ok (ab1, sb) /\
    has_shape Mbp.dim_x (Mbp.dim_x + Mbp.dim_u) ab1 /\
    Mbp.with_random (np_random_normal s0 std_u n Mbp.dim_u) sb
      = Ok (du, sc) /\
    has_shape n Mbp.dim_u du /\
    Mbp.next_states_u x u du sc = Ok (ys, sd) /\
    length ys = n /\
    Mbp.calc_B_zero_order x u n std_u s
      = Ok (hstack2 (Mbp.A_block ab1)
              (transpose
                 (lstsq_solution du
                    (msub_row (NdArray n Mbp.dim_x ys) x0))),
            sd).
Proof.
  intros Hdyn Hjac Hx Hu Hstd.
  destruct (Hdyn x u true s Hx Hu) as (x0 & sa & Ex0 & Lx0).
  destruct (@calc_AB_first_order_run _ _ _ x u n std_u sa Hjac Hx Hu Hstd)
    as (du1 & s1 & Js & sb & _ & _ & _ & _ & HJs & Efo).
  pose proof (@has_shape_mean_jacobian Js n HJs) as Hab1.
  destruct (@draw_ok _ _ _ std_u n _ sb Hstd) as (du & sc & Edu & Hdu).
  destruct (@next_states_u_loop x u n du sc Hdyn Hx Hu Hdu)
    as (ys & sd & Eys & Lys & Fys & Eloop).
  pose proof (@wf_rows _ _ _ Lys Fys) as Hxn.
  pose proof (@ufunc2_sub_row _ _ _ _ _ Hxn Lx0) as Esub.
  pose proof (@has_shape_msub_row _ _ _ _ x0 Hxn) as (S0 & S1 & Sw).
  pose proof Hdu as (D0 & D1 & Dw).
  destruct (@np_linalg_lstsq_ok du
              (msub_row (NdArray n Mbp.dim_x ys) x0))
    as (Els & Hls); [congruence|].
  rewrite D1, S1 in Hls. destruct Hls as (L0 & L1 & _).
  destruct (@write_blocks (Mbp.mean_jacobian Js n)
              (transpose (lstsq_solution du
                 (msub_row (NdArray n Mbp.dim_x ys) x0))) Hab1)
    as (m & Em & M0 & M1 & Efin);
    [now apply has_shape_transpose|].
  exists x0, sa, (Mbp.mean_jacobian Js n), sb, du, sc, ys, sd.
  do 8 (split; [assumption|]).
  unfold Mbp.calc_B_zero_order. cbv zeta.
  run_bind Ex0. run_bind Efo.
  cbn [np_zeros mtab shape0].
  rewrite (lift_bind_ok _ _ Em).
  run_bind Edu. run_bind Eloop.
  rewrite (lift_bind_ok _ _ Esub), (lift_bind_ok _ _ Els).
  rewrite (lift_bind_ok _ _ Efin). reflexivity.
Qed.


(** Assembling the stacked system in [calc_AB_zero_order]. *)
Lemma stacked_system (n : nat) (dx du dxn : ndarray) (damp : num) :
  has_shape n Mbp.dim_x dx -> has_shape n Mbp.dim_u du ->
  has_shape n Mbp.dim_x dxn ->
  exists a1 a2,
    setblock (np_zeros (n + Mbp.dim_x + Mbp.dim_u) (Mbp.dim_x + Mbp.dim_u))
             0 n 0 Mbp.dim_x dx = Ok a1 /\
    setblock a1 0 n Mbp.dim_x (shape1 a1) du = Ok a2 /\
    setblock a2 n (shape0 a2) 0 (shape1 a2)
             (mscale (np_eye (Mbp.dim_x + Mbp.dim_u)
                             (Mbp.dim_x + Mbp.dim_u)) damp)
    = Ok (vstack2 (hstack2 dx du)
            (mscale (np_eye (Mbp.dim_x + Mbp.dim_u)
                            (Mbp.dim_x + Mbp.dim_u)) damp)) /\
    setblock (np_zeros (n + Mbp.dim_x + Mbp.dim_u) Mbp.dim_x)
             0 n 0
             (shape1 (np_zeros (n + Mbp.dim_x + Mbp.dim_u) Mbp.dim_x))
             dxn
    = Ok (vstack2 dxn (np_zeros (Mbp.dim_x + Mbp.dim_u) Mbp.dim_x)).
Proof.
  intros Hdx Hdu Hn.
  pose proof Hdx as (X0 & X1 & Xw). pose proof Hdu as (U0 & U1 & Uw).
  pose proof Hn as (N0 & N1 & Nw).
  pose proof (@has_shape_hstack2 _ _ _ _ _ _ Hdx Hdu) as (H0 & H1 & Hw).
  eexists. eexists. split.
  { apply setblock_exact; cbn [np_zeros mtab shape0 shape1]; lia. }
  split.
  { apply setblock_exact; cbn [np_zeros mtab shape0 shape1]; lia. }
  split.
  - rewrite setblock_exact;
      cbn [np_zeros np_eye mscale mtab shape0 shape1]; try lia.
    f_equal.
    rewrite vstack2_entries;
      [|assumption|apply has_shape_mtab|rewrite H1; reflexivity].
    rewrite H0, H1. cbn [np_eye mscale mtab shape0 shape1].
    rewrite <- Nat.add_assoc.
    apply mtab_ext. intros i j Hi Hj.
    rewrite !entry_mtab by lia.
    cmp_cases; rewrite ?Nat.sub_0_r;
      try (rewrite entry_hstack2 by (assumption || lia);
           rewrite X1; cmp_cases);
      reflexivity.
  - rewrite setblock_exact;
      cbn [np_zeros mtab shape0 shape1]; try lia.
    f_equal.
    rewrite vstack2_entries;
      [|assumption|apply has_shape_mtab|rewrite N1; reflexivity].
    rewrite N0, N1. cbn [np_zeros mtab shape0 shape1].
    rewrite <- Nat.add_assoc.
    apply mtab_ext. intros i j Hi Hj.
    cmp_cases; rewrite ?Nat.sub_0_r; unfold np_zeros;
      rewrite ?entry_mtab by lia; reflexivity.
Qed.

(** A run of [calc_AB_zero_order]. *)
Lemma calc_AB_zero_order_run (x u : vec) (n : nat) (std_u std_x : std)
    (damp : num) (s : Mbp.MbpState) :
  Mbp.dynamics_contract ->
  length x = Mbp.dim_x -> length u = Mbp.dim_u ->
  Mbp.std_ok std_u Mbp.dim_u -> Mbp.std_ok std_x Mbp.dim_x ->
  exists dx s1 du s2 x0 s3 ys s4,
    Mbp.with_random (np_random_normal s0 std_x n Mbp.dim_x) s
      = Ok (dx, s1) /\
    has_shape n Mbp.dim_x dx /\
    Mbp.with_random (np_random_normal s0 std_u n Mbp.dim_u) s1
      = Ok (du, s2) /\
    has_shape n Mbp.dim_u du /\
    Mbp.dynamics x u false s2 = Ok (x0, s3) /\
    length x0 = Mbp.dim_x /\
    Mbp.next_states_xu x u dx du s3 = Ok (ys, s4) /\
    length ys = n /\
    Forall (fun y => length y = Mbp.dim_x) ys /\
    Mbp.calc_AB_zero_order x u n std_u std_x damp s
      = Ok (transpose
              (lstsq_solution (Mbp.tikhonov_lhs dx du damp)
                              (Mbp.tikhonov_rhs ys x0)),
            s4).
Proof.
  intros Hdyn Hx Hu Hsu Hsx.
  destruct (@draw_ok _ _ _ std_x n _ s Hsx) as (dx & s1 & Edx & Hdx).
  destruct (@draw_ok _ _ _ std_u n _ s1 Hsu) as (du & s2 & Edu & Hdu).
  destruct (Hdyn x u false s2 Hx Hu) as (x0 & s3 & Ex0 & Lx0).
  destruct (@next_states_xu_loop x u n dx du s3 Hdyn Hx Hu Hdx Hdu)
    as (ys & s4 & Eys & Lys & Fys & Eloop).
  pose proof (@wf_rows _ _ _ Lys Fys) as Hxn.
  pose proof (@ufunc2_sub_row _ _ _ _ _ Hxn Lx0) as Esub.
  pose proof (@has_shape_msub_row _ _ _ _ x0 Hxn) as Hsub.
  destruct (@stacked_system n dx du _ damp Hdx Hdu Hsub)
    as (a1 & a2 & E1 & E2 & E3 & E4).
  exists dx, s1, du, s2, x0, s3, ys, s4.
  do 9 (split; [assumption|]).
  unfold Mbp.calc_AB_zero_order. cbv zeta.
  run_bind Edx. run_bind Edu. run_bind Ex0. run_bind Eloop.
  rewrite (lift_bind_ok _ _ Esub).
  rewrite (lift_bind_ok _ _ E1), (lift_bind_ok _ _ E2).
  rewrite (lift_bind_ok _ _ E3), (lift_bind_ok _ _ E4).
  unfold Mbp.tikhonov_lhs, Mbp.tikhonov_rhs. rewrite Lys.
  destruct (@np_linalg_lstsq_ok
              (vstack2 (hstack2 dx du)
                 (mscale (np_eye (Mbp.dim_x + Mbp.dim_u)
                                 (Mbp.dim_x + Mbp.dim_u)) damp))
              (vstack2 (msub_row (NdArray n Mbp.dim_x ys) x0)
                 (np_zeros (Mbp.dim_x + Mbp.dim_u) Mbp.dim_x)))
    as (Els & _).
  { destruct Hdx as (X0 & _). cbn [vstack2 hstack2 shape0 mscale np_eye
      np_zeros mtab msub_row]. now rewrite X0. }
  rewrite (lift_bind_ok _ _ Els). reflexivity.
Qed.

End ZeroOrder.

(* ------------------------------------------------------------------ *)
(** ** The example plant meets the contracts                           *)
(* ------------------------------------------------------------------ *)

Lemma drake4_dynamics_contract :
  @Mbp.dynamics_contract QcScalar Reference.numpy Fixture.drake4.
Proof.
  intros x u rg s Hx Hu.
  destruct x as [|x1 [|x2 [|x3 [|x4 [|]]]]]; try discriminate Hx.
  destruct u as [|u1 [|]]; try discriminate Hu.
  destruct s as [c ca t ta qo g].
  eexists. eexists. split; reflexivity.
Qed.

Lemma drake4_jacobian_contract :
  @Mbp.jacobian_contract QcScalar Reference.numpy Fixture.drake4.
Proof.
  intros x u s Hx Hu.
  destruct x as [|x1 [|x2 [|x3 [|x4 [|]]]]]; try discriminate Hx.
  destruct u as [|u1 [|]]; try discriminate Hu.
  destruct s as [c ca t ta qo g].
  destruct (@Mbp.jacobian_xu _ Reference.numpy Fixture.drake4
              [x1; x2; x3; x4] [u1]
              (Mbp.Build_MbpState c ca t ta qo g)) as [[J s']|e] eqn:E.
  - exists J, s'. split; [reflexivity|].
    injection E as <- _.
    split; [reflexivity|]. split; [reflexivity|].
    split; [reflexivity|]. repeat constructor.
  - discriminate E.
Qed.

Lemma drake4_linear_dynamics :
  @Mbp.linear_dynamics QcScalar Reference.numpy Fixture.drake4
    Fixture.a4 Fixture.b4.
Proof.
  intros x u rg s Hx Hu.
  destruct x as [|x1 [|x2 [|x3 [|x4 [|]]]]]; try discriminate Hx.
  destruct u as [|u1 [|]]; try discriminate Hu.
  destruct s as [c ca t ta qo g].
  destruct (@Mbp.dynamics _ Reference.numpy Fixture.drake4
              [x1; x2; x3; x4] [u1] rg
              (Mbp.Build_MbpState c ca t ta qo g)) as [[y s']|e] eqn:E.
  - exists s'. injection E as <- _. reflexivity.
  - discriminate E.
Qed.

Lemma Qc_square_nonneg (a : Qc) : Qcle (Q2Qc 0) (Qcmult a a).
Proof.
  unfold Qcle, Qcmult. cbn [this Q2Qc]. rewrite !Qred_correct.
  unfold Qle, Qmult. cbn [Qnum Qden]. rewrite Z.mul_1_r. cbn [Z.mul].
  apply Z.square_nonneg.
Qed.

Lemma Qc_laws : ScalarLaws QcScalar Qcle.
Proof.
  constructor.
  - exact Qcrt.
  - exact Qcle_refl.
  - exact Qcle_trans.
  - exact Qcle_antisym.
  - exact Qcplus_le_compat.
  - exact Qc_square_nonneg.
  - exact Qcmult_integral.
Qed.

(* ------------------------------------------------------------------ *)
(** ** The estimators against their descriptions                       *)
(* ------------------------------------------------------------------ *)

Section EstimatorClaims.
Context {F : Scalar} {NP : NumpyLib} {D : Mbp.Drake}.




End EstimatorClaims.

(* ------------------------------------------------------------------ *)
(** ** Shapes of the linearizations                                    *)
(* ------------------------------------------------------------------ *)

Section ShapeFacts.
Context {F : Scalar} {NP : NumpyLib} {D : Mbp.Drake}.

Lemma has_shape_getblock_gen (a : ndarray) (r0 r1 c0 c1 : nat) :
  r0 <= r1 -> r1 <= shape0 a -> c0 <= c1 -> c1 <= shape1 a ->
  has_shape (r1 - r0) (c1 - c0) (getblock a r0 r1 c0 c1).
Proof.
  intros Hr Hr1 Hc Hc1. unfold getblock, clip.
  replace (Nat.min (shape0 a) r0) with r0 by lia.
  replace (Nat.min (shape0 a) r1) with r1 by lia.
  replace (Nat.min (shape1 a) c0) with c0 by lia.
  replace (Nat.min (shape1 a) c1) with c1 by lia.
  replace (Nat.max r0 r1) with r1 by lia.
  replace (Nat.max c0 c1) with c1 by lia.
  apply has_shape_mtab.
Qed.

Lemma linearization_shape_of (ab : ndarray) :
  has_shape Mbp.dim_x (Mbp.dim_x + Mbp.dim_u) ab ->
  Mbp.linearization_shape ab.
Proof.
  intros H. pose proof H as (H0 & H1 & _). split; [exact H|]. split.
  - unfold Mbp.A_block. rewrite H0. apply has_shape_getblock; lia.
  - unfold Mbp.B_block. rewrite H0, H1.
    pose proof (@has_shape_getblock_gen ab 0 Mbp.dim_x Mbp.dim_x
                  (Mbp.dim_x + Mbp.dim_u)) as G.
    rewrite Nat.sub_0_r in G.
    replace (Mbp.dim_x + Mbp.dim_u - Mbp.dim_x) with Mbp.dim_u in G by lia.
    apply G; lia.
Qed.

Lemma setitem3_ok (acc : ndarray3) (n i : nat) (ab : ndarray) :
  Mbp.batch_shape n acc -> i < n ->
  has_shape Mbp.dim_x (Mbp.dim_x + Mbp.dim_u) ab ->
  exists acc', setitem3 acc i ab = Ok acc' /\ Mbp.batch_shape n acc'.
Proof.
  intros (B0 & B1 & B2 & BL & BF) Hi (A0 & A1 & Aw).
  unfold setitem3. rewrite B0.
  destruct (Nat.ltb_spec i n) as [_|]; [|lia].
  rewrite B1, B2.
  rewrite setblock_exact; cbn [np_zeros mtab shape0 shape1]; try lia.
  rewrite result_bind_ok. eexists. split; [reflexivity|].
  repeat split; cbn [shape3_0 shape3_1 shape3_2 slabs]; try reflexivity.
  - rewrite length_app, length_firstn, length_cons, length_skipn. lia.
  - destruct (Forall_firstn_skipn i BF) as [Hf _].
    destruct (Forall_firstn_skipn (S i) BF) as [_ Hs].
    apply Forall_app. split; [exact Hf|]. constructor; [|exact Hs].
    apply linearization_shape_of, has_shape_mtab.
Qed.

Lemma batch_shape_zeros (n : nat) :
  Mbp.batch_shape n (np_zeros3 n Mbp.dim_x (Mbp.dim_x + Mbp.dim_u)).
Proof.
  repeat split; cbn [np_zeros3 shape3_0 shape3_1 shape3_2 slabs].
  - apply repeat_length.
  - apply Forall_forall. intros m Hm. apply repeat_spec in Hm. subst m.
    apply linearization_shape_of, has_shape_zeros.
Qed.

(** The loop of [calc_AB_batch] for an estimator that returns
    linearizations. *)
Lemma batch_fill (calc : vec -> vec -> M Mbp.MbpState ndarray)
    (xs us : ndarray) (n : nat) :
  has_shape n Mbp.dim_x xs -> has_shape n Mbp.dim_u us ->
  (forall x u s, length x = Mbp.dim_x -> length u = Mbp.dim_u ->
     exists ab s', calc x u s = Ok (ab, s') /\
                   has_shape Mbp.dim_x (Mbp.dim_x + Mbp.dim_u) ab) ->
  forall (l : list nat) (acc : ndarray3) (s : Mbp.MbpState),
    (forall i, In i l -> i < n) -> Mbp.batch_shape n acc ->
    exists out s',
      for_each
        (fun i ABhat_list =>
           x_i <- lift (getitem xs i) ;;
           u_i <- lift (getitem us i) ;;
           AB <- calc x_i u_i ;;
           lift (setitem3 ABhat_list i AB))
        l acc s = Ok (out, s') /\
      Mbp.batch_shape n out.
Proof.
  intros Hxs Hus Hcalc. pose proof Hxs as (X0 & X1 & Xw).
  pose proof Hus as (U0 & U1 & Uw).
  induction l as [|i l IH]; intros acc s Hl Hacc.
  - exists acc, s. now split.
  - assert (Hi : i < n) by (apply Hl; now left).
    destruct (Hcalc (row xs i) (row us i) s) as (ab & s1 & E & Hab).
    { rewrite <- X1. apply wf_row_length; [assumption|lia]. }
    { rewrite <- U1. apply wf_row_length; [assumption|lia]. }
    destruct (@setitem3_ok acc n i ab Hacc Hi Hab) as (acc' & E' & Hacc').
    destruct (IH acc' s1 (fun j Hj => Hl j (or_intror Hj)) Hacc')
      as (out & s' & Eout & Hout).
    exists out, s'. split; [|exact Hout].
    assert (Ebody :
      (x_i <- lift (getitem xs i) ;;
       u_i <- lift (getitem us i) ;;
       AB <- calc x_i u_i ;;
       lift (setitem3 acc i AB)) s = Ok (acc', s1)).
    { rewrite (lift_bind_ok _ _ (@getitem_ok _ xs i ltac:(lia))).
      rewrite (lift_bind_ok _ _ (@getitem_ok _ us i ltac:(lia))).
      run_bind E. now apply lift_ok. }
    cbn [for_each]. run_bind Ebody. exact Eout.
Qed.

End ShapeFacts.

Section ShapeClaim.
Context {F : Scalar} {NP : NumpyLib} {D : Mbp.Drake}.

Lemma calc_AB_first_order_total (n : nat) (std_u : std) :
  Mbp.jacobian_contract -> Mbp.std_ok std_u Mbp.dim_u ->
  forall x u s, length x = Mbp.dim_x -> length u = Mbp.dim_u ->
    exists ab s', Mbp.calc_AB_first_order x u n std_u s = Ok (ab, s') /\
                  has_shape Mbp.dim_x (Mbp.dim_x + Mbp.dim_u) ab.
Proof.
  intros Hjac Hstd x u s Hx Hu.
  destruct (@calc_AB_first_order_run _ _ _ x u n std_u s Hjac Hx Hu Hstd)
    as (du & s1 & Js & s2 & _ & _ & _ & _ & HJs & E).
  exists (Mbp.mean_jacobian Js n), s2. split; [exact E|].
  now apply has_shape_mean_jacobian.
Qed.

Lemma calc_B_zero_order_total (n : nat) (std_u : std) :
  Mbp.dynamics_contract -> Mbp.jacobian_contract ->
  Mbp.std_ok std_u Mbp.dim_u ->
  forall x u s, length x = Mbp.dim_x -> length u = Mbp.dim_u ->
    exists ab s', Mbp.calc_B_zero_order x u n std_u s = Ok (ab, s') /\
                  has_shape Mbp.dim_x (Mbp.dim_x + Mbp.dim_u) ab.
Proof.
  intros Hdyn Hjac Hstd x u s Hx Hu.
  destruct (@calc_B_zero_order_run _ _ _ x u n std_u s Hdyn Hjac Hx Hu Hstd)
    as (x0 & sa & ab1 & sb & du & sc & ys & sd &
        _ & _ & _ & Hab & _ & Hdu & _ & _ & E).
  pose proof Hdu as (D0 & D1 & _). pose proof Hab as (A0 & A1 & _).
  eexists. exists sd. split; [exact E|].
  apply has_shape_hstack2.
  - unfold Mbp.A_block. rewrite A0. apply has_shape_getblock; lia.
  - apply has_shape_transpose; cbn [lstsq_solution msub_row mtab shape0
      shape1]; [exact D1|reflexivity].
Qed.

Lemma calc_AB_zero_order_total (n : nat) (std_u std_x : std) (damp : num) :
  Mbp.dynamics_contract ->
  Mbp.std_ok std_u Mbp.dim_u -> Mbp.std_ok std_x Mbp.dim_x ->
  forall x u s, length x = Mbp.dim_x -> length u = Mbp.dim_u ->
    exists ab s',
      Mbp.calc_AB_zero_order x u n std_u std_x damp s = Ok (ab, s') /\
      has_shape Mbp.dim_x (Mbp.dim_x + Mbp.dim_u) ab.
Proof.
  intros Hdyn Hsu Hsx x u s Hx Hu.
  destruct (@calc_AB_zero_order_run _ _ _ x u n std_u std_x damp s
              Hdyn Hx Hu Hsu Hsx)
    as (dx & s1 & du & s2 & x0 & s3 & ys & s4 &
        _ & Hdx & _ & Hdu & _ & _ & _ & _ & _ & E).
  pose proof Hdx as (_ & X1 & _). pose proof Hdu as (_ & U1 & _).
  eexists. exists s4. split; [exact E|].
  apply has_shape_transpose;
    cbn [lstsq_solution Mbp.tikhonov_lhs Mbp.tikhonov_rhs vstack2 hstack2
         msub_row mtab shape0 shape1]; [now rewrite X1, U1|reflexivity].
Qed.

Lemma calc_AB_exact_total :
  Mbp.jacobian_contract ->
  forall x u s, length x = Mbp.dim_x -> length u = Mbp.dim_u ->
    exists ab s', Mbp.calc_AB_exact x u s = Ok (ab, s') /\
                  has_shape Mbp.dim_x (Mbp.dim_x + Mbp.dim_u) ab.
Proof. intros Hjac x u s Hx Hu. exact (Hjac x u s Hx Hu). Qed.

Lemma calc_AB_batch_total (xs us : ndarray) (k n : nat) (std_u : std)
    (mode : string) (s : Mbp.MbpState) :
  Mbp.dynamics_contract -> Mbp.jacobian_contract ->
  Mbp.std_ok std_u Mbp.dim_u ->
  has_shape k Mbp.dim_x xs -> has_shape k Mbp.dim_u us ->
  exists out s',
    Mbp.calc_AB_batch xs us n std_u mode s = Ok (out, s') /\
    Mbp.batch_shape k out.
Proof.
  intros Hdyn Hjac Hstd Hxs Hus. pose proof Hxs as (X0 & _).
  unfold Mbp.calc_AB_batch, for_range. rewrite X0.
  assert (Hseq : forall i, In i (seq 0 k) -> i < k)
    by (intros i Hi; apply in_seq in Hi; lia).
  destruct (String.eqb mode "first_order").
  { apply (@batch_fill _ _ _ _ xs us k Hxs Hus
             (@calc_AB_first_order_total n std_u Hjac Hstd));
      [exact Hseq|apply batch_shape_zeros]. }
  destruct (String.eqb mode "zero_order_B").
  { apply (@batch_fill _ _ _ _ xs us k Hxs Hus
             (@calc_B_zero_order_total n std_u Hdyn Hjac Hstd));
      [exact Hseq|apply batch_shape_zeros]. }
  destruct (String.eqb mode "zero_order_AB").
  { apply (@batch_fill _ _ _ _ xs us k Hxs Hus
             (@calc_AB_zero_order_total n std_u Mbp.default_std_x
                Mbp.default_damp Hdyn Hstd I));
      [exact Hseq|apply batch_shape_zeros]. }
  destruct (String.eqb mode "exact").
  { apply (@batch_fill _ _ _ _ xs us k Hxs Hus
             (@calc_AB_exact_total Hjac));
      [exact Hseq|apply batch_shape_zeros]. }
  eexists. eexists. split; [reflexivity|apply batch_shape_zeros].
Qed.


End ShapeClaim.

(* ------------------------------------------------------------------ *)
(** ** Exact arithmetic: sums of squares and dot products              *)
(* ------------------------------------------------------------------ *)

Section Algebra.
Context {F : Scalar} (sle : num -> num -> Prop) (L : ScalarLaws F sle).

Add Ring scalar_ring : (sl_ring L).

Lemma smul_0_r (a : num) : smul a s0 = s0.
Proof. ring. Qed.

Lemma ssub_eq (a b : num) : ssub a b = s0 -> a = b.
Proof.
  intros H. replace a with (sadd (ssub a b) b) by ring. rewrite H. ring.
Qed.

Lemma square_zero (d : num) : smul d d = s0 -> d = s0.
Proof. intros H. now destruct (sl_integral L _ _ H). Qed.

Lemma sum_zero_l (a b : num) :
  sle s0 a -> sle s0 b -> sadd a b = s0 -> a = s0 /\ b = s0.
Proof.
  intros Ha Hb H.
  assert (Ea : a = s0).
  { apply (sl_antisym L); [|exact Ha].
    rewrite <- H. replace a with (sadd a s0) at 1 by ring.
    apply (sl_add L); [apply (sl_refl L)|exact Hb]. }
  split; [exact Ea|]. rewrite Ea in H. rewrite <- H. ring.
Qed.

Lemma vsum_nonneg (l : vec) : Forall (sle s0) l -> sle s0 (vsum l).
Proof.
  induction 1 as [|a l Ha _ IH]; simpl.
  - apply (sl_refl L).
  - replace s0 with (sadd s0 s0) by ring. now apply (sl_add L).
Qed.

Lemma vsum_zero_inv (l : vec) :
  Forall (sle s0) l -> vsum l = s0 -> Forall (fun a => a = s0) l.
Proof.
  induction 1 as [|a l Ha Hl IH]; simpl; intros H.
  - constructor.
  - destruct (sum_zero_l Ha (vsum_nonneg Hl) H) as [E1 E2].
    constructor; [exact E1|now apply IH].
Qed.

Lemma vsum_all_zero (l : vec) : Forall (fun a => a = s0) l -> vsum l = s0.
Proof.
  induction 1 as [|a l Ha _ IH]; simpl; [reflexivity|].
  rewrite Ha, IH. ring.
Qed.

(** The terms of a residual, as a list indexed by [(i, j)]. *)
Lemma residual_terms (a b x : ndarray) (P : num -> Prop) :
  Forall P
    (flat_map
       (fun i =>
          map (fun j =>
                 let d := ssub (dot (row a i) (col x j)) (entry b i j) in
                 smul d d)
              (seq 0 (shape1 b)))
       (seq 0 (shape0 a)))
  <-> (forall i j, i < shape0 a -> j < shape1 b ->
         P (let d := ssub (dot (row a i) (col x j)) (entry b i j) in
            smul d d)).
Proof.
  rewrite Forall_forall. split.
  - intros H i j Hi Hj. apply H. apply in_flat_map.
    exists i. split; [apply in_seq; lia|].
    apply in_map_iff. exists j. split; [reflexivity|apply in_seq; lia].
  - intros H t Ht. apply in_flat_map in Ht. destruct Ht as (i & Hi & Ht).
    apply in_map_iff in Ht. destruct Ht as (j & <- & Hj).
    apply in_seq in Hi, Hj. apply H; lia.
Qed.

Lemma residual_nonneg (a b x : ndarray) : sle s0 (residual a b x).
Proof.
  unfold residual. apply vsum_nonneg. apply residual_terms.
  intros i j _ _. apply (sl_square L).
Qed.

Lemma residual_zero_of_solution (a b x : ndarray) :
  (forall i j, i < shape0 a -> j < shape1 b ->
     dot (row a i) (col x j) = entry b i j) ->
  residual a b x = s0.
Proof.
  intros H. unfold residual. apply vsum_all_zero. apply residual_terms.
  intros i j Hi Hj. cbv zeta. rewrite H by assumption. ring.
Qed.

Lemma solution_of_residual_zero (a b x : ndarray) :
  residual a b x = s0 ->
  forall i j, i < shape0 a -> j < shape1 b ->
    dot (row a i) (col x j) = entry b i j.
Proof.
  intros H i j Hi Hj. unfold residual in H.
  apply vsum_zero_inv in H.
  - apply (proj1 (residual_terms a b x (fun t => t = s0))) with (i := i)
      (j := j) in H; [|assumption..].
    cbv zeta in H. now apply ssub_eq, square_zero.
  - apply residual_terms. intros. apply (sl_square L).
Qed.

(** A least-squares solution of a system that has an exact solution is
    an exact solution. *)
Lemma least_squares_of_consistent (a b x m : ndarray) :
  is_least_squares sle a b x ->
  has_shape (shape1 a) (shape1 b) m ->
  (forall i j, i < shape0 a -> j < shape1 b ->
     dot (row a i) (col m j) = entry b i j) ->
  forall i j, i < shape0 a -> j < shape1 b ->
    dot (row a i) (col x j) = entry b i j.
Proof.
  intros [_ Hmin] Hm Hsol. apply solution_of_residual_zero.
  apply (sl_antisym L); [|apply residual_nonneg].
  rewrite <- (residual_zero_of_solution a b m Hsol). now apply Hmin.
Qed.


Lemma dot_cons (a b : num) (v w : vec) :
  dot (a :: v) (b :: w) = sadd (smul a b) (dot v w).
Proof. reflexivity. Qed.

Lemma dot_nil_r (v : vec) : dot v [] = s0.
Proof. now destruct v. Qed.

Lemma dot_comm (v w : vec) : dot v w = dot w v.
Proof.
  revert w. induction v as [|a v IH]; intros [|b w];
    try reflexivity.
  rewrite !dot_cons, IH. ring.
Qed.

Lemma dot_app (v1 v2 w1 w2 : vec) :
  length v1 = length w1 ->
  dot (v1 ++ v2) (w1 ++ w2) = sadd (dot v1 w1) (dot v2 w2).
Proof.
  revert w1. induction v1 as [|a v1 IH]; intros [|b w1] H;
    try discriminate H.
  - cbn [app]. change (dot [] []) with s0. ring.
  - cbn [app]. rewrite !dot_cons, IH by (simpl in H; lia). ring.
Qed.

Lemma vtab_S (n : nat) (f : nat -> num) :
  vtab (S n) f = f 0 :: vtab n (fun i => f (S i)).
Proof.
  unfold vtab. cbn [seq map]. f_equal.
  rewrite <- seq_shift, map_map. reflexivity.
Qed.

Lemma vadd_cons (a b : num) (v w : vec) :
  vadd (a :: v) (b :: w) = sadd a b :: vadd v w.
Proof. unfold vadd. cbn [length]. now rewrite vtab_S. Qed.

Lemma vsub_cons (a b : num) (v w : vec) :
  vsub (a :: v) (b :: w) = ssub a b :: vsub v w.
Proof. unfold vsub. cbn [length]. now rewrite vtab_S. Qed.

Lemma dot_vadd_r (r v w : vec) :
  length v = length w ->
  dot r (vadd v w) = sadd (dot r v) (dot r w).
Proof.
  revert v w. induction r as [|a r IH]; intros [|b v] [|c w] H;
    try discriminate H; try (cbn; ring).
  rewrite vadd_cons, !dot_cons, IH by (simpl in H; lia). ring.
Qed.

Lemma dot_vsub_r (r v w : vec) :
  length v = length w ->
  dot r (vsub v w) = ssub (dot r v) (dot r w).
Proof.
  revert v w. induction r as [|a r IH]; intros [|b v] [|c w] H;
    try discriminate H; try (cbn; ring).
  rewrite vsub_cons, !dot_cons, IH by (simpl in H; lia). ring.
Qed.

Lemma dot_zero_l (r v : vec) :
  Forall (fun a => a = s0) r -> dot r v = s0.
Proof.
  intros H. revert v. induction H as [|a r Ha _ IH]; intros [|b v];
    try reflexivity.
  rewrite dot_cons, IH, Ha. ring.
Qed.

Lemma vsub_zero_eq (v w : vec) :
  length v = length w -> vsub v w = np_zeros1 (length v) -> v = w.
Proof.
  revert w. induction v as [|a v IH]; intros [|b w] H E;
    try discriminate H; [reflexivity|].
  rewrite vsub_cons in E. unfold np_zeros1 in E. cbn [length] in E.
  rewrite vtab_S in E. injection E as E1 E2.
  f_equal; [now apply ssub_eq|].
  apply IH; [simpl in H; lia|exact E2].
Qed.

End Algebra.

(* ------------------------------------------------------------------ *)
(** ** Recovery of linear dynamics                                     *)
(* ------------------------------------------------------------------ *)

Section DrawInversion.
Context {F : Scalar} {NP : NumpyLib} {D : Mbp.Drake}.

Lemma draw_inv (scale : std) (r c : nat) (s s' : Mbp.MbpState)
    (d : ndarray) :
  Mbp.with_random (np_random_normal s0 scale r c) s = Ok (d, s') ->
  Mbp.std_ok scale c /\ has_shape r c d.
Proof.
  intros H.
  assert (Hstd : Mbp.std_ok scale c).
  { unfold Mbp.with_random, np_random_normal in H.
    destruct scale as [sc|v]; [exact I|]. simpl.
    destruct (Nat.eqb_spec (length v) c) as [E|_]; [now left|].
    destruct (Nat.eqb_spec (length v) 1) as [E|_]; [now right|].
    discriminate H. }
  split; [exact Hstd|].
  destruct (@draw_ok _ _ _ scale r c s Hstd) as (d' & s1 & E & Hd).
  rewrite E in H. now injection H as <- _.
Qed.

Lemma map_m_values {S I A : Type} (f : I -> M S A) (g : I -> A)
    (l : list I) :
  (forall i s, In i l -> exists s', f i s = Ok (g i, s')) ->
  forall s ys s', map_m f l s = Ok (ys, s') -> ys = map g l.
Proof.
  induction l as [|i l IH]; intros Hf s ys s' H.
  - cbn in H. now injection H as <- _.
  - cbn [map_m] in H. bind_inv H. bind_inv H.
    cbn in H. injection H as <- _.
    destruct (Hf i s (or_introl eq_refl)) as (s1 & E1).
    rewrite E1 in E. injection E as <- <-.
    cbn [map]. f_equal.
    eapply IH; [|exact E0]. intros j s2 Hj. apply Hf. now right.
Qed.

End DrawInversion.

Section Recovery.
Context {F : Scalar} {NP : NumpyLib} {D : Mbp.Drake}.
Context (sle : num -> num -> Prop) (L : ScalarLaws F sle).

Add Ring recovery_ring : (sl_ring L).

Variables (A B dx du : ndarray) (x u : vec) (n : nat).
Hypothesis HA : has_shape Mbp.dim_x Mbp.dim_x A.
Hypothesis HB : has_shape Mbp.dim_x Mbp.dim_u B.
Hypothesis Hdx : has_shape n Mbp.dim_x dx.
Hypothesis Hdu : has_shape n Mbp.dim_u du.
Hypothesis Hx : length x = Mbp.dim_x.
Hypothesis Hu : length u = Mbp.dim_u.

(** The next states of the samples and of the nominal pair. *)
#[local] Abbreviation fs :=
  (map (fun i => Mbp.linear_step A B (vadd x (row dx i)) (vadd u (row du i)))
       (seq 0 n)).
#[local] Abbreviation fx := (Mbp.linear_step A B x u).

Lemma length_matvec (a : ndarray) (v : vec) :
  wf a -> length (matvec a v) = shape0 a.
Proof. intros [H _]. unfold matvec. now rewrite length_map. Qed.

Lemma vget_matvec (a : ndarray) (v : vec) (j : nat) :
  wf a -> j < shape0 a -> vget (matvec a v) j = dot (row a j) v.
Proof.
  intros [H _] Hj. unfold vget, matvec, row.
  rewrite (nth_indep _ s0 (dot [] v)) by (rewrite length_map; lia).
  apply (map_nth (fun r => dot r v)).
Qed.

Lemma vget_linear_step (x' u' : vec) (j : nat) :
  j < Mbp.dim_x ->
  vget (Mbp.linear_step A B x' u') j
  = sadd (dot (row A j) x') (dot (row B j) u').
Proof.
  intros Hj. destruct HA as (A0 & _ & Aw). destruct HB as (B0 & _ & Bw).
  unfold Mbp.linear_step, vadd.
  rewrite length_matvec, A0 by assumption.
  rewrite vget_vtab by assumption.
  now rewrite !vget_matvec by (assumption || lia).
Qed.

Lemma length_linear_step (x' u' : vec) :
  length (Mbp.linear_step A B x' u') = Mbp.dim_x.
Proof.
  destruct HA as (A0 & _ & Aw). unfold Mbp.linear_step.
  now rewrite length_vadd, length_matvec.
Qed.

Lemma has_shape_fs : has_shape n Mbp.dim_x (NdArray n Mbp.dim_x fs).
Proof.
  apply wf_rows.
  - now rewrite length_map, length_seq.
  - apply Forall_forall. intros y Hy.
    apply in_map_iff in Hy. destruct Hy as (i & <- & _).
    apply length_linear_step.
Qed.

(** Entries of the right-hand side. *)
Lemma rhs_top (i j : nat) :
  i < n -> j < Mbp.dim_x ->
  entry (Mbp.tikhonov_rhs fs fx) i j
  = sadd (dot (row dx i) (row A j)) (dot (row du i) (row B j)).
Proof.
  intros Hi Hj. unfold Mbp.tikhonov_rhs.
  assert (Lfs : length fs = n) by now rewrite length_map, length_seq.
  rewrite Lfs.
  pose proof (@has_shape_msub_row _ _ _ _ fx has_shape_fs) as (S0 & S1 & Sw).
  rewrite vstack2_entries;
    [|assumption|apply has_shape_mtab|now rewrite S1].
  rewrite S0, S1. rewrite entry_mtab by lia.
  destruct (Nat.ltb_spec i n) as [_|]; [|lia].
  unfold msub_row. cbn [shape0 shape1]. rewrite entry_mtab by assumption.
  unfold entry at 1. cbn [rowsof].
  rewrite nth_map_seq by assumption.
  change (nth j ?v s0) with (vget v j).
  rewrite !vget_linear_step by assumption.
  destruct Hdx as (X0 & X1 & Xw). destruct Hdu as (U0 & U1 & Uw).
  rewrite !dot_vadd_r with (L := L).
  - rewrite (dot_comm L (row dx i)), (dot_comm L (row du i)). ring.
  - rewrite Hu, <- U1. symmetry. apply wf_row_length; [assumption|lia].
  - rewrite Hx, <- X1. symmetry. apply wf_row_length; [assumption|lia].
Qed.

Lemma rhs_bottom (i j : nat) :
  n <= i -> i < n + (Mbp.dim_x + Mbp.dim_u) -> j < Mbp.dim_x ->
  entry (Mbp.tikhonov_rhs fs fx) i j = s0.
Proof.
  intros Hi Hi' Hj. unfold Mbp.tikhonov_rhs.
  assert (Lfs : length fs = n) by now rewrite length_map, length_seq.
  rewrite Lfs.
  pose proof (@has_shape_msub_row _ _ _ _ fx has_shape_fs) as (S0 & S1 & Sw).
  rewrite vstack2_entries;
    [|assumption|apply has_shape_mtab|now rewrite S1].
  rewrite S0, S1. cbn [np_zeros mtab shape0]. rewrite entry_mtab by lia.
  destruct (Nat.ltb_spec i n) as [|_]; [lia|].
  apply all_zero_np_zeros.
Qed.

(** Rows of the left-hand side without damping. *)
Lemma lhs_top (damp : num) (i : nat) :
  i < n -> row (Mbp.tikhonov_lhs dx du damp) i = row dx i ++ row du i.
Proof.
  intros Hi. destruct Hdx as (X0 & _).
  unfold Mbp.tikhonov_lhs, vstack2, hstack2, row. cbn [rowsof].
  rewrite X0, app_nth1 by (rewrite length_map, length_seq; lia).
  exact (nth_map_seq (fun k => nth k (rowsof dx) [] ++ nth k (rowsof du) [])
                     [] Hi).
Qed.

Lemma lhs_bottom (i : nat) :
  n <= i -> i < n + (Mbp.dim_x + Mbp.dim_u) ->
  Forall (fun a => a = s0) (row (Mbp.tikhonov_lhs dx du s0) i).
Proof.
  intros Hi Hi'. destruct Hdx as (X0 & _).
  unfold Mbp.tikhonov_lhs, vstack2, hstack2, row. cbn [rowsof].
  rewrite X0, app_nth2 by (rewrite length_map, length_seq; lia).
  rewrite length_map, length_seq.
  change (nth (i - n) (rowsof (mscale ?e s0)) [])
    with (row (mscale e s0) (i - n)).
  unfold mscale. cbn [np_eye mtab shape0 shape1].
  rewrite row_mtab by lia.
  apply Forall_forall. intros a Ha. unfold vtab in Ha.
  apply in_map_iff in Ha. destruct Ha as (j & <- & _). ring.
Qed.

(** Columns of the transpose of [[A, B]]. *)
Lemma col_transpose_AB (j : nat) :
  j < Mbp.dim_x ->
  col (transpose (hstack2 A B)) j = row A j ++ row B j.
Proof.
  intros Hj. destruct HA as (A0 & A1 & Aw). destruct HB as (B0 & B1 & Bw).
  pose proof (@has_shape_hstack2 _ _ _ _ _ _ HA HB) as (H0 & H1 & Hw).
  assert (Hrow : row (hstack2 A B) j = row A j ++ row B j).
  { unfold hstack2, row. cbn [rowsof]. rewrite A0.
    exact (nth_map_seq (fun k => nth k (rowsof A) [] ++ nth k (rowsof B) [])
                       [] Hj). }
  rewrite <- Hrow. rewrite (vtab_eta (row (hstack2 A B) j)).
  rewrite wf_row_length by (assumption || lia).
  unfold col, transpose. cbn [mtab shape0 shape1].
  apply vtab_ext. intros k Hk.
  rewrite entry_mtab by lia. reflexivity.
Qed.

(** The transpose of [[A, B]] solves the undamped system exactly. *)
Lemma transpose_AB_solves (i j : nat) :
  i < shape0 (Mbp.tikhonov_lhs dx du s0) ->
  j < shape1 (Mbp.tikhonov_rhs fs fx) ->
  dot (row (Mbp.tikhonov_lhs dx du s0) i) (col (transpose (hstack2 A B)) j)
  = entry (Mbp.tikhonov_rhs fs fx) i j.
Proof.
  destruct HA as (A0 & A1 & Aw). destruct Hdx as (X0 & X1 & Xw).
  cbn [Mbp.tikhonov_lhs Mbp.tikhonov_rhs vstack2 hstack2 mscale np_eye mtab
       msub_row shape0 shape1].
  rewrite X0. intros Hi Hj.
  destruct (Nat.lt_ge_cases i n) as [Hlt|Hge].
  - rewrite lhs_top, col_transpose_AB, rhs_top by assumption.
    apply (dot_app L). rewrite !wf_row_length by (assumption || lia).
    congruence.
  - rewrite rhs_bottom by assumption.
    apply (dot_zero_l L). now apply lhs_bottom.
Qed.


Lemma full_rank_kernel (v : vec) :
  full_column_rank (hstack2 dx du) ->
  length v = Mbp.dim_x + Mbp.dim_u ->
  (forall i, i < n -> dot (row dx i ++ row du i) v = s0) ->
  v = np_zeros1 (Mbp.dim_x + Mbp.dim_u).
Proof.
  intros Hrank Hv Hker.
  destruct Hdx as (X0 & X1 & Xw). destruct Hdu as (U0 & U1 & Uw).
  specialize (Hrank v). cbn [hstack2 shape0 shape1] in Hrank.
  rewrite X0, X1, U1 in Hrank. apply Hrank; [exact Hv|].
  unfold matvec, hstack2, np_zeros1, vtab. cbn [rowsof].
  rewrite map_map, X0.
  apply map_ext_in. intros i Hi. apply in_seq in Hi. apply Hker. lia.
Qed.

(** With full column rank, the least-squares solution of the undamped
    system is the transpose of [[A, B]]. *)
Lemma lstsq_is_transpose_AB :
  full_column_rank (hstack2 dx du) ->
  is_least_squares sle (Mbp.tikhonov_lhs dx du s0) (Mbp.tikhonov_rhs fs fx)
    (lstsq_solution (Mbp.tikhonov_lhs dx du s0) (Mbp.tikhonov_rhs fs fx)) ->
  lstsq_solution (Mbp.tikhonov_lhs dx du s0) (Mbp.tikhonov_rhs fs fx)
  = transpose (hstack2 A B).
Proof.
  intros Hrank Hls.
  pose proof HA as (A0 & A1 & Aw). pose proof HB as (B0 & B1 & Bw).
  pose proof Hdx as (X0 & X1 & Xw). pose proof Hdu as (U0 & U1 & Uw).
  pose proof (@has_shape_hstack2 _ _ _ _ _ _ HA HB) as (H0 & H1 & Hw).
  set (S := Mbp.tikhonov_lhs dx du s0) in *.
  set (Dm := Mbp.tikhonov_rhs fs fx) in *.
  set (X := lstsq_solution S Dm) in *.
  set (Mt := transpose (hstack2 A B)).
  assert (S0 : shape0 S = n + (Mbp.dim_x + Mbp.dim_u))
    by (unfold S; cbn [Mbp.tikhonov_lhs vstack2 hstack2 mscale np_eye mtab
                        shape0]; now rewrite X0).
  assert (S1 : shape1 S = Mbp.dim_x + Mbp.dim_u)
    by (unfold S; cbn [Mbp.tikhonov_lhs vstack2 hstack2 shape1];
        now rewrite X1, U1).
  assert (D1 : shape1 Dm = Mbp.dim_x) by reflexivity.
  assert (HX : has_shape (Mbp.dim_x + Mbp.dim_u) Mbp.dim_x X)
    by (rewrite <- S1, <- D1; apply has_shape_mtab).
  assert (HM : has_shape (Mbp.dim_x + Mbp.dim_u) Mbp.dim_x Mt)
    by (apply has_shape_transpose; assumption).
  pose proof HX as (XS0 & XS1 & XSw). pose proof HM as (M0 & M1 & Mw).
  assert (Hsol : forall i j, i < shape0 S -> j < shape1 Dm ->
                   dot (row S i) (col X j) = entry Dm i j).
  { apply (least_squares_of_consistent L Hls (m := Mt)).
    - now rewrite S1, D1.
    - apply transpose_AB_solves. }
  assert (Hcol : forall j, j < Mbp.dim_x -> col X j = col Mt j).
  { intros j Hj.
    apply (vsub_zero_eq L);
      [unfold col; now rewrite !length_vtab, XS0, M0|].
    unfold col at 3. rewrite length_vtab, XS0.
    apply full_rank_kernel; [exact Hrank| |].
    - unfold vsub, col. now rewrite !length_vtab.
    - intros i Hi. rewrite <- (lhs_top s0 Hi). fold S.
      rewrite (dot_vsub_r L)
        by (unfold col; now rewrite !length_vtab, XS0, M0).
      rewrite Hsol by (rewrite ?S0, ?D1; lia).
      unfold Mt, S, Dm.
      rewrite transpose_AB_solves by (fold S; fold Dm; rewrite ?S0, ?D1; lia).
      ring. }
  apply ndarray_ext; try assumption; try congruence.
  intros k j Hk Hj. rewrite XS0 in Hk. rewrite XS1 in Hj.
  rewrite <- (vget_col X j) by lia.
  rewrite <- (vget_col Mt j) by lia.
  now rewrite Hcol.
Qed.

Lemma transpose_involutive (a : ndarray) : wf a -> transpose (transpose a) = a.
Proof.
  intros Hw. rewrite (mtab_eta Hw) at 2.
  unfold transpose at 1. cbn [transpose mtab shape0 shape1].
  apply mtab_ext. intros i j Hi Hj.
  unfold transpose. now rewrite entry_mtab.
Qed.

End Recovery.

Section RecoveryClaim.
Context {F : Scalar} {NP : NumpyLib} {D : Mbp.Drake}.

Lemma linear_dynamics_contract (A B : ndarray) :
  has_shape Mbp.dim_x Mbp.dim_x A ->
  Mbp.linear_dynamics A B -> Mbp.dynamics_contract.
Proof.
  intros HA Hlin x u rg s Hx Hu.
  destruct (Hlin x u rg s Hx Hu) as (s' & E).
  exists (Mbp.linear_step A B x u), s'. split; [exact E|].
  destruct HA as (A0 & _ & [Al _]).
  unfold Mbp.linear_step, vadd, matvec.
  now rewrite length_vtab, length_map, Al.
Qed.


End RecoveryClaim.

(* ------------------------------------------------------------------ *)
(** ** Rank deficiency and damping                                     *)
(* ------------------------------------------------------------------ *)

Section Damped.
Context {F : Scalar} {NP : NumpyLib} {D : Mbp.Drake}.
Context (sle : num -> num -> Prop) (L : ScalarLaws F sle).

Add Ring damped_ring : (sl_ring L).

Lemma dot_scaled_unit (damp : num) (m k : nat) (v : vec) :
  length v = m -> k < m ->
  dot (vtab m (fun j => smul (if k =? j then s1 else s0) damp)) v
  = smul damp (vget v k).
Proof.
  revert k v. induction m as [|m IH]; intros k v Hv Hk; [lia|].
  destruct v as [|a v]; [discriminate Hv|].
  rewrite vtab_S, dot_cons. destruct k as [|k].
  - cbn [Nat.eqb]. rewrite (dot_zero_l L).
    + unfold vget. cbn [nth]. ring.
    + apply Forall_forall. intros t Ht. unfold vtab in Ht.
      apply in_map_iff in Ht. destruct Ht as (j & <- & _).
      cbn [Nat.eqb]. ring.
  - cbn [Nat.eqb]. rewrite IH by (simpl in Hv; lia).
    unfold vget. cbn [nth]. ring.
Qed.

(** With nonzero damping the stacked system has full column rank,
    whatever the perturbations are. *)
Lemma damped_full_column_rank (n : nat) (dx du : ndarray) (damp : num) :
  has_shape n Mbp.dim_x dx -> has_shape n Mbp.dim_u du ->
  damp <> s0 ->
  full_column_rank (Mbp.tikhonov_lhs dx du damp).
Proof.
  intros (X0 & X1 & Xw) (U0 & U1 & Uw) Hdamp v Hv Hker.
  cbn [Mbp.tikhonov_lhs vstack2 hstack2 mscale np_eye mtab shape0 shape1]
    in Hv, Hker |- *.
  rewrite X1, U1 in Hv |- *. rewrite X0 in Hker.
  set (m := Mbp.dim_x + Mbp.dim_u) in *.
  rewrite (vtab_eta v), Hv. unfold np_zeros1. apply vtab_ext.
  intros k Hk.
  assert (E : vget (matvec (Mbp.tikhonov_lhs dx du damp) v) (n + k) = s0).
  { rewrite Hker. unfold np_zeros1. now rewrite vget_vtab by lia. }
  unfold matvec, vget in E.
  rewrite (nth_indep _ s0 (dot [] v)) in E.
  2:{ rewrite length_map.
      cbn [Mbp.tikhonov_lhs vstack2 hstack2 mscale np_eye mtab rowsof].
      rewrite length_app, !length_map, !length_seq, X0.
      cbn [np_eye mtab shape0]. fold m. lia. }
  rewrite (map_nth (fun r => dot r v)) in E.
  cbn [Mbp.tikhonov_lhs vstack2 hstack2 mscale np_eye mtab rowsof shape0
       shape1] in E.
  rewrite app_nth2 in E by (rewrite length_map, length_seq; lia).
  rewrite length_map, length_seq, X0 in E.
  replace (n + k - n) with k in E by lia. fold m in E.
  rewrite (nth_map_seq _ [] Hk) in E.
  assert (E' : dot (vtab m (fun j => smul (if k =? j then s1 else s0) damp)) v
               = s0).
  { etransitivity; [|exact E]. f_equal. apply vtab_ext. intros j Hj.
    unfold np_eye. now rewrite entry_mtab by assumption. }
  rewrite dot_scaled_unit in E' by assumption.
  destruct (sl_integral L _ _ E') as [H|H]; [contradiction|exact H].
Qed.

End Damped.

Section RankDeficiencyClaim.
Context {F : Scalar} {NP : NumpyLib} {D : Mbp.Drake}.


End RankDeficiencyClaim.
(* ------------------------------------------------------------------ *)
(** ** Dictionaries, loops over them and index assignment              *)
(* ------------------------------------------------------------------ *)

Section DictFacts.
Context {A : Type}.

Lemma dict_get_set_same (d : dict A) (k : model) (a : A) :
  dict_get (dict_set d k a) k = Ok a.
Proof.
  induction d as [|[k' a'] d IH]; cbn.
  - now rewrite Nat.eqb_refl.
  - destruct (Nat.eqb_spec k' k) as [->|Hne]; cbn.
    + now rewrite Nat.eqb_refl.
    + destruct (Nat.eqb_spec k' k); [contradiction|exact IH].
Qed.

Lemma dict_get_set_other (d : dict A) (k k' : model) (a : A) :
  k <> k' -> dict_get (dict_set d k a) k' = dict_get d k'.
Proof.
  intros Hne. induction d as [|[k0 a0] d IH]; cbn.
  - destruct (Nat.eqb_spec k k'); [contradiction|reflexivity].
  - destruct (Nat.eqb_spec k0 k) as [->|Hk]; cbn.
    + destruct (Nat.eqb_spec k k'); [contradiction|reflexivity].
    + destruct (Nat.eqb_spec k0 k'); [reflexivity|exact IH].
Qed.

Lemma dict_set_fresh (d : dict A) (k : model) (a : A) :
  ~ In k (keys d) -> dict_set d k a = d ++ [(k, a)].
Proof.
  induction d as [|[k' a'] d IH]; cbn; intros Hk; [reflexivity|].
  destruct (Nat.eqb_spec k' k) as [->|Hne]; [tauto|].
  f_equal. apply IH. tauto.
Qed.

Lemma in_dict_set (d : dict A) (k : model) (a : A) (p : model * A) :
  In p (dict_set d k a) -> p = (k, a) \/ In p d.
Proof.
  induction d as [|[k' a'] d IH]; cbn.
  - intros [<-|[]]. now left.
  - destruct (Nat.eqb_spec k' k) as [->|Hne]; cbn.
    + intros [<-|H]; [now left|right; now right].
    + intros [<-|H]; [right; now left|].
      destruct (IH H); [now left|right; now right].
Qed.

Lemma keys_dict_set (d : dict A) (k : model) (a : A) (m : model) :
  In m (keys (dict_set d k a)) <-> m = k \/ In m (keys d).
Proof.
  induction d as [|[k' a'] d IH]; cbn.
  - intuition congruence.
  - destruct (Nat.eqb_spec k' k) as [->|Hne]; cbn.
    + intuition congruence.
    + rewrite IH. intuition congruence.
Qed.

Lemma NoDup_keys_dict_set (d : dict A) (k : model) (a : A) :
  NoDup (keys d) -> NoDup (keys (dict_set d k a)).
Proof.
  induction d as [|[k' a'] d IH]; cbn; intros Hd.
  - constructor; [intros []|constructor].
  - inversion Hd as [|? ? Hnin Hd']; subst.
    destruct (Nat.eqb_spec k' k) as [->|Hne]; cbn.
    + now constructor.
    + constructor; [|now apply IH].
      intros Hin. apply keys_dict_set in Hin. destruct Hin; [congruence|contradiction].
Qed.

Lemma dict_get_in (d : dict A) (k : model) (a : A) :
  NoDup (keys d) -> In (k, a) d -> dict_get d k = Ok a.
Proof.
  induction d as [|[k' a'] d IH]; cbn; intros Hd Hin; [contradiction|].
  inversion Hd as [|? ? Hnin Hd']; subst.
  destruct Hin as [E|Hin].
  - inversion E; subst. now rewrite Nat.eqb_refl.
  - destruct (Nat.eqb_spec k' k) as [->|Hne]; [|now apply IH].
    exfalso. apply Hnin. change k with (fst (k, a)). now apply in_map.
Qed.

Lemma dict_get_key (d : dict A) (k : model) :
  In k (keys d) -> exists a, dict_get d k = Ok a /\ In (k, a) d.
Proof.
  induction d as [|[k' a'] d IH]; cbn; intros Hin; [contradiction|].
  destruct (Nat.eqb_spec k' k) as [->|Hne].
  - exists a'. split; [reflexivity|now left].
  - destruct Hin as [E|Hin]; [congruence|].
    destruct (IH Hin) as (a & Ha & Hi). exists a. split; [exact Ha|now right].
Qed.

Lemma dict_get_missing (d : dict A) (k : model) :
  ~ In k (keys d) -> dict_get d k = Raise KeyError.
Proof.
  induction d as [|[k' a'] d IH]; cbn; intros Hk; [reflexivity|].
  destruct (Nat.eqb_spec k' k) as [->|Hne]; [tauto|]. apply IH. tauto.
Qed.

Lemma dict_get_cases (d : dict A) (k : model) :
  (exists a, dict_get d k = Ok a) \/ dict_get d k = Raise KeyError.
Proof.
  induction d as [|[k' a'] d IH]; cbn; [now right|].
  destruct (k' =? k); [left; now eexists|exact IH].
Qed.

End DictFacts.

Section ResultLoopFacts.

Lemma for_each_result_app {I Acc : Type} (f : I -> Acc -> result Acc)
    (l1 l2 : list I) (acc : Acc) :
  for_each f (l1 ++ l2) acc = (a <- for_each f l1 acc ;; for_each f l2 a).
Proof.
  revert acc. induction l1 as [|i l1 IH]; intros acc; cbn; [reflexivity|].
  destruct (f i acc); cbn; [apply IH|reflexivity].
Qed.

Lemma for_each_result_ext {I Acc : Type} (f g : I -> Acc -> result Acc)
    (l : list I) (acc : Acc) :
  (forall i a, In i l -> f i a = g i a) ->
  for_each f l acc = for_each g l acc.
Proof.
  revert acc. induction l as [|i l IH]; intros acc H; cbn; [reflexivity|].
  rewrite (H i acc) by now left.
  destruct (g i acc); cbn; [|reflexivity].
  apply IH. intros j b Hj. apply H. now right.
Qed.

End ResultLoopFacts.

Lemma result_bind_raise {A B : Type} (e : exn) (k : A -> result B) :
  bind (Raise e) k = Raise e.
Proof. reflexivity. Qed.

(** Rewrite the first computation of a [bind] with an equation that
    holds up to conversion. *)
Ltac run_loop L :=
  match goal with
  | |- bind ?c _ = _ =>
      let H := fresh "Hrun" in
      assert (H : c = _) by exact L;
      rewrite H; clear H;
      first [rewrite result_bind_ok | rewrite result_bind_raise];
      cbn beta; cbn [ret result_monad fst snd]
  end.
(* ------------------------------------------------------------------ *)
(** ** Commands of the actuated models                                 *)
(* ------------------------------------------------------------------ *)

Section SliceFacts.
Context {A : Type}.

Lemma slice_chunk (u : list A) (i n : nat) :
  slice u i (i + n) = firstn n (skipn i u).
Proof. unfold slice. now replace (i + n - i) with n by lia. Qed.

Lemma setslice1_exact (v vals : list A) (lo hi : nat) :
  lo <= hi -> hi <= length v -> length vals = hi - lo ->
  setslice1 v lo hi vals = Ok (firstn lo v ++ vals ++ skipn hi v).
Proof.
  intros Hlo Hhi Hl. unfold setslice1, clip.
  replace (Nat.min (length v) lo) with lo by lia.
  replace (Nat.max lo (Nat.min (length v) hi)) with hi by lia.
  destruct vals as [|x [|y vals]].
  - cbn in Hl. rewrite <- Hl. reflexivity.
  - cbn in Hl. now rewrite <- Hl.
  - rewrite Hl, Nat.eqb_refl. reflexivity.
Qed.

Lemma firstn_step (u : list A) (i n : nat) :
  firstn i u ++ firstn n (skipn i u) = firstn (i + n) u.
Proof.
  revert u. induction i as [|i IH]; intros u.
  - now rewrite firstn_O, skipn_O.
  - destruct u as [|a u].
    + now rewrite skipn_nil, !firstn_nil.
    + cbn [Nat.add]. rewrite !firstn_cons, skipn_cons.
      cbn [app]. now rewrite IH.
Qed.

Lemma dict_get_combine (l : list model) (cs : list A) :
  NoDup l -> length cs = length l ->
  map (dict_get (combine l cs)) l = map Ok cs.
Proof.
  revert cs. induction l as [|m l IH]; intros cs Hnd Hl.
  - destruct cs; [reflexivity|discriminate].
  - destruct cs as [|c cs]; [discriminate|].
    inversion Hnd as [|? ? Hnin Hnd']; subst.
    cbn [combine map dict_get]. rewrite Nat.eqb_refl. f_equal.
    rewrite <- (IH cs Hnd') by (cbn in Hl; lia).
    apply map_ext_in. intros k Hk.
    destruct (Nat.eqb_spec m k) as [->|]; [contradiction|reflexivity].
Qed.

Lemma skipn_repeat (x : A) (n k : nat) :
  skipn n (repeat x k) = repeat x (k - n).
Proof.
  revert k. induction n as [|n IH]; intros k.
  - now rewrite skipn_O, Nat.sub_0_r.
  - destruct k as [|k]; [now rewrite skipn_nil|].
    cbn [repeat]. rewrite skipn_cons. apply IH.
Qed.

Lemma list_sum_cons (n : nat) (ns : list nat) :
  list_sum (n :: ns) = n + list_sum ns.
Proof. reflexivity. Qed.

Lemma length_chunks (u : list A) (ns : list nat) :
  length (chunks u ns) = length ns.
Proof.
  revert u. induction ns as [|n ns IH]; intros u; cbn; [reflexivity|].
  now rewrite IH.
Qed.

End SliceFacts.

Section QuasistaticControls.
Context {F : Scalar} {Sim : Quasistatic.QuasistaticSimulator}
        {SI : Quasistatic.SimulatorIndices}.

Lemma np_zeros1_repeat (n : nat) : np_zeros1 n = repeat s0 n.
Proof.
  unfold np_zeros1, vtab. generalize 0.
  induction n as [|n IH]; intros k; cbn; [reflexivity|]. now rewrite IH.
Qed.

Lemma cmd_loop (u : vec) (l : list model) (ns : list nat) (d : dict vec)
    (i : nat) :
  NoDup l -> (forall m, In m l -> ~ In m (keys d)) ->
  map (dict_get Quasistatic.n_v_dict) l = map Ok ns ->
  for_each
    (fun m (st : dict vec * nat) =>
       let (q_a_cmd_dict, i_start) := st in
       n_a_i <- dict_get Quasistatic.n_v_dict m ;;
       ret (dict_set q_a_cmd_dict m (slice u i_start (i_start + n_a_i)),
            i_start + n_a_i))
    l (d, i)
  = Ok (d ++ combine l (chunks (skipn i u) ns), i + list_sum ns).
Proof.
  revert ns d i. induction l as [|m l IH]; intros ns d i Hnd Hfresh Hn.
  - destruct ns; [|discriminate]. cbn. now rewrite app_nil_r, Nat.add_0_r.
  - destruct ns as [|n ns]; [discriminate|].
    cbn [map] in Hn. injection Hn as Hm Hn.
    inversion Hnd as [|? ? Hnin Hnd']; subst.
    cbn [for_each bind result_monad]. rewrite Hm. cbn [ret result_monad].
    rewrite dict_set_fresh by (apply Hfresh; now left).
    assert (Hfresh' : forall k, In k l ->
              ~ In k (keys (d ++ [(m, slice u i (i + n))]))).
    { intros k Hk Hin. unfold keys in Hin.
      rewrite map_app in Hin. apply in_app_or in Hin.
      destruct Hin as [Hin|[E|[]]].
      - apply (Hfresh k); [now right|exact Hin].
      - cbn in E. congruence. }
    rewrite (IH ns _ _ Hnd' Hfresh' Hn).
    rewrite slice_chunk, <- app_assoc. cbn [app combine chunks list_sum].
    rewrite skipn_skipn, (Nat.add_comm n i). f_equal. f_equal.
    rewrite list_sum_cons. lia.
Qed.

Lemma cmd_loop_error (u : vec) (l : list model) (st : dict vec * nat) :
  (exists m, In m l /\ dict_get Quasistatic.n_v_dict m = Raise KeyError) ->
  for_each
    (fun m (st : dict vec * nat) =>
       let (q_a_cmd_dict, i_start) := st in
       n_a_i <- dict_get Quasistatic.n_v_dict m ;;
       ret (dict_set q_a_cmd_dict m (slice u i_start (i_start + n_a_i)),
            i_start + n_a_i))
    l st
  = Raise KeyError.
Proof.
  revert st. induction l as [|k l IH]; intros [d i] (m & Hin & Hm).
  - contradiction.
  - cbn [for_each bind result_monad].
    destruct (dict_get_cases Quasistatic.n_v_dict k) as [[n Hk]|Hk];
      rewrite Hk; [|reflexivity].
    cbn [ret result_monad]. apply IH.
    destruct Hin as [->|Hin]; [congruence|]. now exists m.
Qed.

Lemma cmd_loop_total (u : vec) (l : list model) (st : dict vec * nat) :
  (forall m, In m l -> exists n, dict_get Quasistatic.n_v_dict m = Ok n) ->
  exists r,
    for_each
      (fun m (st : dict vec * nat) =>
         let (q_a_cmd_dict, i_start) := st in
         n_a_i <- dict_get Quasistatic.n_v_dict m ;;
         ret (dict_set q_a_cmd_dict m (slice u i_start (i_start + n_a_i)),
              i_start + n_a_i))
      l st
    = Ok r.
Proof.
  revert st. induction l as [|k l IH]; intros [d i] H.
  - now eexists.
  - cbn [for_each bind result_monad].
    destruct (H k) as [n Hk]; [now left|]. rewrite Hk.
    cbn [ret result_monad]. apply IH. intros m Hm. apply H. now right.
Qed.

(** X2. The commands are consecutive chunks of [u], one per actuated model
    and in their order; a [u] that is too short gives shortened or empty
    chunks, never an error. *)
Theorem get_q_a_cmd_dict_from_u_chunks
    (self : Quasistatic.QuasistaticDynamics) (u : vec) (ns : list nat) :
  NoDup Quasistatic.models_actuated ->
  map (dict_get Quasistatic.n_v_dict) Quasistatic.models_actuated
    = map Ok ns ->
  Quasistatic.get_q_a_cmd_dict_from_u self u
    = Ok (combine Quasistatic.models_actuated (chunks u ns)).
Proof.
  intros Hnd Hn. unfold Quasistatic.get_q_a_cmd_dict_from_u.
  assert (Hf : forall m, In m Quasistatic.models_actuated ->
                 ~ In m (keys ([] : dict vec))) by (intros m _ []).
  run_loop (@cmd_loop u _ ns [] 0 Hnd Hf Hn). reflexivity.
Qed.

(** X3. The only exception of [get_q_a_cmd_dict_from_u] is [KeyError], raised
    exactly when an actuated model has no entry in [n_v_dict]. *)
Theorem get_q_a_cmd_dict_from_u_key_error
    (self : Quasistatic.QuasistaticDynamics) (u : vec) :
  ((exists m, In m Quasistatic.models_actuated /\
              dict_get Quasistatic.n_v_dict m = Raise KeyError) ->
   Quasistatic.get_q_a_cmd_dict_from_u self u = Raise KeyError) /\
  ((forall m, In m Quasistatic.models_actuated ->
              exists n, dict_get Quasistatic.n_v_dict m = Ok n) ->
   exists d, Quasistatic.get_q_a_cmd_dict_from_u self u = Ok d).
Proof.
  split; intros H; unfold Quasistatic.get_q_a_cmd_dict_from_u.
  - run_loop (@cmd_loop_error u _ ([], 0) H). reflexivity.
  - destruct (@cmd_loop_total u _ ([], 0) H) as [r Hr].
    eexists. run_loop Hr. reflexivity.
Qed.

Lemma u_loop (u : vec) (d : dict vec) (l : list model) (ns : list nat)
    (i : nat) :
  map (dict_get Quasistatic.n_v_dict) l = map Ok ns ->
  map (dict_get d) l = map Ok (chunks (skipn i u) ns) ->
  i + list_sum ns <= length u ->
  for_each
    (fun m (st : vec * nat) =>
       let (u, i_start) := st in
       n_v_i <- dict_get Quasistatic.n_v_dict m ;;
       q <- dict_get d m ;;
       u <- setslice1 u i_start (i_start + n_v_i) q ;;
       ret (u, i_start + n_v_i))
    l (firstn i u ++ repeat s0 (length u - i), i)
  = Ok (firstn (i + list_sum ns) u
          ++ repeat s0 (length u - (i + list_sum ns)),
        i + list_sum ns).
Proof.
  revert ns i. induction l as [|m l IH]; intros ns i Hn Hd Hle.
  - destruct ns; [|discriminate]. cbn. now rewrite Nat.add_0_r.
  - destruct ns as [|n ns]; [discriminate|].
    cbn [map chunks] in Hn, Hd. injection Hn as Hm Hn.
    injection Hd as Hq Hd. rewrite list_sum_cons in Hle.
    cbn [for_each bind result_monad]. rewrite Hm, Hq.
    assert (Hfi : length (firstn i u) = i) by (apply firstn_length_le; lia).
    rewrite setslice1_exact.
    + cbn [ret result_monad].
      rewrite firstn_app, Hfi, Nat.sub_diag, firstn_O, app_nil_r.
      rewrite firstn_firstn, Nat.min_id.
      rewrite skipn_app, Hfi.
      rewrite (skipn_all2 (firstn i u)) by (rewrite Hfi; lia).
      replace (i + n - i) with n by lia.
      rewrite skipn_repeat. cbn [app].
      rewrite app_assoc, firstn_step.
      replace (length u - i - n) with (length u - (i + n)) by lia.
      rewrite skipn_skipn in Hd. rewrite (Nat.add_comm n i) in Hd.
      rewrite list_sum_cons, Nat.add_assoc.
      apply (IH ns (i + n) Hn Hd). lia.
    + lia.
    + rewrite length_app, Hfi, repeat_length. lia.
    + rewrite length_firstn, length_skipn. lia.
Qed.

(** X7. Splitting a command vector into the commands of the actuated models
    and assembling them again gives the vector back. *)
Theorem u_round_trip
    (self : Quasistatic.QuasistaticDynamics) (u : vec) (ns : list nat) :
  NoDup Quasistatic.models_actuated ->
  map (dict_get Quasistatic.n_v_dict) Quasistatic.models_actuated
    = map Ok ns ->
  list_sum ns = Quasistatic.qd_dim_u self ->
  length u = Quasistatic.qd_dim_u self ->
  exists q_a_cmd_dict,
    Quasistatic.get_q_a_cmd_dict_from_u self u = Ok q_a_cmd_dict /\
    Quasistatic.get_u_from_q_cmd_dict self q_a_cmd_dict = Ok u.
Proof.
  intros Hnd Hn Hsum Hlen.
  exists (combine Quasistatic.models_actuated (chunks u ns)). split.
  - unfold Quasistatic.get_q_a_cmd_dict_from_u.
    assert (Hf : forall m, In m Quasistatic.models_actuated ->
                   ~ In m (keys ([] : dict vec))) by (intros m _ []).
    run_loop (@cmd_loop u _ ns [] 0 Hnd Hf Hn). reflexivity.
  - unfold Quasistatic.get_u_from_q_cmd_dict.
    assert (Hns : length ns = length Quasistatic.models_actuated).
    { apply (f_equal (@length _)) in Hn. now rewrite !length_map in Hn. }
    assert (Hd : map (dict_get (combine Quasistatic.models_actuated
                                        (chunks u ns)))
                     Quasistatic.models_actuated
                 = map Ok (chunks (skipn 0 u) ns)).
    { rewrite skipn_O. apply dict_get_combine; [exact Hnd|].
      now rewrite length_chunks. }
    pose proof (@u_loop u _ Quasistatic.models_actuated ns 0 Hn Hd) as L.
    rewrite firstn_O, Nat.sub_0_r in L. cbn [app Nat.add] in L.
    rewrite <- np_zeros1_repeat, Hlen in L.
    specialize (L ltac:(lia)).
    run_loop L. f_equal.
    rewrite Hsum, <- Hlen, firstn_all, Nat.sub_diag. apply app_nil_r.
Qed.

Lemma u_indices_loop (l : list model) (idxs : list (list nat))
    (pre : list nat) (k : nat) :
  map (dict_get Quasistatic.velocity_indices_dict) l = map Ok idxs ->
  length (concat idxs) <= k ->
  for_each
    (fun m (st : list nat * nat) =>
       let (u_indices, i_start) := st in
       indices <- dict_get Quasistatic.velocity_indices_dict m ;;
       let n_a_i := length indices in
       u_indices <- setslice1 u_indices i_start (i_start + n_a_i)
                              indices ;;
       ret (u_indices, i_start + n_a_i))
    l (pre ++ repeat 0 k, length pre)
  = Ok (pre ++ concat idxs ++ repeat 0 (k - length (concat idxs)),
        length pre + length (concat idxs)).
Proof.
  revert idxs pre k. induction l as [|m l IH]; intros idxs pre k Hd Hle.
  - destruct idxs; [|discriminate]. cbn.
    now rewrite Nat.sub_0_r, Nat.add_0_r.
  - destruct idxs as [|idx idxs]; [discriminate|].
    cbn [map] in Hd. injection Hd as Hm Hd.
    cbn [concat] in Hle. rewrite length_app in Hle.
    cbn [for_each bind result_monad]. rewrite Hm.
    rewrite setslice1_exact.
    + cbn [ret result_monad].
      rewrite firstn_app, Nat.sub_diag, firstn_O, app_nil_r, firstn_all.
      rewrite skipn_app.
      rewrite (skipn_all2 pre) by lia.
      replace (length pre + length idx - length pre) with (length idx) by lia.
      rewrite skipn_repeat. cbn [app].
      rewrite app_assoc. rewrite <- (length_app pre idx).
      etransitivity;
        [apply (IH idxs (pre ++ idx) (k - length idx) Hd); lia|].
      cbn [concat]. rewrite !length_app, <- !app_assoc.
      rewrite Nat.sub_add_distr, Nat.add_assoc. reflexivity.
    + lia.
    + rewrite length_app, repeat_length. lia.
    + lia.
Qed.

(** X1. The indices of the controls into the state are the velocity indices
    of the actuated models, one model after the other. *)
Theorem get_u_indices_into_x_concat
    (self : Quasistatic.QuasistaticDynamics) (idxs : list (list nat)) :
  map (dict_get Quasistatic.velocity_indices_dict)
      Quasistatic.models_actuated = map Ok idxs ->
  length (concat idxs) = Quasistatic.qd_dim_u self ->
  Quasistatic.get_u_indices_into_x self = Ok (concat idxs).
Proof.
  intros Hd Hlen. unfold Quasistatic.get_u_indices_into_x.
  pose proof (@u_indices_loop Quasistatic.models_actuated idxs []
                (Quasistatic.qd_dim_u self) Hd ltac:(lia)) as L.
  cbn [app length Nat.add] in L.
  run_loop L. f_equal.
  rewrite Hlen, Nat.sub_diag. apply app_nil_r.
Qed.

End QuasistaticControls.
(* ------------------------------------------------------------------ *)
(** ** States and the configurations of the models                     *)
(* ------------------------------------------------------------------ *)

Section ScatterFacts.
Context {F : Scalar}.

Lemma vget_overflow (v : vec) (j : nat) : length v <= j -> vget v j = s0.
Proof. intros H. unfold vget. now apply nth_overflow. Qed.

Lemma put_fold_length (ps : list (nat * num)) (v : vec) :
  length (fold_left
            (fun acc p =>
               vtab (length acc)
                    (fun j => if j =? fst p then snd p else vget acc j))
            ps v)
  = length v.
Proof.
  revert v. induction ps as [|p ps IH]; intros v; cbn [fold_left];
    [reflexivity|].
  rewrite IH. apply length_vtab.
Qed.

Lemma put_fold_notin (ps : list (nat * num)) (v : vec) (j : nat) :
  (forall p, In p ps -> fst p <> j) ->
  vget (fold_left
          (fun acc p =>
             vtab (length acc)
                  (fun j => if j =? fst p then snd p else vget acc j))
          ps v) j
  = vget v j.
Proof.
  revert v. induction ps as [|p ps IH]; intros v H; cbn [fold_left];
    [reflexivity|].
  rewrite IH by (intros q Hq; apply H; now right).
  destruct (Nat.lt_ge_cases j (length v)) as [Hj|Hj].
  - rewrite vget_vtab by exact Hj.
    destruct (Nat.eqb_spec j (fst p)) as [E|_]; [|reflexivity].
    exfalso. apply (H p); [now left|congruence].
  - rewrite !vget_overflow; [reflexivity|exact Hj|now rewrite length_vtab].
Qed.

Lemma put_fold_in (g : nat -> num) (ps : list (nat * num)) (v : vec)
    (j : nat) :
  (forall p, In p ps -> snd p = g (fst p)) ->
  (exists p, In p ps /\ fst p = j) -> j < length v ->
  vget (fold_left
          (fun acc p =>
             vtab (length acc)
                  (fun j => if j =? fst p then snd p else vget acc j))
          ps v) j
  = g j.
Proof.
  revert v. induction ps as [|p ps IH]; intros v Hg (q & Hq & Hj) Hlt;
    [contradiction|].
  cbn [fold_left].
  destruct (in_dec Nat.eq_dec j (map fst ps)) as [Hin|Hnin].
  - apply IH.
    + intros r Hr. apply Hg. now right.
    + apply in_map_iff in Hin. destruct Hin as (r & Hr & Hin). now exists r.
    + now rewrite length_vtab.
  - rewrite put_fold_notin.
    + destruct Hq as [->|Hq].
      * rewrite vget_vtab by exact Hlt. rewrite Hj, Nat.eqb_refl.
        rewrite <- Hj. apply Hg. now left.
      * exfalso. apply Hnin. rewrite <- Hj. now apply in_map.
    + intros r Hr E. apply Hnin. rewrite <- E. now apply in_map.
Qed.

Lemma combine_vtab_in (idx : list nat) (h : nat -> num) (p : nat * num) :
  In p (combine idx (vtab (length idx) h)) ->
  exists k, k < length idx /\ fst p = nth k idx 0 /\ snd p = h k.
Proof.
  intros Hin. apply (In_nth _ _ (0, s0)) in Hin.
  destruct Hin as (k & Hk & E).
  rewrite length_combine, length_vtab, Nat.min_id in Hk.
  rewrite combine_nth in E by now rewrite length_vtab.
  exists k. split; [exact Hk|]. rewrite <- E. cbn [fst snd].
  split; [reflexivity|]. fold (vget (vtab (length idx) h) k).
  now apply vget_vtab.
Qed.

Lemma fst_combine_vtab (idx : list nat) (h : nat -> num) :
  map fst (combine idx (vtab (length idx) h)) = idx.
Proof.
  generalize (vtab (length idx) h), (length_vtab (length idx) h).
  intros vs. revert vs. induction idx as [|i idx IH]; intros vs Hl.
  - reflexivity.
  - destruct vs as [|a vs]; [discriminate|]. cbn. f_equal.
    apply IH. now injection Hl.
Qed.

Lemma forallb_ltb (n : nat) (idx : list nat) :
  forallb (fun i => i <? n) idx = true <-> forall i, In i idx -> i < n.
Proof.
  rewrite forallb_forall. split; intros H i Hi.
  - now apply Nat.ltb_lt, H.
  - now apply Nat.ltb_lt, H.
Qed.

(** What a successful [v[idx] = vals] needed and what it left alone. *)
Lemma put_at_inv (v : vec) (idx : list nat) (vals v' : vec) :
  put_at v idx vals = Ok v' ->
  (length vals = length idx \/ length vals = 1) /\
  (forall i, In i idx -> i < length v) /\
  length v' = length v /\
  (forall j, ~ In j idx -> vget v' j = vget v j).
Proof.
  intros H. pose proof (put_at_length _ _ _ H) as Hl.
  unfold put_at in H.
  destruct (_ || _) eqn:Eb; [|discriminate].
  destruct (forallb _ idx) eqn:Ef; [|discriminate].
  injection H as <-.
  apply orb_true_iff in Eb. rewrite !Nat.eqb_eq in Eb.
  pose proof (proj1 (@forallb_ltb _ _) Ef) as Er.
  repeat split; try assumption.
  intros j Hj. apply put_fold_notin. intros p Hp E.
  apply Hj. rewrite <- E, <- (fst_combine_vtab idx
    (fun k => vget vals (bidx (length vals) k))). now apply in_map.
Qed.

(** [v[idx] = [g i for i in idx]]. *)
Lemma put_at_gather (g : nat -> num) (v : vec) (idx : list nat) :
  (forall i, In i idx -> i < length v) ->
  exists v',
    put_at v idx (map g idx) = Ok v' /\
    length v' = length v /\
    (forall j, In j idx -> vget v' j = g j) /\
    (forall j, ~ In j idx -> vget v' j = vget v j).
Proof.
  intros Hr. unfold put_at.
  rewrite length_map, Nat.eqb_refl. cbn [orb].
  rewrite (proj2 (@forallb_ltb (length v) idx) Hr).
  eexists. split; [reflexivity|]. split; [apply put_fold_length|]. split.
  - intros j Hj. apply put_fold_in.
    + intros p Hp. apply combine_vtab_in in Hp.
      destruct Hp as (k & Hk & -> & ->).
      rewrite bidx_lt by exact Hk. unfold vget.
      rewrite (nth_indep _ s0 (g 0)) by now rewrite length_map.
      apply map_nth.
    + rewrite <- (fst_combine_vtab idx
        (fun k => vget (map g idx) (bidx (length idx) k))) in Hj.
      apply in_map_iff in Hj. destruct Hj as (p & E & Hp). now exists p.
    + now apply Hr.
  - intros j Hj. apply put_fold_notin. intros p Hp E.
    apply Hj. rewrite <- E, <- (fst_combine_vtab idx
      (fun k => vget (map g idx) (bidx (length idx) k))). now apply in_map.
Qed.

Lemma take_ok (x : vec) (idx : list nat) :
  (forall i, In i idx -> i < length x) ->
  take x idx = Ok (map (vget x) idx).
Proof.
  intros H. unfold take. apply map_m_result_ok.
  intros i Hi. unfold getitem1.
  now rewrite (proj2 (Nat.ltb_lt _ _) (H i Hi)).
Qed.

Lemma take_error (x : vec) (idx : list nat) :
  (exists i, In i idx /\ length x <= i) -> take x idx = Raise IndexError.
Proof.
  unfold take. induction idx as [|k idx IH]; intros (i & Hi & Hle);
    [contradiction|].
  cbn [map_m bind result_monad]. unfold getitem1 at 1.
  destruct (Nat.ltb_spec k (length x)) as [Hk|Hk]; [|reflexivity].
  rewrite IH; [reflexivity|].
  destruct Hi as [->|Hi]; [lia|now exists i].
Qed.

(** Writing [g] at the indices of every entry of [l], one entry after
    the other. *)
Lemma scatter_loop (g : nat -> num)
    (body : model * list nat -> vec -> result vec)
    (l : list (model * list nat)) (n : nat) :
  (forall p acc, In p l -> length acc = n ->
                 body p acc = put_at acc (snd p) (map g (snd p))) ->
  (forall p i, In p l -> In i (snd p) -> i < n) ->
  forall acc, length acc = n ->
  exists r,
    for_each body l acc = Ok r /\ length r = n /\
    (forall j, (exists p, In p l /\ In j (snd p)) -> vget r j = g j) /\
    (forall j, (forall p, In p l -> ~ In j (snd p)) -> vget r j = vget acc j).
Proof.
  induction l as [|p l IH]; intros Hb Hr acc Hacc.
  - exists acc. cbn. split; [reflexivity|]. split; [exact Hacc|].
    split; [intros j (p & [] & _)|reflexivity].
  - cbn [for_each bind result_monad].
    rewrite Hb; [|now left|exact Hacc].
    destruct (@put_at_gather g acc (snd p)) as (v' & -> & Hl & Hin & Hout).
    { intros i Hi. rewrite Hacc. apply (Hr p); [now left|exact Hi]. }
    destruct (IH (fun q a Hq => Hb q a (or_intror Hq))
                 (fun q i Hq => Hr q i (or_intror Hq)) v')
      as (r & -> & Hlr & Hcov & Hrest); [congruence|].
    exists r. split; [reflexivity|]. split; [exact Hlr|]. split.
    + intros j (q & Hq & Hj).
      destruct (Exists_dec (fun q => In j (snd q)) l
                  (fun q => in_dec Nat.eq_dec j (snd q))) as [Hex|Hnex].
      * apply Hcov. apply Exists_exists in Hex. exact Hex.
      * rewrite Hrest.
        -- destruct Hq as [->|Hq]; [now apply Hin|].
           exfalso. apply Hnex, Exists_exists. now exists q.
        -- intros q' Hq' Hj'. apply Hnex, Exists_exists. now exists q'.
    + intros j Hj. rewrite Hrest by (intros q Hq; apply Hj; now right).
      apply Hout. apply Hj. now left.
Qed.

(** A dictionary filled with one value per entry of [l]. *)
Lemma build_loop {B : Type} (w : model * list nat -> B)
    (body : model * list nat -> dict B -> result (dict B))
    (l : list (model * list nat)) :
  (forall p d, In p l -> body p d = Ok (dict_set d (fst p) (w p))) ->
  forall d,
    for_each body l d
    = Ok (fold_left (fun d p => dict_set d (fst p) (w p)) l d).
Proof.
  induction l as [|p l IH]; intros Hb d; [reflexivity|].
  cbn [for_each bind result_monad fold_left].
  rewrite Hb by now left.
  apply IH. intros q d' Hq. apply Hb. now right.
Qed.

Lemma build_get_other {B : Type} (w : model * list nat -> B)
    (l : list (model * list nat)) (d : dict B) (k : model) :
  ~ In k (map fst l) ->
  dict_get (fold_left (fun d p => dict_set d (fst p) (w p)) l d) k
  = dict_get d k.
Proof.
  revert d. induction l as [|p l IH]; intros d Hk; [reflexivity|].
  cbn [fold_left]. rewrite IH by (intros H; apply Hk; now right).
  apply dict_get_set_other. intros E. apply Hk. now left.
Qed.

Lemma build_get {B : Type} (w : model * list nat -> B)
    (l : list (model * list nat)) (d : dict B) (p : model * list nat) :
  NoDup (map fst l) -> In p l ->
  dict_get (fold_left (fun d p => dict_set d (fst p) (w p)) l d) (fst p)
  = Ok (w p).
Proof.
  revert d. induction l as [|q l IH]; intros d Hnd Hp; [contradiction|].
  cbn [map] in Hnd. inversion Hnd as [|? ? Hnin Hnd']; subst.
  cbn [fold_left]. destruct Hp as [->|Hp].
  - rewrite build_get_other by exact Hnin. apply dict_get_set_same.
  - now apply IH.
Qed.

End ScatterFacts.

Section QuasistaticStates.
Context {F : Scalar} {Sim : Quasistatic.QuasistaticSimulator}
        {SI : Quasistatic.SimulatorIndices}.

(** The dictionary that [__init__] builds: one entry per model, holding
    the position indices of that model. *)
Lemma init_indices (l : list model) (d : dict (list nat)) :
  NoDup (keys d) ->
  (forall p, In p d ->
             snd p = Quasistatic.get_position_indices_for_model (fst p)) ->
  let d' :=
    fold_left
      (fun d m =>
         dict_set d m (Quasistatic.get_position_indices_for_model m))
      l d in
  NoDup (keys d') /\
  (forall p, In p d' ->
             snd p = Quasistatic.get_position_indices_for_model (fst p)) /\
  (forall m, In m (keys d') <-> In m l \/ In m (keys d)).
Proof.
  revert d. induction l as [|m l IH]; intros d Hnd Hv; cbn [fold_left].
  - split; [exact Hnd|]. split; [exact Hv|]. intros m. cbn. tauto.
  - destruct (IH (dict_set d m
                    (Quasistatic.get_position_indices_for_model m)))
      as (H1 & H2 & H3).
    + now apply NoDup_keys_dict_set.
    + intros p Hp. apply in_dict_set in Hp.
      destruct Hp as [->|Hp]; [reflexivity|now apply Hv].
    + split; [exact H1|]. split; [exact H2|]. intros k.
      rewrite H3, keys_dict_set. cbn [In]. intuition congruence.
Qed.

Lemma init_in_range (h : num) (n : nat) :
  (forall m i, In m Quasistatic.models_all ->
               In i (Quasistatic.get_position_indices_for_model m) ->
               i < n) ->
  forall p i,
    In p (Quasistatic.position_indices_dict
            (Quasistatic.QuasistaticDynamics_init h)) ->
    In i (snd p) -> i < n.
Proof.
  intros Hr p i Hp Hi.
  destruct (@init_indices Quasistatic.models_all [])
    as (_ & Hv & Hk); [constructor|intros ? []|].
  cbn [Quasistatic.position_indices_dict
       Quasistatic.QuasistaticDynamics_init] in Hp.
  apply (Hr (fst p)).
  - destruct (proj1 (Hk (fst p))) as [H|[]]; [|exact H].
    unfold keys. now apply in_map.
  - now rewrite <- (Hv p Hp).
Qed.

Lemma q_dict_loop (x : vec) (l : list (model * list nat)) (d : dict vec) :
  (forall p i, In p l -> In i (snd p) -> i < length x) ->
  for_each
    (fun (p : model * list nat) (q_dict : dict vec) =>
       q <- take x (snd p) ;;
       ret (dict_set q_dict (fst p) q))
    l d
  = Ok (fold_left (fun d p => dict_set d (fst p) (map (vget x) (snd p))) l d).
Proof.
  intros Hr. apply build_loop. intros p d' Hp.
  rewrite take_ok by (intros i Hi; now apply (Hr p)). reflexivity.
Qed.

Lemma q_dict_loop_error (x : vec) (l : list (model * list nat))
    (d : dict vec) :
  (exists p i, In p l /\ In i (snd p) /\ length x <= i) ->
  for_each
    (fun (p : model * list nat) (q_dict : dict vec) =>
       q <- take x (snd p) ;;
       ret (dict_set q_dict (fst p) q))
    l d
  = Raise IndexError.
Proof.
  revert d. induction l as [|q l IH]; intros d (p & i & Hp & Hi & Hle);
    [contradiction|].
  cbn [for_each bind result_monad].
  destruct (Exists_dec (fun k => length x <= k) (snd q)
              (fun k => le_dec (length x) k)) as [Hbad|Hgood].
  - apply Exists_exists in Hbad. now rewrite take_error.
  - rewrite take_ok.
    + cbn [ret result_monad]. apply IH.
      destruct Hp as [->|Hp].
      * exfalso. apply Hgood, Exists_exists. now exists i.
      * now exists p, i.
    + intros k Hk. apply Nat.nlt_ge. intros Hge. apply Nat.nlt_ge in Hge.
      apply Hgood, Exists_exists. exists k. split; [exact Hk|lia].
Qed.

Lemma x_loop_inv (q_dict : dict vec) (l : list (model * list nat)) (n : nat) :
  forall acc r,
    length acc = n ->
    for_each
      (fun (p : model * list nat) (x : vec) =>
         q <- dict_get q_dict (fst p) ;;
         put_at x (snd p) q)
      l acc = Ok r ->
    length r = n /\
    (forall p, In p l ->
       exists q, dict_get q_dict (fst p) = Ok q /\
                 (length q = length (snd p) \/ length q = 1) /\
                 forall i, In i (snd p) -> i < n) /\
    (forall j, (forall p, In p l -> ~ In j (snd p)) -> vget r j = vget acc j).
Proof.
  induction l as [|p l IH]; intros acc r Hacc H.
  - cbn in H. injection H as <-. split; [exact Hacc|].
    split; [intros p []|reflexivity].
  - cbn [for_each bind result_monad] in H.
    destruct (dict_get q_dict (fst p)) as [q|] eqn:Eq; [|discriminate].
    destruct (put_at acc (snd p) q) as [v'|] eqn:Ep; [|discriminate].
    apply put_at_inv in Ep. destruct Ep as (Hl & Hr & Hlv & Hout).
    destruct (IH v' r ltac:(congruence) H) as (Hlr & Hreq & Hrest).
    split; [exact Hlr|]. split.
    + intros p' [<-|Hp'].
      * exists q. split; [exact Eq|]. split; [exact Hl|].
        intros i Hi. rewrite <- Hacc. now apply Hr.
      * now apply Hreq.
    + intros j Hj. rewrite Hrest by (intros p' Hp'; apply Hj; now right).
      apply Hout. apply Hj. now left.
Qed.

(** X6. Taking a state apart into the configurations of the models and
    assembling them again gives the state back, provided the position
    indices of the models stay below [num_positions] and reach every
    entry. *)
Theorem x_round_trip (h : num) (x : vec) :
  length x = Quasistatic.num_positions ->
  (forall m i, In m Quasistatic.models_all ->
               In i (Quasistatic.get_position_indices_for_model m) ->
               i < Quasistatic.num_positions) ->
  (forall i, i < Quasistatic.num_positions ->
             exists m, In m Quasistatic.models_all /\
                       In i (Quasistatic.get_position_indices_for_model m)) ->
  exists q_dict,
    Quasistatic.get_q_dict_from_x
      (Quasistatic.QuasistaticDynamics_init h) x = Ok q_dict /\
    Quasistatic.get_x_from_q_dict
      (Quasistatic.QuasistaticDynamics_init h) q_dict = Ok x.
Proof.
  intros Hlen Hrange Hcover.
  pose proof (@init_in_range h _ Hrange) as Hr.
  destruct (@init_indices Quasistatic.models_all [])
    as (Hnd & Hv & Hk); [constructor|intros ? []|].
  set (self := Quasistatic.QuasistaticDynamics_init h) in *.
  change (fold_left _ Quasistatic.models_all [])
    with (Quasistatic.position_indices_dict self) in Hnd, Hv, Hk.
  set (D := Quasistatic.position_indices_dict self) in *.
  exists (fold_left (fun d p => dict_set d (fst p) (map (vget x) (snd p)))
                    D []).
  split.
  - unfold Quasistatic.get_q_dict_from_x. apply q_dict_loop.
    rewrite Hlen. exact Hr.
  - unfold Quasistatic.get_x_from_q_dict.
    destruct (@scatter_loop _ (vget x)
                (fun (p : model * list nat) (acc : vec) =>
                   q <- dict_get
                          (fold_left
                             (fun d p =>
                                dict_set d (fst p) (map (vget x) (snd p)))
                             D []) (fst p) ;;
                   put_at acc (snd p) q)
                D Quasistatic.num_positions)
      with (acc := np_zeros1 Quasistatic.num_positions)
      as (r & Hrun & Hlr & Hcov & _).
    + intros p acc Hp _.
      now rewrite (@build_get _ (fun p => map (vget x) (snd p)) D [] p Hnd Hp).
    + exact Hr.
    + apply length_vtab.
    + etransitivity; [exact Hrun|]. f_equal.
      apply (nth_ext _ _ s0 s0); [congruence|].
      intros j Hj. apply Hcov.
      destruct (Hcover j ltac:(lia)) as (m & Hm & Hi).
      destruct (@dict_get_key _ D m) as (a & _ & Ha).
      { apply Hk. now left. }
      exists (m, a). split; [exact Ha|].
      pose proof (Hv (m, a) Ha) as Ev. cbn [fst snd] in Ev |- *. congruence.
Qed.

(** X5. A state that [get_x_from_q_dict] returns has [dim_x] entries; every
    model of [position_indices_dict] had a configuration of the length of
    its index list, or of length 1, and indices below [dim_x]; the entries
    that no index list names are zero. *)
Theorem get_x_from_q_dict_requires
    (self : Quasistatic.QuasistaticDynamics) (q_dict : dict vec) (x : vec) :
  Quasistatic.get_x_from_q_dict self q_dict = Ok x ->
  length x = Quasistatic.qd_dim_x self /\
  (forall p, In p (Quasistatic.position_indices_dict self) ->
     exists q, dict_get q_dict (fst p) = Ok q /\
               (length q = length (snd p) \/ length q = 1) /\
               forall i, In i (snd p) -> i < Quasistatic.qd_dim_x self) /\
  (forall j, (forall p, In p (Quasistatic.position_indices_dict self) ->
                        ~ In j (snd p)) ->
             vget x j = s0).
Proof.
  intros H. unfold Quasistatic.get_x_from_q_dict in H.
  apply (@x_loop_inv q_dict _ (Quasistatic.qd_dim_x self)) in H;
    [|apply length_vtab].
  destruct H as (Hl & Hreq & Hrest).
  split; [exact Hl|]. split; [exact Hreq|].
  intros j Hj. rewrite (Hrest j Hj).
  destruct (Nat.lt_ge_cases j (Quasistatic.qd_dim_x self)) as [Hlt|Hge].
  - unfold np_zeros1. now rewrite vget_vtab.
  - apply vget_overflow. unfold np_zeros1. now rewrite length_vtab.
Qed.

(** X4. [get_q_dict_from_x] returns when every position index is below the
    length of [x], and raises [IndexError] when one is not. *)
Theorem get_q_dict_from_x_bounds
    (self : Quasistatic.QuasistaticDynamics) (x : vec) :
  ((forall p i, In p (Quasistatic.position_indices_dict self) ->
                In i (snd p) -> i < length x) ->
   exists q_dict,
     Quasistatic.get_q_dict_from_x self x = Ok q_dict /\
     (NoDup (keys (Quasistatic.position_indices_dict self)) ->
      forall p, In p (Quasistatic.position_indices_dict self) ->
                dict_get q_dict (fst p) = Ok (map (vget x) (snd p)))) /\
  ((exists p i, In p (Quasistatic.position_indices_dict self) /\
                In i (snd p) /\ length x <= i) ->
   Quasistatic.get_q_dict_from_x self x = Raise IndexError).
Proof.
  split.
  - intros Hr. eexists. split.
    + unfold Quasistatic.get_q_dict_from_x. now apply q_dict_loop.
    + intros Hnd p Hp.
      exact (@build_get _ (fun p => map (vget x) (snd p)) _ [] p Hnd Hp).
  - intros H. unfold Quasistatic.get_q_dict_from_x.
    now apply q_dict_loop_error.
Qed.

End QuasistaticStates.
(* ------------------------------------------------------------------ *)
(** ** Cost matrices                                                   *)
(* ------------------------------------------------------------------ *)

Section DiagFacts.
Context {F : Scalar}.

Lemma diag_fold_shape (ps : list (nat * num)) (a : ndarray) (n : nat) :
  has_shape n n a ->
  has_shape n n
    (fold_left
       (fun acc p =>
          mtab (shape0 acc) (shape1 acc)
               (fun i j => if (i =? fst p) && (j =? fst p)
                           then snd p else entry acc i j))
       ps a).
Proof.
  revert a. induction ps as [|p ps IH]; intros a Ha; cbn [fold_left];
    [exact Ha|].
  apply IH. destruct Ha as (-> & -> & _). apply has_shape_mtab.
Qed.

Lemma diag_fold_entry (w : nat -> num) (ps : list (nat * num))
    (a : ndarray) (n i j : nat) :
  has_shape n n a -> i < n -> j < n ->
  (forall p, In p ps -> snd p = w (fst p)) ->
  entry (fold_left
           (fun acc p =>
              mtab (shape0 acc) (shape1 acc)
                   (fun i j => if (i =? fst p) && (j =? fst p)
                               then snd p else entry acc i j))
           ps a) i j
  = if (i =? j) && existsb (Nat.eqb i) (map fst ps)
    then w i else entry a i j.
Proof.
  intros Ha Hi Hj. revert a Ha.
  induction ps as [|p ps IH]; intros a Ha Hw; cbn [fold_left map existsb].
  - now rewrite andb_false_r.
  - destruct Ha as (E0 & E1 & Hwf).
    rewrite IH; [|rewrite E0, E1; apply has_shape_mtab
                 |intros q Hq; apply Hw; now right].
    rewrite E0, E1, entry_mtab by assumption.
    pose proof (Hw p (or_introl eq_refl)) as Hp.
    destruct (Nat.eqb_spec i j) as [<-|Hne]; cbn [andb].
    + destruct (existsb (Nat.eqb i) (map fst ps)); cbn [orb];
        [now rewrite orb_true_r|].
      rewrite orb_false_r, andb_diag.
      destruct (Nat.eqb_spec i (fst p)) as [->|]; [exact Hp|reflexivity].
    + destruct (Nat.eqb_spec i (fst p)) as [->|]; [|reflexivity].
      destruct (Nat.eqb_spec j (fst p)) as [->|]; [congruence|reflexivity].
Qed.

(** [a[idx, idx] = [w i for i in idx]] on a square array. *)
Lemma put_diag_gather (w : nat -> num) (a : ndarray) (idx : list nat)
    (n : nat) :
  has_shape n n a -> (forall i, In i idx -> i < n) ->
  exists a',
    put_diag a idx (map w idx) = Ok a' /\ has_shape n n a' /\
    forall i j, i < n -> j < n ->
      entry a' i j = if (i =? j) && existsb (Nat.eqb i) idx
                     then w i else entry a i j.
Proof.
  intros Ha Hr. unfold put_diag.
  rewrite length_map, Nat.eqb_refl. cbn [orb].
  assert (Hf : forallb (fun i => (i <? shape0 a) && (i <? shape1 a)) idx
               = true).
  { apply forallb_forall. intros i Hi. destruct Ha as (-> & -> & _).
    now rewrite (proj2 (Nat.ltb_lt _ _) (Hr i Hi)). }
  rewrite Hf. eexists. split; [reflexivity|].
  split; [now apply diag_fold_shape|].
  intros i j Hi Hj.
  rewrite (@diag_fold_entry w _ a n i j Ha Hi Hj).
  - now rewrite fst_combine_vtab.
  - intros p Hp. apply combine_vtab_in in Hp.
    destruct Hp as (k & Hk & -> & ->).
    rewrite bidx_lt by exact Hk. unfold vget.
    rewrite (nth_indep _ s0 (w 0)) by now rewrite length_map.
    apply map_nth.
Qed.

(** Writing the weights [w] on the diagonal at the indices [ix p] of
    every entry [p] of [l], one entry after the other. *)
Lemma diag_loop (w : nat -> num) (ix : model * list nat -> list nat)
    (body : model * list nat -> ndarray -> result ndarray)
    (l : list (model * list nat)) (n : nat) :
  (forall p acc, In p l -> body p acc = put_diag acc (ix p) (map w (ix p))) ->
  (forall p i, In p l -> In i (ix p) -> i < n) ->
  forall a, has_shape n n a ->
  exists r,
    for_each body l a = Ok r /\ has_shape n n r /\
    forall i j, i < n -> j < n ->
      entry r i j
      = if (i =? j) && existsb (fun p => existsb (Nat.eqb i) (ix p)) l
        then w i else entry a i j.
Proof.
  induction l as [|p l IH]; intros Hb Hr a Ha.
  - exists a. split; [reflexivity|]. split; [exact Ha|].
    intros i j _ _. cbn [existsb]. now rewrite andb_false_r.
  - cbn [for_each bind result_monad]. rewrite Hb by now left.
    destruct (@put_diag_gather w a (ix p) n Ha) as (a' & -> & Ha' & He).
    { intros i Hi. apply (Hr p); [now left|exact Hi]. }
    destruct (IH (fun q acc Hq => Hb q acc (or_intror Hq))
                 (fun q i Hq => Hr q i (or_intror Hq)) a' Ha')
      as (r & -> & Hshape & Hent).
    exists r. split; [reflexivity|]. split; [exact Hshape|].
    intros i j Hi Hj. rewrite Hent, He by assumption.
    cbn [existsb].
    destruct (i =? j); cbn [andb]; [|reflexivity].
    destruct (existsb (fun q => existsb (Nat.eqb i) (ix q)) l);
      [now rewrite orb_true_r|].
    now rewrite orb_false_r.
Qed.

Lemma entry_np_eye (n i j : nat) :
  i < n -> j < n -> entry (np_eye n n) i j = if i =? j then s1 else s0.
Proof. intros Hi Hj. unfold np_eye. now rewrite entry_mtab. Qed.

Lemma indexed_shifted (offset : nat) (d : dict (list nat)) (i : nat) :
  indexed (shifted offset d) i
  = existsb (fun p => existsb (Nat.eqb i)
                              (map (fun k => k + offset) (snd p))) d.
Proof.
  unfold indexed, shifted. induction d as [|p d IH]; [reflexivity|].
  cbn [map existsb snd]. now rewrite IH.
Qed.

End DiagFacts.

Section QuasistaticWeights.
Context {F : Scalar} {Sim : Quasistatic.QuasistaticSimulator}
        {SI : Quasistatic.SimulatorIndices}.

(** X8. When the dictionary holds, for every model, the weights [w] of the
    velocity indices of that model, the cost matrix is diagonal: [w i] at
    an index that some model names, 1 at every other index. *)
Theorem get_Q_from_Q_dict_diagonal
    (self : Quasistatic.QuasistaticDynamics) (Q_dict : dict vec)
    (w : nat -> num) :
  (forall p, In p Quasistatic.velocity_indices_dict ->
             dict_get Q_dict (fst p) = Ok (map w (snd p))) ->
  (forall p i, In p Quasistatic.velocity_indices_dict -> In i (snd p) ->
               i < Quasistatic.qd_dim_x self) ->
  exists Q,
    Quasistatic.get_Q_from_Q_dict self Q_dict = Ok Q /\
    has_shape (Quasistatic.qd_dim_x self) (Quasistatic.qd_dim_x self) Q /\
    forall i j,
      i < Quasistatic.qd_dim_x self -> j < Quasistatic.qd_dim_x self ->
      entry Q i j
      = if i =? j
        then if indexed Quasistatic.velocity_indices_dict i then w i else s1
        else s0.
Proof.
  intros Hq Hr. unfold Quasistatic.get_Q_from_Q_dict.
  destruct (@diag_loop _ w snd
              (fun (p : model * list nat) (Q : ndarray) =>
                 q <- dict_get Q_dict (fst p) ;; put_diag Q (snd p) q)
              Quasistatic.velocity_indices_dict
              (Quasistatic.qd_dim_x self))
    with (a := np_eye (Quasistatic.qd_dim_x self) (Quasistatic.qd_dim_x self))
    as (Q & Hrun & Hshape & Hent).
  - intros p acc Hp. now rewrite (Hq p Hp).
  - exact Hr.
  - apply has_shape_mtab.
  - exists Q. split; [exact Hrun|]. split; [exact Hshape|].
    intros i j Hi Hj. rewrite Hent, entry_np_eye by assumption.
    unfold indexed.
    destruct (i =? j); cbn [andb]; [|reflexivity].
    now destruct (existsb _ Quasistatic.velocity_indices_dict).
Qed.

End QuasistaticWeights.

Section MbpWeights.
Context {F : Scalar} {NP : NumpyLib} {D : Mbp.Drake} {DM : Mbp.DrakeModels}.

(** X12. The state cost matrix is diagonal. The first part of a model's
    weights goes to its position indices; the second part goes to its
    velocity indices moved up by [num_velocities]. *)
Theorem mbp_get_Q_from_Q_dict_diagonal (Q_dict : dict vec) (w : nat -> num) :
  (forall p, In p Mbp.position_indices ->
     exists q, dict_get Q_dict (fst p) = Ok q /\
               slice q 0 (length (snd p)) = map w (snd p)) ->
  (forall p, In p Mbp.velocity_indices ->
     exists q, dict_get Q_dict (fst p) = Ok q /\
               slice q (length (snd p)) (length q)
               = map w (map (fun i => i + Mbp.num_velocities) (snd p))) ->
  (forall p i, In p Mbp.position_indices -> In i (snd p) -> i < Mbp.dim_x) ->
  (forall p i, In p Mbp.velocity_indices -> In i (snd p) ->
               i + Mbp.num_velocities < Mbp.dim_x) ->
  exists Q,
    Mbp.get_Q_from_Q_dict Q_dict = Ok Q /\
    has_shape Mbp.dim_x Mbp.dim_x Q /\
    forall i j, i < Mbp.dim_x -> j < Mbp.dim_x ->
      entry Q i j
      = if i =? j
        then if indexed Mbp.position_indices i
                || indexed (shifted Mbp.num_velocities Mbp.velocity_indices) i
             then w i else s1
        else s0.
Proof.
  intros Hp Hv Hrp Hrv. unfold Mbp.get_Q_from_Q_dict.
  destruct (@diag_loop _ w snd
              (fun (p : model * list nat) (Q : ndarray) =>
                 q <- dict_get Q_dict (fst p) ;;
                 put_diag Q (snd p) (slice q 0 (length (snd p))))
              Mbp.position_indices Mbp.dim_x)
    with (a := np_eye Mbp.dim_x Mbp.dim_x)
    as (Q1 & Hrun1 & Hshape1 & Hent1).
  - intros p acc Hin. destruct (Hp p Hin) as (q & -> & E).
    cbn [bind result_monad]. now rewrite E.
  - exact Hrp.
  - apply has_shape_mtab.
  - destruct (@diag_loop _ w
                (fun p => map (fun i => i + Mbp.num_velocities) (snd p))
                (fun (p : model * list nat) (Q : ndarray) =>
                   q <- dict_get Q_dict (fst p) ;;
                   put_diag Q (map (fun i => i + Mbp.num_velocities) (snd p))
                            (slice q (length (snd p)) (length q)))
                Mbp.velocity_indices Mbp.dim_x)
      with (a := Q1)
      as (Q & Hrun & Hshape & Hent).
    + intros p acc Hin. destruct (Hv p Hin) as (q & -> & E).
      cbn [bind result_monad]. now rewrite E.
    + intros p i Hin Hi. apply in_map_iff in Hi.
      destruct Hi as (k & <- & Hk). now apply (Hrv p).
    + exact Hshape1.
    + exists Q. split.
      * run_loop Hrun1. exact Hrun.
      * split; [exact Hshape|]. intros i j Hi Hj.
        rewrite Hent, Hent1, entry_np_eye by assumption.
        rewrite indexed_shifted. unfold indexed.
        destruct (i =? j); cbn [andb]; [|reflexivity].
        destruct (existsb _ Mbp.velocity_indices); cbn [orb];
          [now rewrite orb_true_r|].
        rewrite orb_false_r.
        now destruct (existsb _ Mbp.position_indices).
Qed.

Lemma setblock_corner (a v r : ndarray) (n d : nat) :
  has_shape d d a ->
  setblock a 0 (0 + n) 0 (0 + n) v = Ok r ->
  has_shape d d r /\
  forall i j, i < d -> j < d -> n <= i \/ n <= j ->
              entry r i j = entry a i j.
Proof.
  intros (E0 & E1 & _) H. unfold setblock in H.
  destruct (_ && _); [|discriminate]. injection H as <-.
  rewrite E0, E1. split; [apply has_shape_mtab|].
  intros i j Hi Hj Hout. rewrite entry_mtab by assumption.
  unfold clip. cbn [Nat.add].
  replace (Nat.min d 0) with 0 by lia. cbn [Nat.max].
  replace (Nat.max 0 (Nat.min d n)) with (Nat.min d n) by lia.
  destruct (Nat.ltb_spec i (Nat.min d n)); [|now rewrite andb_false_r].
  destruct (Nat.ltb_spec j (Nat.min d n)); [lia|now rewrite andb_false_r].
Qed.

Lemma R_loop (R_dict : dict array) (l : list model) (d : nat) :
  forall a R,
    has_shape d d a ->
    for_each
      (fun m (R : ndarray) =>
         let n_v_i := Mbp.num_velocities_model m in
         r <- dict_get R_dict m ;;
         setblock R 0 (0 + n_v_i) 0 (0 + n_v_i) (as_2d r))
      l a = Ok R ->
    has_shape d d R /\
    forall i j, i < d -> j < d ->
      (forall m, In m l -> Mbp.num_velocities_model m <= i \/
                           Mbp.num_velocities_model m <= j) ->
      entry R i j = entry a i j.
Proof.
  induction l as [|m l IH]; intros a R Ha H.
  - cbn in H. injection H as <-. split; [exact Ha|reflexivity].
  - cbn [for_each bind result_monad] in H.
    destruct (dict_get R_dict m) as [r|]; [|discriminate].
    destruct (setblock a 0 (0 + Mbp.num_velocities_model m) 0
                (0 + Mbp.num_velocities_model m) (as_2d r))
      as [a'|] eqn:Es; [|discriminate].
    destruct (@setblock_corner _ _ _ _ _ Ha Es) as (Ha' & Hkeep).
    destruct (IH a' R Ha' H) as (HR & Hrest).
    split; [exact HR|]. intros i j Hi Hj Hout.
    rewrite Hrest by (try assumption; intros k Hk; apply Hout; now right).
    apply Hkeep; try assumption. apply Hout. now left.
Qed.

(** X13. The blocks of all actuated models are written at the top-left corner:
    the start index stays at 0. An entry whose row or column lies beyond
    the velocities of every actuated model is the one of the identity. *)
Theorem get_R_from_R_dict_top_left (R_dict : dict array) (R : ndarray) :
  Mbp.get_R_from_R_dict R_dict = Ok R ->
  has_shape Mbp.dim_u Mbp.dim_u R /\
  forall i j, i < Mbp.dim_u -> j < Mbp.dim_u ->
    (forall m, In m Mbp.models_actuated ->
               Mbp.num_velocities_model m <= i \/
               Mbp.num_velocities_model m <= j) ->
    entry R i j = if i =? j then s1 else s0.
Proof.
  intros H. unfold Mbp.get_R_from_R_dict in H.
  apply (@R_loop R_dict _ Mbp.dim_u) in H; [|apply has_shape_mtab].
  destruct H as (HR & Hent). split; [exact HR|].
  intros i j Hi Hj Hout. rewrite Hent by assumption.
  now apply entry_np_eye.
Qed.

End MbpWeights.
(* ------------------------------------------------------------------ *)
(** ** States of the plant and the configurations of its models        *)
(* ------------------------------------------------------------------ *)

Section MbpStates.
Context {F : Scalar} {NP : NumpyLib} {D : Mbp.Drake} {DM : Mbp.DrakeModels}.

Lemma slice_head {A : Type} (a b : list A) :
  slice (a ++ b) 0 (length a) = a.
Proof.
  unfold slice. rewrite skipn_O, Nat.sub_0_r, firstn_app, Nat.sub_diag.
  now rewrite firstn_O, app_nil_r, firstn_all.
Qed.

Lemma slice_tail {A : Type} (a b : list A) :
  slice (a ++ b) (length a) (length (a ++ b)) = b.
Proof.
  unfold slice. rewrite skipn_app, Nat.sub_diag, skipn_all, skipn_O.
  cbn [app]. rewrite length_app.
  replace (length a + length b - length a) with (length b) by lia.
  apply firstn_all.
Qed.

(** X11. A state of a plant with as many positions as velocities, taken apart
    into the configurations of the models and assembled again, is the
    state one started from. *)
Theorem mbp_x_round_trip (x : vec) :
  Mbp.num_positions = Mbp.num_velocities ->
  Mbp.velocity_indices = Mbp.position_indices ->
  NoDup (keys Mbp.position_indices) ->
  (forall p i, In p Mbp.position_indices -> In i (snd p) ->
               i < Mbp.num_positions) ->
  (forall i, i < Mbp.num_positions ->
             exists p, In p Mbp.position_indices /\ In i (snd p)) ->
  length x = Mbp.dim_x ->
  exists q_dict,
    Mbp.get_q_dict_from_x x = Ok q_dict /\
    Mbp.get_x_from_q_dict q_dict = Ok x.
Proof.
  intros Hnv Hvi Hnd Hr Hcover Hlen. unfold Mbp.dim_x in Hlen.
  set (w := fun p : model * list nat =>
              map (vget x) (snd p)
              ++ map (vget x) (map (fun i => i + Mbp.num_velocities) (snd p))).
  exists (fold_left (fun d p => dict_set d (fst p) (w p))
                    Mbp.position_indices []).
  split.
  - unfold Mbp.get_q_dict_from_x. apply build_loop. intros p d Hp.
    rewrite take_ok by (intros i Hi; specialize (Hr p i Hp Hi); lia).
    cbn [bind result_monad].
    rewrite take_ok; [reflexivity|].
    intros i Hi. apply in_map_iff in Hi. destruct Hi as (k & <- & Hk).
    specialize (Hr p k Hp Hk). lia.
  - unfold Mbp.get_x_from_q_dict. rewrite Hvi.
    assert (Hget : forall p, In p Mbp.position_indices ->
              dict_get (fold_left (fun d p => dict_set d (fst p) (w p))
                                  Mbp.position_indices []) (fst p)
              = Ok (w p)).
    { intros p Hp. now apply build_get. }
    destruct (@scatter_loop _ (vget x)
                (fun (p : model * list nat) (x0 : vec) =>
                   q <- dict_get
                          (fold_left (fun d p => dict_set d (fst p) (w p))
                                     Mbp.position_indices []) (fst p) ;;
                   put_at x0 (snd p) (slice q 0 (length (snd p))))
                Mbp.position_indices Mbp.num_positions)
      with (acc := np_zeros1 Mbp.num_positions)
      as (r1 & Hrun1 & Hl1 & Hcov1 & _).
    { intros p acc Hp _. rewrite (Hget p Hp). cbn [bind result_monad].
      unfold w.
      pose proof (slice_head (map (vget x) (snd p))
                    (map (vget x)
                       (map (fun i => i + Mbp.num_velocities) (snd p)))) as E.
      rewrite length_map in E. now rewrite E. }
    { exact Hr. }
    { apply length_vtab. }
    destruct (@scatter_loop _ (fun j => vget x (j + Mbp.num_velocities))
                (fun (p : model * list nat) (v : vec) =>
                   q <- dict_get
                          (fold_left (fun d p => dict_set d (fst p) (w p))
                                     Mbp.position_indices []) (fst p) ;;
                   put_at v (snd p) (slice q (length (snd p)) (length q)))
                Mbp.position_indices Mbp.num_velocities)
      with (acc := np_zeros1 Mbp.num_velocities)
      as (r2 & Hrun2 & Hl2 & Hcov2 & _).
    { intros p acc Hp _. rewrite (Hget p Hp). cbn [bind result_monad].
      unfold w.
      pose proof (slice_tail (map (vget x) (snd p))
                    (map (vget x)
                       (map (fun i => i + Mbp.num_velocities) (snd p)))) as E.
      rewrite length_map in E. now rewrite E, map_map. }
    { intros p i Hp Hi. rewrite <- Hnv. now apply (Hr p). }
    { apply length_vtab. }
    run_loop Hrun1. run_loop Hrun2. f_equal. unfold np_hstack1.
    apply (nth_ext _ _ s0 s0); [rewrite length_app; lia|].
    intros j Hj. rewrite length_app in Hj.
    destruct (Nat.lt_ge_cases j (length r1)) as [Hlt|Hge].
    + rewrite app_nth1 by exact Hlt. apply Hcov1, Hcover. lia.
    + rewrite app_nth2 by exact Hge.
      change (nth (j - length r1) r2 s0) with (vget r2 (j - length r1)).
      rewrite Hcov2.
      * unfold vget. f_equal. lia.
      * apply Hcover. lia.
Qed.

End MbpStates.
(* ------------------------------------------------------------------ *)
(** ** What the estimators do to the adapter                           *)
(* ------------------------------------------------------------------ *)

Section FrameFacts.
Context {S T : Type}.

Lemma for_each_iter {I Acc : Type} (proj : S -> T) (f : T -> T)
    (body : I -> Acc -> M S Acc) (l : list I) :
  (forall i acc s acc' s', body i acc s = Ok (acc', s') ->
                           proj s' = f (proj s)) ->
  forall acc s r s',
    for_each body l acc s = Ok (r, s') ->
    proj s' = Nat.iter (length l) f (proj s).
Proof.
  intros Hb. induction l as [|i l IH]; intros acc s r s' H.
  - cbn in H. now injection H as _ <-.
  - cbn [for_each] in H. bind_inv H.
    rewrite (IH _ _ _ _ H), (Hb _ _ _ _ _ E).
    cbn [length]. now rewrite Nat.iter_succ_r.
Qed.

Lemma for_each_keep {I Acc : Type} (proj : S -> T)
    (body : I -> Acc -> M S Acc) (l : list I) :
  (forall i acc s acc' s', body i acc s = Ok (acc', s') ->
                           proj s' = proj s) ->
  forall acc s r s',
    for_each body l acc s = Ok (r, s') -> proj s' = proj s.
Proof.
  intros Hb. induction l as [|i l IH]; intros acc s r s' H.
  - cbn in H. now injection H as _ <-.
  - cbn [for_each] in H. bind_inv H.
    now rewrite (IH _ _ _ _ H), (Hb _ _ _ _ _ E).
Qed.

Lemma ret_inv {A : Type} (a b : A) (s s' : S) :
  ret a s = Ok (b, s') -> b = a /\ s' = s.
Proof. cbn. intros H. now injection H as <- <-. Qed.

End FrameFacts.

(** Steps that do not touch the state. *)
Ltac lift_steps :=
  repeat match goal with
         | E : lift _ _ = Ok (_, _) |- _ =>
             apply lift_inv in E; destruct E as [_ ->]
         end.

Section MbpFrames.
Context {F : Scalar} {NP : NumpyLib} {D : Mbp.Drake}.

Lemma jacobian_xu_frame (x u : vec) (s s' : Mbp.MbpState) (J : ndarray) :
  Mbp.jacobian_xu x u s = Ok (J, s') ->
  Mbp.simulator_time_ad s' = sadd (Mbp.simulator_time_ad s) Mbp.h /\
  Mbp.simulator_time s' = Mbp.simulator_time s /\
  Mbp.context s' = Mbp.context s /\
  Mbp.np_random s' = Mbp.np_random s.
Proof.
  unfold Mbp.jacobian_xu. cbn.
  destruct (Mbp.get_q_a_cmd_dict_from_u _) as [qa|e]; cbn; [|discriminate].
  destruct (Mbp.update_mbp_inputs _ _ qa) as [c|e]; cbn; [|discriminate].
  intros H. inversion H; subst; clear H. cbn. auto.
Qed.

Lemma with_random_frame {A : Type} (c : M RandomState A)
    (s s' : Mbp.MbpState) (a : A) :
  Mbp.with_random c s = Ok (a, s') ->
  Mbp.simulator_time s' = Mbp.simulator_time s /\
  Mbp.simulator_time_ad s' = Mbp.simulator_time_ad s /\
  Mbp.context s' = Mbp.context s /\
  Mbp.context_ad s' = Mbp.context_ad s.
Proof.
  unfold Mbp.with_random.
  destruct (c (Mbp.np_random s)) as [[a' g]|e]; [|discriminate].
  intros H. inversion H; subst; clear H. cbn. auto.
Qed.

(** One step of a loop [x_next[i] = self.dynamics(x_i, u_i)]. *)
Lemma dynamics_row_frame (xi ui : nat -> result vec) (i : nat)
    (acc acc' : ndarray) (s s' : Mbp.MbpState) :
  (x_i <- lift (xi i) ;;
   u_i <- lift (ui i) ;;
   y <- Mbp.dynamics x_i u_i false ;;
   lift (setitem acc i y)) s = Ok (acc', s') ->
  Mbp.simulator_time s' = sadd (Mbp.simulator_time s) Mbp.h /\
  Mbp.simulator_time_ad s' = Mbp.simulator_time_ad s /\
  Mbp.context_ad s' = Mbp.context_ad s /\
  Mbp.np_random s' = Mbp.np_random s.
Proof.
  intros H. do 3 bind_inv H.
  apply lift_inv in H. destruct H as [_ ->]. lift_steps.
  match goal with
  | E : Mbp.dynamics _ _ _ _ = Ok _ |- _ =>
      exact (dynamics_advances_clock _ _ _ _ E)
  end.
Qed.

(** X15. A batch of [B] transitions advances the clock of the simulator [B]
    times by [h]; the automatic-differentiation simulator and the random
    source are left as they were. *)
Theorem dynamics_batch_clock (x u : ndarray) (s s' : Mbp.MbpState)
    (x_next : ndarray) :
  Mbp.dynamics_batch x u s = Ok (x_next, s') ->
  Mbp.simulator_time s'
    = Nat.iter (shape0 x) (fun t => sadd t Mbp.h) (Mbp.simulator_time s) /\
  Mbp.simulator_time_ad s' = Mbp.simulator_time_ad s /\
  Mbp.context_ad s' = Mbp.context_ad s /\
  Mbp.np_random s' = Mbp.np_random s.
Proof.
  unfold Mbp.dynamics_batch, for_range. intros H.
  pose proof (fun i acc s acc' s' =>
                @dynamics_row_frame (getitem x) (getitem u) i acc acc' s s')
    as Hb.
  split; [|split; [|split]].
  - etransitivity;
      [apply (for_each_iter Mbp.simulator_time (fun t => sadd t Mbp.h) _ _
                (fun i acc s acc' s' E => proj1 (Hb i acc s acc' s' E))
                _ _ H)|].
    now rewrite length_seq.
  - apply (for_each_keep Mbp.simulator_time_ad _ _
             (fun i acc s acc' s' E => proj1 (proj2 (Hb i acc s acc' s' E)))
             _ _ H).
  - apply (for_each_keep Mbp.context_ad _ _
             (fun i acc s acc' s' E =>
                proj1 (proj2 (proj2 (Hb i acc s acc' s' E))))
             _ _ H).
  - apply (for_each_keep Mbp.np_random _ _
             (fun i acc s acc' s' E =>
                proj2 (proj2 (proj2 (Hb i acc s acc' s' E))))
             _ _ H).
Qed.

(** X17. The first-order estimate takes [n_samples] gradients and never runs
    the plain simulator: the automatic-differentiation clock advances
    [n_samples] times by [h], the plain context and clock are left as
    they were. *)
Theorem first_order_uses_only_autodiff (x u : vec) (n : nat) (std_u : std)
    (s s' : Mbp.MbpState) (AB : ndarray) :
  Mbp.calc_AB_first_order x u n std_u s = Ok (AB, s') ->
  Mbp.simulator_time_ad s'
    = Nat.iter n (fun t => sadd t Mbp.h) (Mbp.simulator_time_ad s) /\
  Mbp.simulator_time s' = Mbp.simulator_time s /\
  Mbp.context s' = Mbp.context s.
Proof.
  unfold Mbp.calc_AB_first_order, for_range. intros H.
  do 2 bind_inv H. apply ret_inv in H. destruct H as [_ ->].
  apply with_random_frame in E. destruct E as (T1 & T2 & C1 & _).
  assert (Hb : forall i acc s acc' s',
            (du_i <- lift (getitem a i) ;;
             u_i <- lift (ufunc1 sadd u du_i) ;;
             J <- Mbp.jacobian_xu x u_i ;;
             lift (iadd acc J)) s = Ok (acc', s') ->
            Mbp.simulator_time_ad s' = sadd (Mbp.simulator_time_ad s) Mbp.h /\
            Mbp.simulator_time s' = Mbp.simulator_time s /\
            Mbp.context s' = Mbp.context s).
  { intros i acc t acc' t' Hi. do 3 bind_inv Hi.
    apply lift_inv in Hi. destruct Hi as [_ ->]. lift_steps.
    match goal with
    | E : Mbp.jacobian_xu _ _ _ = Ok _ |- _ =>
        apply jacobian_xu_frame in E; tauto
    end. }
  split; [|split].
  - rewrite <- T2. etransitivity;
      [apply (for_each_iter Mbp.simulator_time_ad (fun t => sadd t Mbp.h) _ _
                (fun i acc s acc' s' E => proj1 (Hb i acc s acc' s' E))
                _ _ E0)|].
    now rewrite length_seq.
  - rewrite <- T1.
    apply (for_each_keep Mbp.simulator_time _ _
             (fun i acc s acc' s' E => proj1 (proj2 (Hb i acc s acc' s' E)))
             _ _ E0).
  - rewrite <- C1.
    apply (for_each_keep Mbp.context _ _
             (fun i acc s acc' s' E => proj2 (proj2 (Hb i acc s acc' s' E)))
             _ _ E0).
Qed.

(** X18. The zero-order joint estimate takes no gradient: it runs the plain
    simulator once at the nominal pair and once per sample, and leaves
    the automatic-differentiation context and clock as they were. *)
Theorem zero_order_uses_no_autodiff (x u : vec) (n : nat)
    (std_u std_x : std) (damp : num) (s s' : Mbp.MbpState) (AB : ndarray) :
  Mbp.calc_AB_zero_order x u n std_u std_x damp s = Ok (AB, s') ->
  Mbp.simulator_time s'
    = Nat.iter (S n) (fun t => sadd t Mbp.h) (Mbp.simulator_time s) /\
  Mbp.simulator_time_ad s' = Mbp.simulator_time_ad s /\
  Mbp.context_ad s' = Mbp.context_ad s.
Proof.
  unfold Mbp.calc_AB_zero_order, for_range. intros H.
  do 4 bind_inv H.
  apply with_random_frame in E. destruct E as (T1 & T2 & _ & C1).
  apply with_random_frame in E0. destruct E0 as (T3 & T4 & _ & C2).
  apply dynamics_advances_clock in E1. destruct E1 as (T5 & T6 & C3 & _).
  do 6 bind_inv H. lift_steps.
  apply ret_inv in H. destruct H as [_ ->].
  assert (Hb : forall i acc s acc' s',
            (dx_i <- lift (getitem a i) ;;
             x_i <- lift (ufunc1 sadd x dx_i) ;;
             du_i <- lift (getitem a0 i) ;;
             u_i <- lift (ufunc1 sadd u du_i) ;;
             y <- Mbp.dynamics x_i u_i false ;;
             lift (setitem acc i y)) s = Ok (acc', s') ->
            Mbp.simulator_time s' = sadd (Mbp.simulator_time s) Mbp.h /\
            Mbp.simulator_time_ad s' = Mbp.simulator_time_ad s /\
            Mbp.context_ad s' = Mbp.context_ad s).
  { intros i acc t acc' t' Hi. do 5 bind_inv Hi.
    apply lift_inv in Hi. destruct Hi as [_ ->]. lift_steps.
    match goal with
    | E : Mbp.dynamics _ _ _ _ = Ok _ |- _ =>
        apply dynamics_advances_clock in E; tauto
    end. }
  split; [|split].
  - etransitivity;
      [apply (for_each_iter Mbp.simulator_time (fun t => sadd t Mbp.h) _ _
                (fun i acc s acc' s' E => proj1 (Hb i acc s acc' s' E))
                _ _ E2)|].
    rewrite length_seq, Nat.iter_succ_r. congruence.
  - etransitivity;
      [apply (for_each_keep Mbp.simulator_time_ad _ _
                (fun i acc s acc' s' E =>
                   proj1 (proj2 (Hb i acc s acc' s' E)))
                _ _ E2)|].
    congruence.
  - etransitivity;
      [apply (for_each_keep Mbp.context_ad _ _
                (fun i acc s acc' s' E =>
                   proj2 (proj2 (Hb i acc s acc' s' E)))
                _ _ E2)|].
    congruence.
Qed.

Lemma mdiv_zeros (r c : nat) (k : num) :
  mdiv_scalar (np_zeros r c) k = mtab r c (fun _ _ => sdiv s0 k).
Proof.
  unfold mdiv_scalar.
  change (shape0 (np_zeros r c)) with r.
  change (shape1 (np_zeros r c)) with c.
  apply mtab_ext. intros i j Hi Hj. unfold np_zeros.
  now rewrite entry_mtab.
Qed.

Lemma draw_nothing (scale : std) (c : nat) (s : Mbp.MbpState) :
  Mbp.std_ok scale c ->
  Mbp.with_random (np_random_normal s0 scale 0 c) s = Ok (NdArray 0 c [], s).
Proof.
  intros Hstd. unfold Mbp.with_random, np_random_normal.
  destruct scale as [k|v]; cbn [draw_rows].
  - now destruct s.
  - cbn in Hstd.
    assert (E : (length v =? c) || (length v =? 1) = true).
    { apply orb_true_iff. rewrite !Nat.eqb_eq. exact Hstd. }
    rewrite E. now destruct s.
Qed.


End MbpFrames.
(* ------------------------------------------------------------------ *)
(** ** Batches of linearizations                                       *)
(* ------------------------------------------------------------------ *)

Section SlabFacts.
Context {F : Scalar} {NP : NumpyLib} {S : Type}.

Lemma setitem3_exact (acc : ndarray3) (i : nat) (J : ndarray) :
  i < shape3_0 acc -> has_shape (shape3_1 acc) (shape3_2 acc) J ->
  setitem3 acc i J
  = Ok (NdArray3 (shape3_0 acc) (shape3_1 acc) (shape3_2 acc)
          (firstn i (slabs acc) ++ J :: skipn (Datatypes.S i) (slabs acc))).
Proof.
  intros Hi (E0 & E1 & Hwf). unfold setitem3.
  destruct (Nat.ltb_spec i (shape3_0 acc)) as [_|]; [|lia].
  rewrite setblock_exact; cbn [np_zeros mtab shape0 shape1]; try lia.
  rewrite result_bind_ok. cbn [ret result_monad]. do 4 f_equal.
  transitivity (mtab (shape3_1 acc) (shape3_2 acc) (entry J)).
  - apply mtab_ext. intros a b Ha Hb. rewrite !Nat.sub_0_r.
    destruct (Nat.ltb_spec a (shape3_1 acc)); [|lia].
    destruct (Nat.ltb_spec b (shape3_2 acc)); [|lia]. reflexivity.
  - rewrite <- E0, <- E1. symmetry. now apply mtab_eta.
Qed.

Lemma fill_slabs_from (f : nat -> M S ndarray) (n r c : nat) :
  (forall i s J s', f i s = Ok (J, s') -> has_shape r c J) ->
  forall (m k : nat) (done : list ndarray) (s : S),
    k + m = n -> length done = k ->
    for_each (fun i acc => J <- f i ;; lift (setitem3 acc i J))
             (seq k m)
             (NdArray3 n r c (done ++ repeat (np_zeros r c) (n - k))) s
    = (Js <- map_m f (seq k m) ;; ret (NdArray3 n r c (done ++ Js))) s.
Proof.
  intros Hf. induction m as [|m IH]; intros k done s Hk Hl.
  - cbn. replace (n - k) with 0 by lia. reflexivity.
  - cbn. destruct (f k s) as [[J s1]|e] eqn:E; [|reflexivity].
    pose proof (Hf _ _ _ _ E) as HJ.
    unfold lift at 1.
    rewrite setitem3_exact; [|cbn [shape3_0]; lia|exact HJ].
    cbn [shape3_0 shape3_1 shape3_2 slabs].
    assert (Hrows :
      firstn k (done ++ repeat (np_zeros r c) (n - k)) ++
      J :: skipn (Datatypes.S k) (done ++ repeat (np_zeros r c) (n - k))
      = (done ++ [J]) ++ repeat (np_zeros r c) (n - Datatypes.S k)).
    { rewrite firstn_app, skipn_app, Hl, Nat.sub_diag.
      rewrite firstn_all2 by lia. rewrite (skipn_all2 done) by lia.
      replace (Datatypes.S k - k) with 1 by lia.
      replace (n - k) with (Datatypes.S (n - Datatypes.S k)) by lia.
      cbn [repeat]. rewrite firstn_O, skipn_cons, skipn_O.
      rewrite app_nil_r, <- app_assoc. reflexivity. }
    rewrite Hrows.
    specialize (IH (Datatypes.S k) (done ++ [J]) s1).
    cbn in IH. rewrite IH.
    + destruct (map_m f (seq (Datatypes.S k) m) s1) as [[Js s2]|e];
        [|reflexivity].
      now rewrite <- app_assoc.
    + lia.
    + rewrite length_app. simpl. lia.
Qed.

End SlabFacts.

Section MbpBatch.
Context {F : Scalar} {NP : NumpyLib} {D : Mbp.Drake}.

Lemma getitem_inv (a : ndarray) (i : nat) (v : vec) :
  getitem a i = Ok v -> i < shape0 a /\ v = row a i.
Proof.
  unfold getitem. destruct (Nat.ltb_spec i (shape0 a)); [|discriminate].
  intros E. injection E as <-. now split.
Qed.

(** The loop of [calc_AB_batch] over a fresh array of zeros, for an
    estimator that returns linearizations. *)
Lemma batch_loop_elementwise (calc : vec -> vec -> M Mbp.MbpState ndarray)
    (xs us : ndarray) (n : nat) (s : Mbp.MbpState) :
  (forall x u s, length x = Mbp.dim_x -> length u = Mbp.dim_u ->
     exists ab s', calc x u s = Ok (ab, s') /\
                   has_shape Mbp.dim_x (Mbp.dim_x + Mbp.dim_u) ab) ->
  has_shape n Mbp.dim_x xs -> has_shape n Mbp.dim_u us ->
  for_range n
    (fun i ABhat_list =>
       x_i <- lift (getitem xs i) ;;
       u_i <- lift (getitem us i) ;;
       AB <- calc x_i u_i ;;
       lift (setitem3 ABhat_list i AB))
    (np_zeros3 n Mbp.dim_x (Mbp.dim_x + Mbp.dim_u)) s
  = (Js <- map_m (fun i => calc (row xs i) (row us i)) (seq 0 n) ;;
     ret (NdArray3 n Mbp.dim_x (Mbp.dim_x + Mbp.dim_u) Js)) s.
Proof.
  intros Hcalc (X0 & X1 & Xw) (U0 & U1 & Uw). unfold for_range.
  set (f := fun i => x_i <- lift (getitem xs i) ;;
                     u_i <- lift (getitem us i) ;;
                     calc x_i u_i).
  rewrite (for_each_ext _ (fun i acc => J <- f i ;; lift (setitem3 acc i J))).
  - assert (Hf : forall i t J t', f i t = Ok (J, t') ->
              has_shape Mbp.dim_x (Mbp.dim_x + Mbp.dim_u) J).
    { intros i t J t' H. unfold f in H. do 2 bind_inv H.
      repeat match goal with
             | E : lift _ _ = Ok (_, _) |- _ =>
                 apply lift_inv in E; destruct E as [E ->];
                 apply getitem_inv in E; destruct E as [? ->]
             end.
      destruct (Hcalc (row xs i) (row us i) t) as (ab & t2 & Ec & Hab).
      - rewrite <- X1. apply wf_row_length; [exact Xw|assumption].
      - rewrite <- U1. apply wf_row_length; [exact Uw|assumption].
      - rewrite Ec in H. injection H as <- _. exact Hab. }
    pose proof (@fill_slabs_from _ _ f n Mbp.dim_x (Mbp.dim_x + Mbp.dim_u)
                  Hf n 0 [] s ltac:(lia) eq_refl) as L.
    rewrite Nat.sub_0_r in L. cbn [app] in L.
    etransitivity; [exact L|]. cbn [bind M_monad].
    rewrite (map_m_ext f (fun i => calc (row xs i) (row us i)));
      [reflexivity|].
    intros i t Hi. apply in_seq in Hi. unfold f.
    rewrite (lift_bind_ok _ _ (@getitem_ok _ xs i ltac:(lia))).
    now rewrite (lift_bind_ok _ _ (@getitem_ok _ us i ltac:(lia))).
  - intros i acc t _. unfold f. cbn.
    destruct (lift (getitem xs i) t) as [[xi t1]|]; [|reflexivity].
    destruct (lift (getitem us i) t1) as [[ui t2]|]; reflexivity.
Qed.

(** X20. In each of its four modes [calc_AB_batch] returns the results of the
    estimator of that mode on the rows of the batch, called in the order
    of the rows on the adapter that the previous call left behind; the
    joint zero-order estimator runs with its default [std_x] and [damp]. *)
Theorem calc_AB_batch_elementwise (xs us : ndarray) (n k : nat)
    (std_u : std) (mode : string)
    (calc : vec -> vec -> M Mbp.MbpState ndarray) (s : Mbp.MbpState) :
  In (mode, calc)
     [("first_order"%string,
       fun x u => Mbp.calc_AB_first_order x u k std_u);
      ("zero_order_B"%string,
       fun x u => Mbp.calc_B_zero_order x u k std_u);
      ("zero_order_AB"%string,
       fun x u => Mbp.calc_AB_zero_order x u k std_u
                    Mbp.default_std_x Mbp.default_damp);
      ("exact"%string, fun x u => Mbp.calc_AB_exact x u)] ->
  Mbp.dynamics_contract -> Mbp.jacobian_contract ->
  Mbp.std_ok std_u Mbp.dim_u ->
  has_shape n Mbp.dim_x xs -> has_shape n Mbp.dim_u us ->
  Mbp.calc_AB_batch xs us k std_u mode s
  = (Js <- map_m (fun i => calc (row xs i) (row us i)) (seq 0 n) ;;
     ret (NdArray3 n Mbp.dim_x (Mbp.dim_x + Mbp.dim_u) Js)) s.
Proof.
  intros Hmode Hdyn Hjac Hstd Hxs Hus.
  pose proof Hxs as (X0 & _).
  destruct Hmode as [E|[E|[E|[E|[]]]]]; injection E as <- <-;
    unfold Mbp.calc_AB_batch; rewrite X0;
    cbn [String.eqb Ascii.eqb Bool.eqb andb];
    apply batch_loop_elementwise; try assumption.
  - now apply calc_AB_first_order_total.
  - now apply calc_B_zero_order_total.
  - apply calc_AB_zero_order_total; try assumption. exact I.
Qed.

(** X16. On batches of the plant's dimensions the batch of transitions is the
    sequence of single transitions on the rows, each run on the adapter
    that the previous one left behind. *)
Theorem mbp_dynamics_batch_elementwise (xs us : ndarray) (n : nat)
    (s : Mbp.MbpState) :
  Mbp.dynamics_contract ->
  has_shape n Mbp.dim_x xs -> has_shape n Mbp.dim_u us ->
  Mbp.dynamics_batch xs us s
  = (rows <- map_m (fun i => Mbp.dynamics (row xs i) (row us i) false)
                   (seq 0 n) ;;
     ret (NdArray n Mbp.dim_x rows)) s.
Proof.
  intros Hdyn (X0 & X1 & Xw) (U0 & U1 & Uw).
  unfold Mbp.dynamics_batch. rewrite X0.
  set (f := fun i => x_i <- lift (getitem xs i) ;;
                     u_i <- lift (getitem us i) ;;
                     Mbp.dynamics x_i u_i false).
  assert (Hf : forall i t y t', f i t = Ok (y, t') -> length y = Mbp.dim_x).
  { intros i t y t' H. unfold f in H. do 2 bind_inv H.
    repeat match goal with
           | E : lift _ _ = Ok (_, _) |- _ =>
               apply lift_inv in E; destruct E as [E ->];
               apply getitem_inv in E; destruct E as [? ->]
           end.
    destruct (Hdyn (row xs i) (row us i) false t) as (y' & t2 & Ed & Hy).
    - rewrite <- X1. apply wf_row_length; [exact Xw|assumption].
    - rewrite <- U1. apply wf_row_length; [exact Uw|assumption].
    - rewrite Ed in H. injection H as <- _. exact Hy. }
  transitivity
    (for_range n (fun i acc => y <- f i ;; lift (setitem acc i y))
               (np_zeros n Mbp.dim_x) s).
  - unfold for_range. apply for_each_ext. intros i acc t _. unfold f. cbn.
    destruct (lift (getitem xs i) t) as [[xi t1]|]; [|reflexivity].
    destruct (lift (getitem us i) t1) as [[ui t2]|]; reflexivity.
  - rewrite (@fill_rows _ _ f n Mbp.dim_x Hf). cbn [bind M_monad].
    rewrite (map_m_ext f (fun i => Mbp.dynamics (row xs i) (row us i) false));
      [reflexivity|].
    intros i t Hi. apply in_seq in Hi. unfold f.
    rewrite (lift_bind_ok _ _ (@getitem_ok _ xs i ltac:(lia))).
    now rewrite (lift_bind_ok _ _ (@getitem_ok _ us i ltac:(lia))).
Qed.

Lemma M_bind_raise {St A B : Type} (c : M St A) (k : A -> M St B)
    (s : St) (e : exn) :
  c s = Raise e -> bind c k s = Raise e.
Proof. cbn. now intros ->. Qed.

Lemma batch_loop_short (calc : vec -> vec -> M Mbp.MbpState ndarray)
    (xs us : ndarray) (n m : nat) :
  (forall x u s, length x = Mbp.dim_x -> length u = Mbp.dim_u ->
     exists ab s', calc x u s = Ok (ab, s') /\
                   has_shape Mbp.dim_x (Mbp.dim_x + Mbp.dim_u) ab) ->
  has_shape n Mbp.dim_x xs -> has_shape m Mbp.dim_u us -> m < n ->
  forall (j k : nat) (acc : ndarray3) (s : Mbp.MbpState),
    k + j = m -> Mbp.batch_shape n acc ->
    for_each
      (fun i ABhat_list =>
         x_i <- lift (getitem xs i) ;;
         u_i <- lift (getitem us i) ;;
         AB <- calc x_i u_i ;;
         lift (setitem3 ABhat_list i AB))
      (seq k (n - k)) acc s
    = Raise IndexError.
Proof.
  intros Hcalc (X0 & X1 & Xw) (U0 & U1 & Uw) Hmn.
  induction j as [|j IH]; intros k acc s Hk Hacc.
  - replace (n - k) with (S (n - S k)) by lia. cbn [seq for_each].
    apply M_bind_raise.
    rewrite (lift_bind_ok _ _ (@getitem_ok _ xs k ltac:(lia))).
    apply M_bind_raise. unfold lift, getitem.
    destruct (Nat.ltb_spec k (shape0 us)); [lia|reflexivity].
  - replace (n - k) with (S (n - S k)) by lia. cbn [seq for_each].
    destruct (Hcalc (row xs k) (row us k) s) as (ab & s1 & E & Hab).
    { rewrite <- X1. apply wf_row_length; [assumption|lia]. }
    { rewrite <- U1. apply wf_row_length; [assumption|lia]. }
    destruct (@setitem3_ok _ _ acc n k ab Hacc ltac:(lia) Hab)
      as (acc' & E' & Hacc').
    assert (Ebody :
      (x_i <- lift (getitem xs k) ;;
       u_i <- lift (getitem us k) ;;
       AB <- calc x_i u_i ;;
       lift (setitem3 acc k AB)) s = Ok (acc', s1)).
    { rewrite (lift_bind_ok _ _ (@getitem_ok _ xs k ltac:(lia))).
      rewrite (lift_bind_ok _ _ (@getitem_ok _ us k ltac:(lia))).
      run_bind E. now apply lift_ok. }
    run_bind Ebody. apply IH; [lia|exact Hacc'].
Qed.


Lemma bad_std_draw (v : vec) (r c : nat) (s : Mbp.MbpState) :
  length v <> c -> length v <> 1 ->
  Mbp.with_random (np_random_normal s0 (StdArray v) r c) s
  = Raise ValueError.
Proof.
  intros H1 H2. unfold Mbp.with_random, np_random_normal.
  destruct (Nat.eqb_spec (length v) c); [contradiction|].
  destruct (Nat.eqb_spec (length v) 1); [contradiction|]. reflexivity.
Qed.

Lemma float_std_draw (k : num) (r c : nat) (s : Mbp.MbpState) :
  exists d s', Mbp.with_random (np_random_normal s0 (StdFloat k) r c) s
               = Ok (d, s').
Proof.
  unfold Mbp.with_random, np_random_normal.
  destruct (draw_rows s0 (repeat k c) r (Mbp.np_random s)) as [d g].
  now eexists; eexists.
Qed.

(** X22. An array of standard deviations that cannot be broadcast to the
    controls is rejected with [ValueError] by the first sampling call,
    before any simulation; on an empty batch no sampling call is made and
    the empty result is returned. *)
Theorem calc_AB_batch_bad_std (xs us : ndarray) (k : nat) (v : vec)
    (mode : string) (s : Mbp.MbpState) :
  In mode ["first_order"; "zero_order_AB"]%string ->
  length v <> Mbp.dim_u -> length v <> 1 ->
  (0 < shape0 xs -> 0 < shape0 us ->
   Mbp.calc_AB_batch xs us k (StdArray v) mode s = Raise ValueError) /\
  (shape0 xs = 0 ->
   Mbp.calc_AB_batch xs us k (StdArray v) mode s
   = Ok (np_zeros3 0 Mbp.dim_x (Mbp.dim_x + Mbp.dim_u), s)).
Proof.
  intros Hmode H1 H2. split.
  - intros Hx Hu.
    destruct (shape0 xs) as [|n] eqn:En; [lia|].
    destruct Hmode as [<-|[<-|[]]];
      unfold Mbp.calc_AB_batch, for_range; rewrite En;
      cbn [String.eqb Ascii.eqb Bool.eqb andb seq for_each];
      apply M_bind_raise;
      rewrite (lift_bind_ok _ _ (@getitem_ok _ xs 0 ltac:(lia)));
      rewrite (lift_bind_ok _ _ (@getitem_ok _ us 0 ltac:(lia)));
      apply M_bind_raise.
    + unfold Mbp.calc_AB_first_order. apply M_bind_raise.
      now apply bad_std_draw.
    + unfold Mbp.calc_AB_zero_order, Mbp.default_std_x.
      destruct (@float_std_draw (sdiv s1 (of_int 1000)) k Mbp.dim_x s)
        as (dx & s' & E).
      run_bind E. apply M_bind_raise. now apply bad_std_draw.
  - intros En.
    destruct Hmode as [<-|[<-|[]]];
      unfold Mbp.calc_AB_batch, for_range; rewrite En; reflexivity.
Qed.

End MbpBatch.
(* ------------------------------------------------------------------ *)
(** ** The pendulum: bounds, broadcasting and the symbolic Jacobian    *)
(* ------------------------------------------------------------------ *)

Section PendulumEdges.
Context {F : Scalar} {T : Trig F}.

Lemma dynamics_np_cases (self : Pendulum.PendulumDynamics) (x u : vec) :
  (exists y, Pendulum.dynamics_np self x u = Ok y) \/
  Pendulum.dynamics_np self x u = Raise IndexError.
Proof.
  destruct x as [|a [|b x]]; destruct u as [|c u]; cbn;
    try (now right); left; now eexists.
Qed.

(** X23. [dynamics_np] reads [x[0]], [x[1]] and [u[0]] and nothing else:
    further entries are ignored, a missing one is an [IndexError]. *)
Theorem dynamics_np_reads_three (self : Pendulum.PendulumDynamics)
    (x u : vec) :
  (2 <= length x -> 1 <= length u ->
   Pendulum.dynamics_np self x u
     = Pendulum.dynamics_np self (firstn 2 x) (firstn 1 u) /\
   exists y, Pendulum.dynamics_np self x u = Ok y /\ length y = 2) /\
  (length x < 2 \/ length u < 1 ->
   Pendulum.dynamics_np self x u = Raise IndexError).
Proof.
  destruct x as [|a [|b x]]; destruct u as [|c u]; cbn; split;
    try (intros; lia); try (intros; reflexivity).
  intros _ _. split; [reflexivity|]. now eexists.
Qed.

Lemma ufunc1_bdim (op : num -> num -> num) (a b : vec) (n : nat) :
  bdim (length a) (length b) = Some n ->
  exists v, ufunc1 op a b = Ok v /\ length v = n /\
            forall i, i < n ->
              vget v i = op (vget a (bidx (length a) i))
                            (vget b (bidx (length b) i)).
Proof.
  intros E. unfold ufunc1. rewrite E. eexists. split; [reflexivity|].
  split; [apply length_vtab|]. intros i Hi. now rewrite vget_vtab.
Qed.

Lemma bdim_cases (a b : nat) :
  (bdim a b = None /\ a <> b /\ a <> 1 /\ b <> 1) \/
  (exists n, bdim a b = Some n /\
             (a = n \/ a = 1) /\ (b = n \/ b = 1) /\ (a = n \/ b = n)).
Proof.
  unfold bdim.
  destruct (Nat.eqb_spec a b) as [->|Hab];
    [right; exists b; intuition|].
  destruct (Nat.eqb_spec a 1) as [->|Ha];
    [right; exists b; intuition|].
  destruct (Nat.eqb_spec b 1) as [->|Hb];
    [right; exists a; intuition|].
  left. intuition.
Qed.

Lemma bdim_into (a n : nat) : a = n \/ a = 1 -> bdim a n = Some n.
Proof.
  intros [-> | ->]; unfold bdim.
  - now rewrite Nat.eqb_refl.
  - destruct (Nat.eqb_spec 1 n) as [<-|]; reflexivity.
Qed.

(** X24. The batch method follows numpy's broadcasting of the batch axis: it
    returns when the numbers of state rows and control rows are equal or
    one of them is 1, a single row being repeated for the rows of the
    other batch, and raises [ValueError] otherwise. *)
Theorem dynamics_batch_np_broadcasts (self : Pendulum.PendulumDynamics)
    (x u : ndarray) :
  2 <= shape1 x -> 1 <= shape1 u ->
  (shape0 x <> shape0 u /\ shape0 x <> 1 /\ shape0 u <> 1 ->
   Pendulum.dynamics_batch_np self x u = Raise ValueError) /\
  (shape0 x = shape0 u \/ shape0 x = 1 \/ shape0 u = 1 ->
   exists x_new,
     Pendulum.dynamics_batch_np self x u = Ok x_new /\
     shape0 x_new = (if shape0 x =? 1 then shape0 u else shape0 x) /\
     shape1 x_new = 2).
Proof.
  intros Hcx Hcu. unfold Pendulum.dynamics_batch_np.
  rewrite !getcol_in_bounds by lia. rewrite !result_bind_ok.
  destruct (bdim_cases (shape0 x) (shape0 u))
    as [(E & H1 & H2 & H3)|(n & E & Hx & Hu & Hn)].
  - split; [|intros [H|[H|H]]; contradiction].
    intros _. unfold ufunc1 at 1.
    unfold vneg. rewrite !length_map, !length_col, E. reflexivity.
  - split; [intros (H1 & H2 & H3); exfalso; lia|].
    intros _.
    destruct (@ufunc1_bdim sadd (vneg (map ssin (col x 0))) (col u 0) n)
      as (acc & -> & Lacc & _).
    { unfold vneg. now rewrite !length_map, !length_col. }
    rewrite result_bind_ok.
    destruct (@ufunc1_bdim sadd (col x 1)
                (vscale (Pendulum.pd_dt self) acc) n)
      as (ns & -> & Lns & _).
    { unfold vscale. rewrite length_map, length_col, Lacc.
      now apply bdim_into. }
    rewrite result_bind_ok.
    destruct (@ufunc1_bdim sadd (col x 0)
                (vscale (Pendulum.pd_dt self) ns) n)
      as (na & -> & Lna & _).
    { unfold vscale. rewrite length_map, length_col, Lns.
      now apply bdim_into. }
    rewrite result_bind_ok. unfold np_vstack. cbn [forallb].
    rewrite Lns, Lna, Nat.eqb_refl. cbn [andb]. rewrite result_bind_ok.
    eexists. split; [reflexivity|].
    cbn [transpose mtab shape0 shape1 length]. split; [|reflexivity].
    destruct (Nat.eqb_spec (shape0 x) 1); lia.
Qed.

(** X25. One row of controls is applied to every row of states, where the
    elementwise sequence of [dynamics_np] calls fails at the second row. *)
Theorem dynamics_batch_np_single_control (self : Pendulum.PendulumDynamics)
    (x u : ndarray) :
  shape0 u = 1 -> 2 <= shape0 x -> 2 <= shape1 x -> 1 <= shape1 u ->
  Pendulum.dynamics_batch_np self x u
    = Ok (NdArray (shape0 x) 2
            (map (fun i =>
                    let next_speed :=
                      sadd (entry x i 1)
                           (smul (Pendulum.pd_dt self)
                                 (sadd (sneg (ssin (entry x i 0)))
                                       (entry u 0 0))) in
                    [sadd (entry x i 0)
                          (smul (Pendulum.pd_dt self) next_speed);
                     next_speed])
                 (seq 0 (shape0 x)))) /\
  Pendulum.dynamics_np_rows self x u = Raise IndexError.
Proof.
  intros Hu Hx Hcx Hcu. split.
  - unfold Pendulum.dynamics_batch_np.
    rewrite !getcol_in_bounds by lia. rewrite !result_bind_ok.
    assert (Eb : bdim (shape0 x) 1 = Some (shape0 x)).
    { unfold bdim. destruct (Nat.eqb_spec (shape0 x) 1); [lia|].
      destruct (Nat.eqb_spec (shape0 x) 1); [lia|]. reflexivity. }
    destruct (@ufunc1_bdim sadd (vneg (map ssin (col x 0))) (col u 0)
                (shape0 x))
      as (acc & -> & Lacc & Hacc).
    { unfold vneg. now rewrite !length_map, !length_col, Hu. }
    rewrite result_bind_ok.
    destruct (@ufunc1_spec _ sadd (col x 1)
                (vscale (Pendulum.pd_dt self) acc) (shape0 x))
      as (ns & -> & Lns & Hns);
      [now rewrite length_col|unfold vscale; now rewrite length_map|].
    rewrite result_bind_ok.
    destruct (@ufunc1_spec _ sadd (col x 0)
                (vscale (Pendulum.pd_dt self) ns) (shape0 x))
      as (na & -> & Lna & Hna);
      [now rewrite length_col|unfold vscale; now rewrite length_map|].
    rewrite result_bind_ok. unfold np_vstack. cbn [forallb].
    rewrite Lns, Lna, Nat.eqb_refl. cbn [andb]. rewrite result_bind_ok.
    cbn [ret result_monad]. f_equal.
    unfold transpose, mtab. cbn [shape0 shape1 length]. f_equal.
    apply map_ext_in. intros i Hi. apply in_seq in Hi.
    assert (Ea : vget acc i
                 = sadd (sneg (ssin (entry x i 0))) (entry u 0 0)).
    { rewrite Hacc by lia. unfold vneg.
      rewrite !length_map, !length_col, Hu.
      rewrite bidx_lt by lia. unfold bidx at 1. cbn [Nat.eqb].
      rewrite !vget_map by (rewrite ?length_map, length_col; lia).
      rewrite !vget_col by lia. reflexivity. }
    assert (Es : vget ns i
                 = sadd (entry x i 1)
                     (smul (Pendulum.pd_dt self)
                        (sadd (sneg (ssin (entry x i 0))) (entry u 0 0)))).
    { rewrite Hns by lia. unfold vscale.
      rewrite vget_map by lia. rewrite vget_col by lia. now rewrite Ea. }
    unfold vtab. cbn [seq map entry rowsof nth].
    change (nth i na s0) with (vget na i).
    change (nth i ns s0) with (vget ns i).
    rewrite Hna by lia. unfold vscale.
    rewrite vget_map by lia. rewrite vget_col by lia. now rewrite Es.
  - unfold Pendulum.dynamics_np_rows.
    destruct (shape0 x) as [|[|n]] eqn:En; [lia|lia|].
    cbn [seq map_m bind result_monad].
    rewrite (@getitem_ok _ x 0) by lia.
    rewrite (@getitem_ok _ u 0) by lia.
    destruct (Pendulum.dynamics_np self (row x 0) (row u 0)) as [y|e] eqn:Ey.
    + rewrite (@getitem_ok _ x 1) by lia.
      unfold getitem at 1. rewrite Hu. reflexivity.
    + destruct (dynamics_np_cases self (row x 0) (row u 0))
        as [[y Hy]|Herr]; congruence.
Qed.

End PendulumEdges.

Section PendulumSymbolic.
Context {F : Scalar} {T : Trig F}.

Lemma map_m_cons_inv {A B : Type} (f : A -> result B) (a : A) (l : list A)
    (r : list B) :
  map_m f (a :: l) = Ok r ->
  exists b r', f a = Ok b /\ map_m f l = Ok r' /\ r = b :: r'.
Proof.
  cbn. destruct (f a) as [b|]; [|discriminate].
  destruct (map_m f l) as [r'|]; [|discriminate].
  intros H. injection H as <-. now exists b, r'.
Qed.

Lemma map_m_nil_inv {A B : Type} (f : A -> result B) (r : list B) :
  map_m f [] = Ok r -> r = [].
Proof. cbn. intros H. now injection H as <-. Qed.


End PendulumSymbolic.

Section PendulumJacobian.
Context {F : Scalar} {T : Trig F} (sle : num -> num -> Prop)
        (L : ScalarLaws F sle).

Add Ring pendulum_ring : (sl_ring L).

Lemma jacobian_xu_value (dt : num) (x u : vec) :
  2 <= length x -> 1 <= length u ->
  Pendulum.jacobian_xu (Pendulum.PendulumDynamics_init dt) x u
  = Ok (NdArray 2 3
          [[ssub s1 (smul (smul dt dt) (scos (vget x 0))); dt; smul dt dt];
           [sneg (smul dt (scos (vget x 0))); s1; dt]]).
Proof.
  intros Hx Hu.
  destruct x as [|a [|b x]]; cbn [length] in Hx; try lia.
  destruct u as [|c u]; cbn [length] in Hu; try lia.
  unfold Pendulum.jacobian_xu. cbn. do 2 f_equal.
  repeat (apply f_equal2;
          [first [ring | repeat (apply f_equal2; [ring|]); reflexivity]|]).
  reflexivity.
Qed.

(** X28. In exact arithmetic the Jacobian that [jacobian_xu] evaluates is
    [[1 - dt^2 cos x0, dt, dt^2], [-dt cos x0, 1, dt]]; entries of [x]
    and [u] beyond the state and the control are ignored. *)
Theorem jacobian_xu_closed_form (dt : num) (x u : vec) :
  2 <= length x -> 1 <= length u ->
  Pendulum.jacobian_xu (Pendulum.PendulumDynamics_init dt) x u
  = Ok (NdArray 2 3
          [[ssub s1 (smul (smul dt dt) (scos (vget x 0))); dt; smul dt dt];
           [sneg (smul dt (scos (vget x 0))); s1; dt]]).
Proof. exact (jacobian_xu_value dt x u). Qed.

End PendulumJacobian.

Section PendulumDerivative.

Lemma R_laws : ScalarLaws RScalar Rle.
Proof.
  constructor.
  - exact RTheory.
  - exact Rle_refl.
  - exact Rle_trans.
  - exact Rle_antisym.
  - exact Rplus_le_compat.
  - exact Rle_0_sqr.
  - exact Rmult_integral.
Qed.

Lemma d_affine_sin (p q r x : R) :
  derivable_pt_lim (fun t => p * t + q * sin t + r)%R x (p + q * cos x)%R.
Proof.
  apply derivable_pt_lim_ext
    with (f := ((mult_real_fct p id + mult_real_fct q sin) + fct_cte r)%F).
  - intros t. unfold plus_fct, mult_real_fct, fct_cte, id. reflexivity.
  - replace (p + q * cos x)%R with ((p * 1 + q * cos x) + 0)%R by ring.
    apply derivable_pt_lim_plus; [|apply derivable_pt_lim_const].
    apply derivable_pt_lim_plus; apply derivable_pt_lim_scal.
    + apply derivable_pt_lim_id.
    + apply derivable_pt_lim_sin.
Qed.

Lemma d_affine_sin_eq (p q r x l : R) :
  l = (p + q * cos x)%R ->
  derivable_pt_lim (fun t => p * t + q * sin t + r)%R x l.
Proof. intros ->. apply d_affine_sin. Qed.

(** A function [t |-> p t + q sin t + r] and its derivative. *)
Ltac affine_in_sin p q r :=
  apply derivable_pt_lim_ext with (f := fun t => (p * t + q * sin t + r)%R);
  [intros t; ring|apply d_affine_sin_eq; ring].

(** X29. Over the real numbers each entry of the matrix that [jacobian_xu]
    returns is the partial derivative of the corresponding entry of
    [dynamics_np] in the corresponding entry of the state or the
    control. *)
Theorem jacobian_xu_is_derivative (dt x0 x1 u0 : R) (c : nat) :
  c < 2 ->
  exists J,
    @Pendulum.jacobian_xu RScalar RTrig
      (@Pendulum.PendulumDynamics_init RScalar dt) [x0; x1] [u0] = Ok J /\
    derivable_pt_lim
      (fun t => @Pendulum.component RScalar
                  (@Pendulum.dynamics_np RScalar RTrig
                     (@Pendulum.PendulumDynamics_init RScalar dt)
                     [t; x1] [u0]) c)
      x0 (@entry RScalar J c 0) /\
    derivable_pt_lim
      (fun t => @Pendulum.component RScalar
                  (@Pendulum.dynamics_np RScalar RTrig
                     (@Pendulum.PendulumDynamics_init RScalar dt)
                     [x0; t] [u0]) c)
      x1 (@entry RScalar J c 1) /\
    derivable_pt_lim
      (fun t => @Pendulum.component RScalar
                  (@Pendulum.dynamics_np RScalar RTrig
                     (@Pendulum.PendulumDynamics_init RScalar dt)
                     [x0; x1] [t]) c)
      u0 (@entry RScalar J c 2).
Proof.
  intros Hc. eexists. split.
  - apply (@jacobian_xu_value RScalar RTrig Rle R_laws dt [x0; x1] [u0]);
      cbn; lia.
  - destruct c as [|[|c]]; [| |lia]; cbn; (split; [|split]).
    + affine_in_sin 1%R (- (dt * dt))%R (dt * x1 + dt * dt * u0)%R.
    + affine_in_sin dt 0%R (x0 + dt * dt * (- sin x0 + u0))%R.
    + affine_in_sin (dt * dt)%R 0%R (x0 + dt * (x1 + dt * (- sin x0)))%R.
    + affine_in_sin 0%R (- dt)%R (x1 + dt * u0)%R.
    + affine_in_sin 1%R 0%R (dt * (- sin x0 + u0))%R.
    + affine_in_sin dt 0%R (x1 + dt * (- sin x0))%R.
Qed.

End PendulumDerivative.
(* ------------------------------------------------------------------ *)
(** ** Batches and trajectories of the quasistatic adapter; inputs of
    the plant                                                          *)
(* ------------------------------------------------------------------ *)

Section MapFacts.
Context {S : Type}.

Lemma map_m_each {I A : Type} (P : I -> A -> Prop) (f : I -> M S A)
    (l : list I) :
  (forall i s y s', f i s = Ok (y, s') -> P i y) ->
  forall s ys s', map_m f l s = Ok (ys, s') -> Forall2 P l ys.
Proof.
  intros Hf. induction l as [|i l IH]; intros s ys s' H.
  - cbn in H. injection H as <- _. constructor.
  - cbn [map_m] in H. do 2 bind_inv H.
    apply ret_inv in H. destruct H as [-> _].
    constructor; [exact (Hf _ _ _ _ E)|exact (IH _ _ _ E0)].
Qed.

Lemma Forall2_left {I A : Type} (P : I -> A -> Prop) (l : list I)
    (ys : list A) :
  Forall2 P l ys -> forall i, In i l -> exists y, P i y.
Proof.
  induction 1 as [|i y l ys Hp _ IH]; intros k Hk; [contradiction|].
  destruct Hk as [<-|Hk]; [now exists y|now apply IH].
Qed.

Lemma Forall2_right {I A : Type} (P : I -> A -> Prop) (Q : A -> Prop)
    (l : list I) (ys : list A) :
  (forall i y, P i y -> Q y) -> Forall2 P l ys -> Forall Q ys.
Proof.
  intros H. induction 1 as [|i y l ys Hp _ IH]; constructor;
    [exact (H _ _ Hp)|exact IH].
Qed.

End MapFacts.

Section QuasistaticRuns.
Context {F : Scalar} {Sim : Quasistatic.QuasistaticSimulator}
        {SI : Quasistatic.SimulatorIndices}.

(** X9. A batch of transitions that returns has one row per row of [x], each
    with [dim_x] entries, whatever the simulator returned; the batch of
    controls then has at least as many rows as the batch of states. *)
Theorem qs_dynamics_batch_shape (self : Quasistatic.QuasistaticDynamics)
    (x u x_next : ndarray) (s s' : Quasistatic.QSim) :
  Quasistatic.dynamics_batch self x u s = Ok (x_next, s') ->
  has_shape (shape0 x) (Quasistatic.qd_dim_x self) x_next /\
  (0 < shape0 x -> shape0 x <= shape0 u).
Proof.
  intros H. rewrite qs_dynamics_batch_rows in H. bind_inv H.
  apply ret_inv in H. destruct H as [-> _].
  unfold Quasistatic.dynamics_rows in E.
  pose proof (map_m_length _ _ _ E) as Hlen. rewrite length_seq in Hlen.
  assert (Hf : forall i t y t',
            (xi <- lift (getitem x i) ;;
             ui <- lift (getitem u i) ;;
             Quasistatic.dynamics_default self xi ui) t = Ok (y, t') ->
            length y = Quasistatic.qd_dim_x self /\ i < shape0 u).
  { intros i t y t' Hi. do 2 bind_inv Hi.
    apply qs_dynamics_length in Hi. split; [exact Hi|].
    match goal with
    | E : lift (getitem u i) _ = Ok (_, _) |- _ =>
        apply lift_inv in E; destruct E as [E _];
        unfold getitem in E;
        destruct (Nat.ltb_spec i (shape0 u)); [assumption|discriminate]
    end. }
  pose proof (map_m_each _ _ _ Hf _ E) as Hall.
  split.
  - split; [reflexivity|]. split; [reflexivity|].
    split; cbn [rowsof shape0 shape1]; [exact Hlen|].
    apply (@Forall2_right _ _ _
             (fun y => length y = Quasistatic.qd_dim_x self) _ _
             (fun i y H => proj1 H) Hall).
  - intros Hpos.
    destruct (@Forall2_left _ _ _ _ _ Hall (shape0 x - 1)) as (y & _ & Hi);
      [apply in_seq; lia|lia].
Qed.

(** X10. [publish_trajectory] takes every state of the trajectory apart before
    it calls the simulator: it hands the simulator the step and the list
    of configurations when every position index is below the length of
    every state, and raises [IndexError] when some state is too short. *)
Theorem publish_trajectory_checks_first
    (self : Quasistatic.QuasistaticDynamics) (x_traj : ndarray)
    (s : Quasistatic.QSim) :
  ((forall x p i, In x (rowsof x_traj) ->
                  In p (Quasistatic.position_indices_dict self) ->
                  In i (snd p) -> i < length x) ->
   exists q_dict_traj,
     map_m (Quasistatic.get_q_dict_from_x self) (rowsof x_traj)
       = Ok q_dict_traj /\
     length q_dict_traj = length (rowsof x_traj) /\
     Quasistatic.publish_trajectory self x_traj s
       = Quasistatic.animate_system_trajectory (Quasistatic.qd_h self)
           q_dict_traj s) /\
  ((exists x p i, In x (rowsof x_traj) /\
                  In p (Quasistatic.position_indices_dict self) /\
                  In i (snd p) /\ length x <= i) ->
   Quasistatic.publish_trajectory self x_traj s = Raise IndexError).
Proof.
  unfold Quasistatic.publish_trajectory. split.
  - intros Hr.
    exists (map (fun x =>
                   fold_left
                     (fun d p => dict_set d (fst p) (map (vget x) (snd p)))
                     (Quasistatic.position_indices_dict self) [])
                (rowsof x_traj)).
    assert (E : map_m (Quasistatic.get_q_dict_from_x self) (rowsof x_traj)
                = Ok (map (fun x =>
                             fold_left
                               (fun d p =>
                                  dict_set d (fst p) (map (vget x) (snd p)))
                               (Quasistatic.position_indices_dict self) [])
                          (rowsof x_traj))).
    { apply map_m_result_ok. intros x Hx.
      unfold Quasistatic.get_q_dict_from_x. apply q_dict_loop.
      intros p i. now apply Hr. }
    split; [exact E|]. split; [apply length_map|].
    now rewrite (lift_bind_ok _ _ E).
  - intros (x & p & i & Hx & Hp & Hi & Hle).
    apply M_bind_raise.
    assert (E : map_m (Quasistatic.get_q_dict_from_x self) (rowsof x_traj)
                = Raise IndexError).
    { induction (rowsof x_traj) as [|y l IH]; [contradiction|].
      cbn [map_m bind result_monad].
      destruct (Exists_dec
                  (fun p => Exists (fun i => length y <= i) (snd p))
                  (Quasistatic.position_indices_dict self)
                  (fun p => Exists_dec _ (snd p)
                              (fun i => le_dec (length y) i)))
        as [Hbad|Hgood].
      - apply Exists_exists in Hbad. destruct Hbad as (p' & Hp' & Hbad).
        apply Exists_exists in Hbad. destruct Hbad as (i' & Hi' & Hle').
        unfold Quasistatic.get_q_dict_from_x at 1.
        rewrite q_dict_loop_error; [reflexivity|]. now exists p', i'.
      - unfold Quasistatic.get_q_dict_from_x at 1.
        rewrite q_dict_loop.
        + rewrite IH; [reflexivity|].
          destruct Hx as [->|Hx]; [|exact Hx].
          exfalso. apply Hgood, Exists_exists. exists p.
          split; [exact Hp|]. apply Exists_exists. now exists i.
        + intros p' i' Hp' Hi'. apply Nat.nle_gt. intros Hle'.
          apply Hgood, Exists_exists. exists p'.
          split; [exact Hp'|]. apply Exists_exists. now exists i'. }
    now rewrite E.
Qed.

End QuasistaticRuns.

Section PlantInputs.
Context {F : Scalar} {NP : NumpyLib} {D : Mbp.Drake}.

(** X14. [update_mbp_inputs] fixes the input port of every actuated model, in
    their order, when the dictionary has a command for each of them, and
    raises [KeyError] when one is missing; commands of other models are
    not looked at. *)
Theorem update_mbp_inputs_keys {T : Type} (P : Mbp.PlantSim T)
    (plant_context : Mbp.Ctx P) (q_a_dict : dict (list T)) :
  (forall qs, map (dict_get q_a_dict) Mbp.models_actuated = map Ok qs ->
     Mbp.update_mbp_inputs P plant_context q_a_dict
     = Ok (fold_left (fun c mq => Mbp.FixValue P c (fst mq) (snd mq))
                     (combine Mbp.models_actuated qs) plant_context)) /\
  ((exists m, In m Mbp.models_actuated /\ ~ In m (keys q_a_dict)) ->
   Mbp.update_mbp_inputs P plant_context q_a_dict = Raise KeyError).
Proof.
  unfold Mbp.update_mbp_inputs. split.
  - intros qs. revert qs plant_context.
    induction Mbp.models_actuated as [|m l IH]; intros qs c Hq.
    + destruct qs; [reflexivity|discriminate].
    + destruct qs as [|q qs]; [discriminate|].
      cbn [map] in Hq. injection Hq as Hm Hq.
      cbn [for_each bind result_monad]. rewrite Hm.
      cbn [ret result_monad combine fold_left fst snd]. now apply IH.
  - revert plant_context.
    induction Mbp.models_actuated as [|k l IH]; intros c (m & Hin & Hm);
      [contradiction|].
    cbn [for_each bind result_monad].
    destruct (dict_get_cases q_a_dict k) as [[q Hk]|Hk]; rewrite Hk;
      [|reflexivity].
    cbn [ret result_monad]. apply IH.
    destruct Hin as [->|Hin]; [|now exists m].
    exfalso. rewrite (dict_get_missing _ _ Hm) in Hk. discriminate.
Qed.

End PlantInputs.

(* ------------------------------------------------------------------ *)
(** ** Concrete runs                                                   *)
(* ------------------------------------------------------------------ *)

#[local] Existing Instance Reference.numpy.
#[local] Existing Instance Fixture.drake4.

Lemma dynamics_py_equiv_dynamics_run :
  exists y s',
    @Mbp.dynamics _ Reference.numpy Fixture.drake4
      Fixture.x4 Fixture.u4 false (Fixture.state4 []) = Ok (y, s') /\
    @Mbp.dynamics_py _ Reference.numpy Fixture.drake4
      Fixture.x4 Fixture.u4 "qp_mp" true (Fixture.state4 []) = Ok (y, s') /\
    Mbp.simulator_time s'
      = sadd (Mbp.simulator_time (Fixture.state4 []))
             (@Mbp.h _ Fixture.drake4).
Proof.
  eexists. eexists.
  assert (H : @Mbp.dynamics _ Reference.numpy Fixture.drake4
                Fixture.x4 Fixture.u4 false (Fixture.state4 [])
              = Ok (_, _)) by reflexivity.
  split; [exact H|].
  exact (proj2 (@dynamics_py_equiv_dynamics _ Reference.numpy Fixture.drake4
                  Fixture.x4 Fixture.u4 "qp_mp" true false
                  (Fixture.state4 [])) _ _ H).
Defined.

Lemma calc_AB_batch_unknown_mode_run :
  exists out,
    @Mbp.calc_AB_batch _ Reference.numpy Fixture.drake4
      (NdArray 1 4 [Fixture.x4]) (NdArray 1 1 [Fixture.u4]) 3
      (StdFloat (Reference.q 1)) "exact." (Fixture.state4 [])
      = Ok (out, Fixture.state4 []) /\
    shape3_0 out = 1 /\ shape3_1 out = 4 /\ shape3_2 out = 5 /\
    length (slabs out) = 1 /\
    Forall (fun m => has_shape 4 5 m /\ all_zero m) (slabs out).
Proof.
  apply (@calc_AB_batch_unknown_mode _ Reference.numpy Fixture.drake4);
    discriminate.
Defined.

Lemma dynamics_batch_torch_out_of_bounds_run :
  getcol (Pendulum.to_cuda Fixture.pendulum_x) 2 = Raise IndexError /\
  @Pendulum.dynamics_batch_torch RScalar RTrig
    (Pendulum.PendulumDynamics_init (F:=RScalar) 1%R)
    Fixture.pendulum_x Fixture.pendulum_u = Raise IndexError /\
  @Pendulum.dynamics_batch_torch RScalar RTrig
    (Pendulum.PendulumDynamics_init (F:=RScalar) 1%R)
    Fixture.pendulum_x Fixture.pendulum_u
  <> @Pendulum.dynamics_batch_np RScalar RTrig
       (Pendulum.PendulumDynamics_init (F:=RScalar) 1%R)
       Fixture.pendulum_x Fixture.pendulum_u.
Proof.
  apply (@dynamics_batch_torch_out_of_bounds RScalar RTrig); reflexivity.
Defined.

Lemma batch_equals_elementwise_run :
  exists rows,
    @Pendulum.dynamics_np_rows RScalar RTrig
      (@Pendulum.PendulumDynamics_init RScalar 1%R)
      Fixture.pendulum_x Fixture.pendulum_u = Ok rows /\
    @Pendulum.dynamics_batch_np RScalar RTrig
      (@Pendulum.PendulumDynamics_init RScalar 1%R)
      Fixture.pendulum_x Fixture.pendulum_u = Ok (NdArray 2 2 rows).
Proof.
  apply (proj1 (@batch_equals_elementwise RScalar RTrig)).
  - split; [reflexivity|]. repeat constructor.
  - split; [reflexivity|]. repeat constructor.
  - reflexivity.
  - apply le_n.
  - apply le_n.
Defined.






Lemma shape_a4 : has_shape Fixture.n_x Fixture.n_x Fixture.a4.
Proof.
  split; [reflexivity|]. split; [reflexivity|].
  split; [reflexivity|]. repeat constructor.
Qed.

Lemma shape_b4 : has_shape Fixture.n_x Fixture.n_u Fixture.b4.
Proof.
  split; [reflexivity|]. split; [reflexivity|].
  split; [reflexivity|]. repeat constructor.
Qed.

Lemma draw_dx5 :
  @Mbp.with_random QcScalar Reference.numpy Fixture.drake4 _
    (@np_random_normal QcScalar Reference.numpy (@s0 QcScalar)
       Fixture.std1 5 Fixture.n_x)
    (Fixture.state4 Fixture.tape5)
  = Ok (Fixture.dx5, Fixture.state4 [0; 0; 0; 0; 1]%Z).
Proof. reflexivity. Qed.

Lemma draw_du5 :
  @Mbp.with_random QcScalar Reference.numpy Fixture.drake4 _
    (@np_random_normal QcScalar Reference.numpy (@s0 QcScalar)
       Fixture.std1 5 Fixture.n_u)
    (Fixture.state4 [0; 0; 0; 0; 1]%Z)
  = Ok (Fixture.du5, Fixture.state4 []).
Proof. reflexivity. Qed.

Lemma Qc_pick (a r : Qc) :
  Qcplus (Qcmult (Q2Qc 1) a) r = Q2Qc 0 -> r = Q2Qc 0 -> a = Q2Qc 0.
Proof. intros H Hr. rewrite Hr in H. rewrite <- H. ring. Qed.

Lemma Qc_skip (a r : Qc) :
  r = Q2Qc 0 -> Qcplus (Qcmult (Q2Qc 0) a) r = Q2Qc 0.
Proof. intros ->. ring. Qed.

Lemma Qc_drop (a r : Qc) :
  Qcplus (Qcmult (Q2Qc 0) a) r = Q2Qc 0 -> r = Q2Qc 0.
Proof. intros H. rewrite <- H. ring. Qed.

Lemma full_rank_unit_draws :
  full_column_rank (hstack2 Fixture.dx5 Fixture.du5).
Proof.
  intros v Hv Hker.
  destruct v as [|v1 [|v2 [|v3 [|v4 [|v5 [|]]]]]]; try discriminate Hv.
  cbv [matvec hstack2 Fixture.dx5 Fixture.du5 Reference.qmat rowsof shape0
       shape1 seq map row nth app dot combine fold_right fst snd np_zeros1
       vtab] in Hker.
  pose proof (f_equal (fun l => nth 0 l (Q2Qc 0)) Hker) as H1.
  pose proof (f_equal (fun l => nth 1 l (Q2Qc 0)) Hker) as H2.
  pose proof (f_equal (fun l => nth 2 l (Q2Qc 0)) Hker) as H3.
  pose proof (f_equal (fun l => nth 3 l (Q2Qc 0)) Hker) as H4.
  pose proof (f_equal (fun l => nth 4 l (Q2Qc 0)) Hker) as H5.
  cbv [nth] in H1, H2, H3, H4, H5. clear Hker.
  cbv [hstack2 Fixture.dx5 Fixture.du5 Reference.qmat shape1 np_zeros1 vtab
       seq map Nat.add].
  assert (E1 : v1 = Q2Qc 0)
    by (apply (@Qc_pick _ _ H1); repeat apply Qc_skip; reflexivity).
  assert (E2 : v2 = Q2Qc 0)
    by (apply Qc_drop in H2; apply (@Qc_pick _ _ H2);
        repeat apply Qc_skip; reflexivity).
  assert (E3 : v3 = Q2Qc 0)
    by (do 2 apply Qc_drop in H3; apply (@Qc_pick _ _ H3);
        repeat apply Qc_skip; reflexivity).
  assert (E4 : v4 = Q2Qc 0)
    by (do 3 apply Qc_drop in H4; apply (@Qc_pick _ _ H4);
        repeat apply Qc_skip; reflexivity).
  assert (E5 : v5 = Q2Qc 0)
    by (do 4 apply Qc_drop in H5; apply (@Qc_pick _ _ H5);
        repeat apply Qc_skip; reflexivity).
  rewrite E1, E2, E3, E4, E5. reflexivity.
Qed.

(** On this system the reference solver leaves no residual, so it
    returns a minimiser. *)
Lemma lstsq_contract_unit_draws :
  is_least_squares Qcle
    (Mbp.tikhonov_lhs Fixture.dx5 Fixture.du5 (@s0 QcScalar))
    (Mbp.tikhonov_rhs
       (map (fun i => Mbp.linear_step Fixture.a4 Fixture.b4
                        (vadd Fixture.x4 (row Fixture.dx5 i))
                        (vadd Fixture.u4 (row Fixture.du5 i))) (seq 0 5))
       (Mbp.linear_step Fixture.a4 Fixture.b4 Fixture.x4 Fixture.u4))
    (lstsq_solution
       (Mbp.tikhonov_lhs Fixture.dx5 Fixture.du5 (@s0 QcScalar))
       (Mbp.tikhonov_rhs
          (map (fun i => Mbp.linear_step Fixture.a4 Fixture.b4
                           (vadd Fixture.x4 (row Fixture.dx5 i))
                           (vadd Fixture.u4 (row Fixture.du5 i))) (seq 0 5))
          (Mbp.linear_step Fixture.a4 Fixture.b4 Fixture.x4 Fixture.u4))).
Proof.
  split.
  - apply has_shape_mtab.
  - intros y _.
    match goal with
    | |- Qcle ?r _ => replace r with (Q2Qc 0)
    end.
    + apply (residual_nonneg Qc_laws).
    + symmetry. apply Qc_is_canon. vm_compute. reflexivity.
Qed.




(* ------------------------------------------------------------------ *)
(** ** Concrete runs: the quasistatic adapter on a planar hand         *)
(* ------------------------------------------------------------------ *)

Lemma NoDup_0_2 : NoDup [0; 2].
Proof.
  constructor; [|constructor; [intros []|constructor]].
  intros [H|[]]. discriminate H.
Qed.

Lemma get_q_a_cmd_dict_from_u_chunks_run :
  @Quasistatic.get_q_a_cmd_dict_from_u QcScalar Fixture.hand
    Fixture.hand_dynamics Fixture.hand_u
  = Ok (combine [0; 2] (chunks Fixture.hand_u [2; 2])).
Proof.
  apply (@get_q_a_cmd_dict_from_u_chunks QcScalar Fixture.hand
           Fixture.hand_dynamics Fixture.hand_u [2; 2]).
  - exact NoDup_0_2.
  - reflexivity.
Defined.

Lemma get_q_a_cmd_dict_from_u_key_error_run :
  exists d,
    @Quasistatic.get_q_a_cmd_dict_from_u QcScalar Fixture.hand
      Fixture.hand_dynamics [] = Ok d.
Proof.
  apply (proj2 (@get_q_a_cmd_dict_from_u_key_error QcScalar Fixture.hand
                  Fixture.hand_dynamics [])).
  intros m [<-|[<-|[]]]; eexists; reflexivity.
Defined.

Lemma u_round_trip_run :
  exists q_a_cmd_dict,
    @Quasistatic.get_q_a_cmd_dict_from_u QcScalar Fixture.hand
      Fixture.hand_dynamics Fixture.hand_u = Ok q_a_cmd_dict /\
    @Quasistatic.get_u_from_q_cmd_dict QcScalar Fixture.hand
      Fixture.hand_dynamics q_a_cmd_dict = Ok Fixture.hand_u.
Proof.
  apply (@u_round_trip QcScalar Fixture.hand Fixture.hand_dynamics
           Fixture.hand_u [2; 2]).
  - exact NoDup_0_2.
  - reflexivity.
  - reflexivity.
  - reflexivity.
Defined.

Lemma get_u_indices_into_x_concat_run :
  @Quasistatic.get_u_indices_into_x QcScalar Fixture.hand
    Fixture.hand_velocities Fixture.hand_dynamics
  = Ok (concat [[0; 1]; [3; 4]]).
Proof.
  apply (@get_u_indices_into_x_concat QcScalar Fixture.hand
           Fixture.hand_velocities Fixture.hand_dynamics
           [[0; 1]; [3; 4]]).
  - reflexivity.
  - reflexivity.
Defined.

Lemma hand_indices_in_range (m i : nat) :
  In m [0; 1; 2] -> In i (Fixture.hand_indices m) -> i < 5.
Proof.
  intros [<-|[<-|[<-|[]]]]; cbn; intuition lia.
Qed.

Lemma hand_indices_cover (i : nat) :
  i < 5 -> exists m, In m [0; 1; 2] /\ In i (Fixture.hand_indices m).
Proof.
  intros Hi.
  destruct i as [|[|[|[|[|i]]]]]; [exists 0|exists 0|exists 1|exists 2
                                  |exists 2|lia]; cbn; intuition.
Qed.

Lemma x_round_trip_run :
  exists q_dict,
    @Quasistatic.get_q_dict_from_x QcScalar
      Fixture.hand_dynamics Fixture.hand_x = Ok q_dict /\
    @Quasistatic.get_x_from_q_dict QcScalar
      Fixture.hand_dynamics q_dict = Ok Fixture.hand_x.
Proof.
  apply (@x_round_trip QcScalar Fixture.hand (Reference.q 1) Fixture.hand_x).
  - reflexivity.
  - exact hand_indices_in_range.
  - exact hand_indices_cover.
Defined.

Lemma get_x_from_q_dict_requires_run :
  length Fixture.hand_x
    = Quasistatic.qd_dim_x Fixture.hand_dynamics /\
  (forall p, In p (Quasistatic.position_indices_dict Fixture.hand_dynamics) ->
     exists q, dict_get Fixture.hand_q_dict (fst p) = Ok q /\
               (length q = length (snd p) \/ length q = 1) /\
               forall i, In i (snd p) ->
                         i < Quasistatic.qd_dim_x Fixture.hand_dynamics) /\
  (forall j,
     (forall p,
        In p (Quasistatic.position_indices_dict Fixture.hand_dynamics) ->
        ~ In j (snd p)) ->
     vget Fixture.hand_x j = @s0 QcScalar).
Proof.
  apply (@get_x_from_q_dict_requires QcScalar Fixture.hand_dynamics
           Fixture.hand_q_dict Fixture.hand_x).
  reflexivity.
Defined.

Lemma get_q_dict_from_x_bounds_run :
  @Quasistatic.get_q_dict_from_x QcScalar Fixture.hand_dynamics
    (Reference.qvec [1; 2; 3]%Z) = Raise IndexError.
Proof.
  apply (proj2 (@get_q_dict_from_x_bounds QcScalar Fixture.hand_dynamics
                  (Reference.qvec [1; 2; 3]%Z))).
  exists (2, [3; 4]), 3. cbn. intuition lia.
Defined.

Lemma get_Q_from_Q_dict_diagonal_run :
  exists Q,
    @Quasistatic.get_Q_from_Q_dict QcScalar Fixture.hand
      Fixture.hand_velocities Fixture.hand_dynamics Fixture.hand_Q_dict
      = Ok Q /\
    has_shape 5 5 Q /\
    forall i j, i < 5 -> j < 5 ->
      entry Q i j
      = if i =? j
        then if indexed [(0, [0; 1]); (1, [2]); (2, [3; 4])] i
             then Fixture.hand_weights i else @s1 QcScalar
        else @s0 QcScalar.
Proof.
  apply (@get_Q_from_Q_dict_diagonal QcScalar Fixture.hand
           Fixture.hand_velocities Fixture.hand_dynamics
           Fixture.hand_Q_dict Fixture.hand_weights).
  - intros p [<-|[<-|[<-|[]]]]; reflexivity.
  - intros p i [<-|[<-|[<-|[]]]]; cbn; intuition lia.
Defined.

Lemma qs_dynamics_batch_shape_run :
  exists x_next s',
    @Quasistatic.dynamics_batch QcScalar Fixture.hand Fixture.hand_dynamics
      (NdArray 2 5 [Fixture.hand_x; Fixture.hand_x])
      (NdArray 2 4 [Fixture.hand_u; Fixture.hand_u]) [] = Ok (x_next, s') /\
    has_shape 2 5 x_next /\ (0 < 2 -> 2 <= 2).
Proof.
  eexists. eexists.
  assert (H : @Quasistatic.dynamics_batch QcScalar Fixture.hand
                Fixture.hand_dynamics
                (NdArray 2 5 [Fixture.hand_x; Fixture.hand_x])
                (NdArray 2 4 [Fixture.hand_u; Fixture.hand_u]) []
              = Ok (_, _)) by reflexivity.
  split; [exact H|].
  exact (@qs_dynamics_batch_shape QcScalar Fixture.hand Fixture.hand_dynamics
           _ _ _ _ _ H).
Defined.

Lemma publish_trajectory_checks_first_run :
  @Quasistatic.publish_trajectory QcScalar Fixture.hand
    Fixture.hand_velocities Fixture.hand_dynamics
    (@NdArray QcScalar 2 5 [Fixture.hand_x; Reference.qvec [1; 2; 3]%Z]) []
  = Raise IndexError.
Proof.
  apply (proj2 (@publish_trajectory_checks_first QcScalar Fixture.hand
                  Fixture.hand_velocities Fixture.hand_dynamics
                  (@NdArray QcScalar 2 5 [Fixture.hand_x; Reference.qvec [1; 2; 3]%Z])
                  [])).
  exists (Reference.qvec [1; 2; 3]%Z), (2, [3; 4]), 3. cbn. intuition lia.
Defined.

(* ------------------------------------------------------------------ *)
(** ** Concrete runs: the plant adapter                                *)
(* ------------------------------------------------------------------ *)

Lemma NoDup_0_1 : NoDup [0; 1].
Proof.
  constructor; [|constructor; [intros []|constructor]].
  intros [H|[]]. discriminate H.
Qed.

Lemma mbp_x_round_trip_run :
  exists q_dict,
    @Mbp.get_q_dict_from_x QcScalar Fixture.two_arms Fixture.arms_x
      = Ok q_dict /\
    @Mbp.get_x_from_q_dict QcScalar Fixture.two_arms q_dict
      = Ok Fixture.arms_x.
Proof.
  apply (@mbp_x_round_trip QcScalar Fixture.two_arms Fixture.arms_x).
  - reflexivity.
  - reflexivity.
  - exact NoDup_0_1.
  - intros p i [<-|[<-|[]]]; cbn; intuition lia.
  - intros i Hi. destruct i as [|[|i]]; [exists (0, [0])|exists (1, [1])|];
      cbn in *; intuition lia.
  - reflexivity.
Defined.

Lemma mbp_get_Q_from_Q_dict_diagonal_run :
  exists Q,
    @Mbp.get_Q_from_Q_dict QcScalar Fixture.two_arms Fixture.arms_Q_dict
      = Ok Q /\
    has_shape 4 4 Q /\
    forall i j, i < 4 -> j < 4 ->
      entry Q i j
      = if i =? j
        then if indexed [(0, [0]); (1, [1])] i
                || indexed (shifted 2 [(0, [0]); (1, [1])]) i
             then Fixture.arms_weights i else @s1 QcScalar
        else @s0 QcScalar.
Proof.
  apply (@mbp_get_Q_from_Q_dict_diagonal QcScalar Fixture.two_arms
           Fixture.arms_Q_dict Fixture.arms_weights).
  - intros p [<-|[<-|[]]]; eexists; split; reflexivity.
  - intros p [<-|[<-|[]]]; eexists; split; reflexivity.
  - intros p i [<-|[<-|[]]]; cbn; intuition lia.
  - intros p i [<-|[<-|[]]]; cbn; intuition lia.
Defined.

Lemma get_R_from_R_dict_top_left_run :
  exists R,
    @Mbp.get_R_from_R_dict QcScalar Fixture.two_arms
      Fixture.one_velocity_each Fixture.arms_R_dict = Ok R /\
    has_shape 2 2 R /\
    forall i j, i < 2 -> j < 2 ->
      (forall m, In m [0; 1] -> 1 <= i \/ 1 <= j) ->
      entry R i j = if i =? j then @s1 QcScalar else @s0 QcScalar.
Proof.
  eexists.
  assert (H : @Mbp.get_R_from_R_dict QcScalar Fixture.two_arms
                Fixture.one_velocity_each Fixture.arms_R_dict = Ok _)
    by reflexivity.
  split; [exact H|].
  exact (@get_R_from_R_dict_top_left QcScalar Fixture.two_arms
           Fixture.one_velocity_each Fixture.arms_R_dict _ H).
Defined.

Lemma update_mbp_inputs_keys_run :
  @Mbp.update_mbp_inputs QcScalar Fixture.drake4 Qc
    (@Mbp.plant QcScalar Fixture.drake4)
    (Mbp.context (Fixture.state4 [])) []
  = Raise KeyError.
Proof.
  apply (proj2 (@update_mbp_inputs_keys QcScalar Fixture.drake4 Qc
                  (@Mbp.plant QcScalar Fixture.drake4)
                  (Mbp.context (Fixture.state4 [])) [])).
  exists 0. split; [now left|intros []].
Defined.

Lemma dynamics_batch_clock_run :
  exists x_next s',
    @Mbp.dynamics_batch QcScalar Reference.numpy Fixture.drake4
      Fixture.xs2 Fixture.us2 (Fixture.state4 []) = Ok (x_next, s') /\
    Mbp.simulator_time s'
      = Nat.iter 2 (fun t => sadd t (@Mbp.h QcScalar Fixture.drake4))
                 (Mbp.simulator_time (Fixture.state4 [])) /\
    Mbp.simulator_time_ad s' = Mbp.simulator_time_ad (Fixture.state4 []) /\
    Mbp.context_ad s' = Mbp.context_ad (Fixture.state4 []) /\
    Mbp.np_random s' = Mbp.np_random (Fixture.state4 []).
Proof.
  eexists. eexists.
  assert (H : @Mbp.dynamics_batch QcScalar Reference.numpy Fixture.drake4
                Fixture.xs2 Fixture.us2 (Fixture.state4 []) = Ok (_, _))
    by reflexivity.
  split; [exact H|].
  exact (@dynamics_batch_clock QcScalar Reference.numpy Fixture.drake4
           Fixture.xs2 Fixture.us2 (Fixture.state4 []) _ _ H).
Defined.

Lemma first_order_uses_only_autodiff_run :
  exists AB s',
    @Mbp.calc_AB_first_order QcScalar Reference.numpy Fixture.drake4
      Fixture.x4 Fixture.u4 2 Fixture.std1 (Fixture.state4 [1; 2]%Z)
      = Ok (AB, s') /\
    Mbp.simulator_time_ad s'
      = Nat.iter 2 (fun t => sadd t (@Mbp.h QcScalar Fixture.drake4))
                 (Mbp.simulator_time_ad (Fixture.state4 [1; 2]%Z)) /\
    Mbp.simulator_time s' = Mbp.simulator_time (Fixture.state4 [1; 2]%Z) /\
    Mbp.context s' = Mbp.context (Fixture.state4 [1; 2]%Z).
Proof.
  destruct (@calc_AB_first_order_total QcScalar Reference.numpy
              Fixture.drake4 2 Fixture.std1 drake4_jacobian_contract I
              Fixture.x4 Fixture.u4 (Fixture.state4 [1; 2]%Z)
              eq_refl eq_refl) as (AB & s' & E & _).
  exists AB, s'. split; [exact E|].
  exact (@first_order_uses_only_autodiff QcScalar Reference.numpy
           Fixture.drake4 _ _ _ _ _ _ _ E).
Defined.

Lemma zero_order_uses_no_autodiff_run :
  exists AB s',
    @Mbp.calc_AB_zero_order QcScalar Reference.numpy Fixture.drake4
      Fixture.x4 Fixture.u4 1 Fixture.std1 Fixture.std1 (Reference.q 7)
      (Fixture.state4 Fixture.tape1) = Ok (AB, s') /\
    Mbp.simulator_time s'
      = Nat.iter 2 (fun t => sadd t (@Mbp.h QcScalar Fixture.drake4))
                 (Mbp.simulator_time (Fixture.state4 Fixture.tape1)) /\
    Mbp.simulator_time_ad s'
      = Mbp.simulator_time_ad (Fixture.state4 Fixture.tape1) /\
    Mbp.context_ad s' = Mbp.context_ad (Fixture.state4 Fixture.tape1).
Proof.
  destruct (@calc_AB_zero_order_total QcScalar Reference.numpy
              Fixture.drake4 1 Fixture.std1 Fixture.std1 (Reference.q 7)
              drake4_dynamics_contract I I
              Fixture.x4 Fixture.u4 (Fixture.state4 Fixture.tape1)
              eq_refl eq_refl) as (AB & s' & E & _).
  exists AB, s'. split; [exact E|].
  exact (@zero_order_uses_no_autodiff QcScalar Reference.numpy
           Fixture.drake4 _ _ _ _ _ _ _ _ _ E).
Defined.


Lemma shape_xs2 : has_shape 2 Fixture.n_x Fixture.xs2.
Proof.
  split; [reflexivity|]. split; [reflexivity|].
  split; [reflexivity|]. repeat constructor.
Qed.

Lemma shape_us2 : has_shape 2 Fixture.n_u Fixture.us2.
Proof.
  split; [reflexivity|]. split; [reflexivity|].
  split; [reflexivity|]. repeat constructor.
Qed.

Lemma shape_us1 : has_shape 1 Fixture.n_u Fixture.us1.
Proof.
  split; [reflexivity|]. split; [reflexivity|].
  split; [reflexivity|]. repeat constructor.
Qed.

Lemma calc_AB_batch_elementwise_run :
  @Mbp.calc_AB_batch QcScalar Reference.numpy Fixture.drake4
    Fixture.xs2 Fixture.us2 3 Fixture.std1 "exact" (Fixture.state4 [])
  = (Js <- map_m (fun i =>
                    @Mbp.calc_AB_exact QcScalar Reference.numpy
                      Fixture.drake4 (row Fixture.xs2 i) (row Fixture.us2 i))
                 (seq 0 2) ;;
     ret (NdArray3 2 Fixture.n_x (Fixture.n_x + Fixture.n_u) Js))
      (Fixture.state4 []).
Proof.
  apply (@calc_AB_batch_elementwise QcScalar Reference.numpy Fixture.drake4
           Fixture.xs2 Fixture.us2 2 3 Fixture.std1 "exact"
           (fun x u => @Mbp.calc_AB_exact QcScalar Reference.numpy
                         Fixture.drake4 x u)
           (Fixture.state4 [])).
  - right. right. right. left. reflexivity.
  - exact drake4_dynamics_contract.
  - exact drake4_jacobian_contract.
  - exact I.
  - exact shape_xs2.
  - exact shape_us2.
Defined.

Lemma mbp_dynamics_batch_elementwise_run :
  @Mbp.dynamics_batch QcScalar Reference.numpy Fixture.drake4
    Fixture.xs2 Fixture.us2 (Fixture.state4 [])
  = (rows <- map_m (fun i =>
                      @Mbp.dynamics QcScalar Reference.numpy Fixture.drake4
                        (row Fixture.xs2 i) (row Fixture.us2 i) false)
                   (seq 0 2) ;;
     ret (NdArray 2 Fixture.n_x rows)) (Fixture.state4 []).
Proof.
  apply (@mbp_dynamics_batch_elementwise QcScalar Reference.numpy
           Fixture.drake4 Fixture.xs2 Fixture.us2 2 (Fixture.state4 [])).
  - exact drake4_dynamics_contract.
  - exact shape_xs2.
  - exact shape_us2.
Defined.


Lemma calc_AB_batch_bad_std_run :
  @Mbp.calc_AB_batch QcScalar Reference.numpy Fixture.drake4
    Fixture.xs2 Fixture.us2 3 (StdArray Fixture.x4) "first_order"
    (Fixture.state4 [])
  = Raise ValueError.
Proof.
  apply (proj1 (@calc_AB_batch_bad_std QcScalar Reference.numpy
                  Fixture.drake4 Fixture.xs2 Fixture.us2 3 Fixture.x4
                  "first_order" (Fixture.state4 [])
                  (or_introl eq_refl)
                  ltac:(discriminate) ltac:(discriminate))).
  - apply le_S, le_n.
  - apply le_S, le_n.
Defined.

(* ------------------------------------------------------------------ *)
(** ** Concrete runs: the pendulum                                     *)
(* ------------------------------------------------------------------ *)

Lemma dynamics_np_reads_three_run :
  @Pendulum.dynamics_np RScalar RTrig
    (@Pendulum.PendulumDynamics_init RScalar 1%R) [0%R] [1%R]
  = Raise IndexError.
Proof.
  apply (proj2 (@dynamics_np_reads_three RScalar RTrig
                  (@Pendulum.PendulumDynamics_init RScalar 1%R)
                  [0%R] [1%R])).
  left. apply le_n.
Defined.


Lemma dynamics_batch_np_broadcasts_run :
  exists x_new,
    @Pendulum.dynamics_batch_np RScalar RTrig
      (@Pendulum.PendulumDynamics_init RScalar 1%R)
      Fixture.pendulum_x Fixture.one_control = Ok x_new /\
    shape0 x_new = 2 /\ shape1 x_new = 2.
Proof.
  apply (proj2 (@dynamics_batch_np_broadcasts RScalar RTrig
                  (@Pendulum.PendulumDynamics_init RScalar 1%R)
                  Fixture.pendulum_x Fixture.one_control
                  (le_n 2) (le_n 1))).
  right. right. reflexivity.
Defined.

Lemma dynamics_batch_np_single_control_run :
  @Pendulum.dynamics_np_rows RScalar RTrig
    (@Pendulum.PendulumDynamics_init RScalar 1%R)
    Fixture.pendulum_x Fixture.one_control = Raise IndexError.
Proof.
  apply (proj2 (@dynamics_batch_np_single_control RScalar RTrig
                  (@Pendulum.PendulumDynamics_init RScalar 1%R)
                  Fixture.pendulum_x Fixture.one_control
                  eq_refl (le_n 2) (le_n 2) (le_n 1))).
Defined.


Lemma jacobian_xu_closed_form_run :
  @Pendulum.jacobian_xu RScalar RTrig
    (@Pendulum.PendulumDynamics_init RScalar 2%R) [0%R; 1%R] [1%R]
  = Ok (@NdArray RScalar 2 3
          [[(1 - 2 * 2 * cos 0)%R; 2%R; (2 * 2)%R];
           [(- (2 * cos 0))%R; 1%R; 2%R]]).
Proof.
  apply (@jacobian_xu_closed_form RScalar RTrig Rle R_laws 2%R
           [0%R; 1%R] [1%R]).
  - apply le_n.
  - apply le_n.
Defined.

Lemma jacobian_xu_is_derivative_run :
  exists J,
    @Pendulum.jacobian_xu RScalar RTrig
      (@Pendulum.PendulumDynamics_init RScalar 2%R) [0%R; 1%R] [1%R]
      = Ok J /\
    derivable_pt_lim
      (fun t => @Pendulum.component RScalar
                  (@Pendulum.dynamics_np RScalar RTrig
                     (@Pendulum.PendulumDynamics_init RScalar 2%R)
                     [t; 1%R] [1%R]) 0)
      0%R (@entry RScalar J 0 0) /\
    derivable_pt_lim
      (fun t => @Pendulum.component RScalar
                  (@Pendulum.dynamics_np RScalar RTrig
                     (@Pendulum.PendulumDynamics_init RScalar 2%R)
                     [0%R; t] [1%R]) 0)
      1%R (@entry RScalar J 0 1) /\
    derivable_pt_lim
      (fun t => @Pendulum.component RScalar
                  (@Pendulum.dynamics_np RScalar RTrig
                     (@Pendulum.PendulumDynamics_init RScalar 2%R)
                     [0%R; 1%R] [t]) 0)
      1%R (@entry RScalar J 0 2).
Proof.
  apply (@jacobian_xu_is_derivative 2%R 0%R 1%R 1%R 0).
  apply le_S, le_n.
Defined.
